(** * A shallow embedding of the opencode-orchestrator task engine

    The development follows the TypeScript sources module by module:

    - [JS]: the dynamically typed values the handlers inspect (event payloads,
      thrown errors), with JavaScript truthiness, [||] and optional chaining;
    - [Eff]: the state-and-exception monad in which the stateful code is
      written, and the interface to the outside world (file system, git
      subprocesses, tracker API, OpenCode server), every call to which is
      recorded in a trace;
    - [Quality]: [src/tasks/quality.ts];
    - [GitHub], [Labels]: [src/github/client.ts], [src/github/labels.ts];
    - [Worktree], [OpenCode]: [src/tasks/worktree.ts], [src/tasks/opencode.ts];
    - [Manager]: [src/tasks/manager.ts];
    - [Orchestrator]: [src/index.ts];
    - [Slug], [Logger], [ConfigParse]: [src/utils/slug.ts],
      [src/utils/logger.ts] and the parsing of environment variables in
      [src/config.ts];
    - [WorktreeAdmin], [Poller], [Paging]: the remaining worktree
      commands, the poll, and the paging loop of the comment listing.

    Definitions come first; the theorems about them follow in the second
    half of the file. *)

From Stdlib Require Import ZArith Ascii String List Bool Lia Sorted.
From stdpp Require Import base option list gmap strings pretty.

Set Warnings "-register-all".

Local Open Scope string_scope.
Local Open Scope Z_scope.

(* ===================================================================== *)
(** * JavaScript values                                                   *)
(* ===================================================================== *)

Module JS.

(** Parsed JSON and other dynamically typed data.  Numbers are the
    integer-valued ones: the code only compares them with integer
    constants. *)
Inductive value : Type :=
| Undefined
| Null
| Bool (b : bool)
| Num (n : Z)
| Str (s : string)
| Arr (items : list value)
| Obj (fields : list (string * value)).

(** [if (v)], [!v], the left operand of [||] and [&&]. *)
Definition truthy (v : value) : bool :=
  match v with
  | Undefined | Null => false
  | Bool b => b
  | Num n => negb (Z.eqb n 0)
  | Str s => negb (String.eqb s "")
  | Arr _ | Obj _ => true
  end.

(** [a || b] *)
Definition or (a b : value) : value := if truthy a then a else b.

Fixpoint assoc (k : string) (fields : list (string * value)) : value :=
  match fields with
  | [] => Undefined
  | (k', v) :: rest => if String.eqb k k' then v else assoc k rest
  end.

(** [v?.k]; also [v.k] wherever the code has already checked that [v] is
    truthy. *)
Definition get (k : string) (v : value) : value :=
  match v with
  | Obj fields => assoc k fields
  | _ => Undefined
  end.

(** [v === 's'] for a string literal. *)
Definition is_str (v : value) (s : string) : bool :=
  match v with
  | Str s' => String.eqb s' s
  | _ => false
  end.

(** [v !== n] for a number literal. *)
Definition neq_num (v : value) (n : Z) : bool :=
  match v with
  | Num n' => negb (Z.eqb n' n)
  | _ => true
  end.

(** The string held by a field that the interfaces declare as [string];
    anything else reads as absent. *)
Definition as_str (v : value) : option string :=
  match v with
  | Str s => Some s
  | _ => None
  end.

(** [s.includes(sub)] *)
Fixpoint includes (s sub : string) : bool :=
  String.prefix sub s
  || match s with
     | EmptyString => false
     | String _ s' => includes s' sub
     end.

(** [s.startsWith(p)] *)
Definition startsWith (s p : string) : bool := String.prefix p s.

(** Strings are sequences of code units below 256.  Among these the
    white space and line terminators of JavaScript are the tab, the line
    feed, the vertical tab, the form feed, the carriage return, the
    space and the no-break space. *)
Definition is_space (c : Ascii.ascii) : bool :=
  Ascii.is_space c || Ascii.eqb c "160"%char.

(** [s.trim()] *)
Fixpoint trim_start (s : string) : string :=
  match s with
  | String c s' => if is_space c then trim_start s' else s
  | EmptyString => s
  end.

Definition trim (s : string) : string :=
  String.rev (trim_start (String.rev (trim_start s))).

(** [s.replace(pat, by)] for a string pattern: the first occurrence. *)
Fixpoint replace_first (s pat by_ : string) : string :=
  if String.prefix pat s
  then by_ ++ String.substring (String.length pat)
                (String.length s - String.length pat) s
  else match s with
       | EmptyString => s
       | String c s' => String c (replace_first s' pat by_)
       end.

(** [s.toLowerCase()] on code units below 256: the capitals of ASCII
    and those from U+00C0 to U+00DE, the multiplication sign U+00D7
    excepted, go up by 32; every other character stays. *)
Definition lower_char (c : Ascii.ascii) : Ascii.ascii :=
  let n := Ascii.nat_of_ascii c in
  if ((65 <=? n) && (n <=? 90)
      || (192 <=? n) && (n <=? 222) && negb (n =? 215))%nat
  then Ascii.ascii_of_nat (n + 32) else c.

Fixpoint toLowerCase (s : string) : string :=
  match s with
  | EmptyString => EmptyString
  | String c s' => String (lower_char c) (toLowerCase s')
  end.

(** A value spliced into a template literal. *)
Definition to_string (v : value) : string :=
  match v with
  | Undefined => "undefined"
  | Null => "null"
  | Bool true => "true"
  | Bool false => "false"
  | Num n => pretty n
  | Str s => s
  | Arr _ => ""
  | Obj _ => "[object Object]"
  end.

(** [path.dirname] of a normalised path. *)
Fixpoint before_last_slash (s : string) : option string :=
  match s with
  | EmptyString => None
  | String c s' =>
      match before_last_slash s' with
      | Some d => Some (String c d)
      | None => if Ascii.eqb c "/"%char then Some EmptyString else None
      end
  end.

Definition dirname (p : string) : string :=
  match before_last_slash p with
  | Some EmptyString => "/"
  | Some d => d
  | None => "."
  end.

Definition substring_from (n : nat) (s : string) : string :=
  String.substring n (String.length s - n) s.

End JS.

(* ===================================================================== *)
(** * Tracker data (src/github/client.ts)                                 *)
(* ===================================================================== *)

Module Comment.
(** [createdAt] is an ISO-8601 string in the source; the model keeps the
    instant it denotes, in milliseconds, which is what [new Date(...)]
    makes of it. *)
Record t : Type :=
  { id : Z; body : string; author : string; createdAt : Z }.
End Comment.

Module Issue.
(** [author] is read by [isUserAllowed] although the [Issue] interface
    does not declare it and [getIssuesWithLabel] never sets it: it is
    [None] for every issue the client builds. *)
Record t : Type := {
  number : Z;
  title : string;
  body : string;
  labels : list string;
  comments : list Comment.t;
  createdAt : Z;
  updatedAt : Z;
  author : option string;
}.
End Issue.

(** What [octokit.issues.listForRepo] answers for one issue, as far as
    [getIssuesWithLabel] reads it: a label is a string or an object with
    an optional [name], and the body may be [null]. *)
Module RawIssue.
Record t : Type := {
  number : Z;
  title : string;
  body : option string;
  labels : list (string + option string);
  created_at : Z;
  updated_at : Z;
}.
End RawIssue.

(* ===================================================================== *)
(** * Effects                                                             *)
(* ===================================================================== *)

Module Eff.

(** A computation either returns or throws a JavaScript value. *)
Inductive result (A : Type) : Type :=
| Ok (a : A)
| Throw (e : JS.value).
Arguments Ok {A} a.
Arguments Throw {A} e.

(** State passing with exceptions.  As in JavaScript, what a computation
    did to the state before it threw stays done. *)
Definition M (S A : Type) : Type := S -> result A * S.

Definition ret {S A} (a : A) : M S A := fun s => (Ok a, s).

Definition bind {S A B} (m : M S A) (k : A -> M S B) : M S B :=
  fun s =>
    match m s with
    | (Ok a, s') => k a s'
    | (Throw e, s') => (Throw e, s')
    end.

Definition throw {S A} (e : JS.value) : M S A := fun s => (Throw e, s).

(** [try { m } catch (e) { h e }] *)
Definition try_catch {S A} (m : M S A) (h : JS.value -> M S A) : M S A :=
  fun s =>
    match m s with
    | (Ok a, s') => (Ok a, s')
    | (Throw e, s') => h e s'
    end.

Definition gets {S A} (f : S -> A) : M S A := fun s => (Ok (f s), s).
Definition modify {S} (f : S -> S) : M S unit := fun s => (Ok tt, f s).

Definition when {S} (c : bool) (m : M S unit) : M S unit :=
  if c then m else ret tt.

(** [x ← m; k] and [m;; k] below are [bind]. *)
#[export] Instance M_bind {S} : MBind (M S) := fun A B k m => bind m k.

(** [for (const x of l) { ... }] collecting what each round returns;
    also [Promise.all(l.map(async x => ...))], whose results keep the
    order of [l]. *)
Fixpoint mapM {S A B} (f : A -> M S B) (l : list A) : M S (list B) :=
  match l with
  | [] => ret []
  | x :: rest =>
      bind (f x) (fun y => bind (mapM f rest) (fun ys => ret (y :: ys)))
  end.

(** A pure value of the surrounding code, as a computation. *)
Definition lift {S A} (r : result A) : M S A := fun s => (r, s).

(** Calls that leave the process.  Each constructor is one call site
    family of the sources; the arguments are the ones the code passes. *)
Inductive call : Type :=
| ExistsSync (path : string)
| ReadFileSync (path : string)
| MkdirSync (path : string)
| ExecSync (cwd command : string)
| RemoveLabel (issue_number : Z) (name : string)
| AddLabels (issue_number : Z) (label : string)
| CreateComment (issue_number : Z) (body : string)
| ListForRepo (labels : string)
| ListComments (issue_number : Z)
| AbortSession (session_id : string)
| CreateSession (title : string) (directory : string)
| GetSession (session_id : string)
| SendPromptAsync (session_id : string) (text : string)
| GetSessionStatus
| GetAgents
| GetProviders
| StreamEvents (session_id : string)
| SetInterval (session_id : string)
| CloseEventSource (session_id : string)
| ClearInterval (session_id : string)
| LogCall (level : string) (issueNumber : option Z) (message : string).

(** The world outside the process, as far as the code can tell: what each
    call answers (or throws) and how it changes the world, and what the
    clock reads ([Date.now()], in milliseconds).  The pure
    library and template functions whose text plays no role are fields
    too. *)
Class Env : Type := {
  World : Type;
  perform : World -> call -> result JS.value * World;
  Date_now : World -> Z;
  (** [octokit.issues.listForRepo] for open issues with a label, 20 per
      page, [sort: 'created'], [direction: 'asc']: the first page. *)
  listForRepo : World -> string -> result (list RawIssue.t) * World;
  (** [GitHubClient.getIssueComments]: every page of an issue's comment
      listing in order, or the empty list when a request fails; the
      paging loop itself is not unfolded. *)
  getIssueComments : World -> Z -> list Comment.t * World;
  JSON_parse : string -> result JS.value;
  JSON_stringify : JS.value -> string;
  (** [src/prompts/orchestrator.ts], [src/utils/slug.ts] and the
      bullet-stripping [normalizeMessage] of the event handler: pure
      functions from strings to strings. *)
  generateOrchestratorPrompt : Issue.t -> string -> string -> string;
  generateContinuationPrompt : Issue.t -> string -> string -> string -> string;
  createBranchSlug : string -> string;
  normalizeMessage : string -> string;
}.

Section WithEnv.
Context {E : Env}.

(** The world together with the trace of the calls made so far. *)
Record sys : Type := { world : World; calls : list call }.

Definition do_call (c : call) : M sys JS.value :=
  fun s =>
    let '(r, w) := perform (world s) c in
    (r, {| world := w; calls := calls s ++ [c] |}).

(** [logger.<level>({ issueNumber, ... }, message)]: recorded in the
    trace with the issue number when the statement passes one; it
    neither throws nor changes the world.  Console output is not
    recorded. *)
Definition log_entry (level : string) (issueNumber : option Z)
    (message : string) : M sys unit :=
  fun s =>
    (Ok tt, {| world := world s;
               calls := calls s ++ [LogCall level issueNumber message] |}).

Definition log (level message : string) : M sys unit :=
  log_entry level None message.

Definition logi (level : string) (issueNumber : Z) (message : string)
    : M sys unit :=
  log_entry level (Some issueNumber) message.

Definition call_listForRepo (label : string) : M sys (list RawIssue.t) :=
  fun s =>
    let '(r, w) := listForRepo (world s) label in
    (r, {| world := w; calls := calls s ++ [ListForRepo label] |}).

Definition call_getIssueComments (issueNumber : Z)
    : M sys (list Comment.t) :=
  fun s =>
    let '(r, w) := getIssueComments (world s) issueNumber in
    (Ok r, {| world := w; calls := calls s ++ [ListComments issueNumber] |}).

(** [fs.existsSync(p)]: it answers [false] rather than throw. *)
Definition existsSync (p : string) : M sys bool :=
  v ← try_catch (do_call (ExistsSync p)) (fun _ => ret (JS.Bool false));
  ret (JS.truthy v).

End WithEnv.

(** [path.join] on the segments the code passes: empty segments vanish,
    the others are joined by a slash. *)
Fixpoint path_join (segments : list string) : string :=
  match segments with
  | [] => ""
  | s :: rest =>
      let r := path_join rest in
      if String.eqb s "" then r
      else if String.eqb r "" then s
      else s ++ "/" ++ r
  end.

End Eff.

Module EffAccess.
Import Eff.

(** What [TypeError] the runtime throws is of no interest to any caller
    here; one value stands for all of them. *)
Definition TypeError : JS.value :=
  JS.Obj [("name", JS.Str "TypeError")].

(** [v.k] without [?.]: reading a property of [null] or [undefined]
    throws. *)
Definition prop {S} (k : string) (v : JS.value) : M S JS.value :=
  match v with
  | JS.Undefined | JS.Null => throw TypeError
  | _ => ret (JS.get k v)
  end.

(** [a || b] on conditions that make calls: [b] runs only if [a] is
    false. *)
Definition orM {S} (a b : M S bool) : M S bool :=
  x ← a; if (x : bool) then ret true else b.

Section WithEnv.
Context {E : Env}.

(** [fs.readFileSync(p, 'utf-8')] *)
Definition readFileSync (p : string) : M sys string :=
  v ← do_call (ReadFileSync p);
  ret (default "" (JS.as_str v)).

End WithEnv.
End EffAccess.

(* ===================================================================== *)
(** * src/config.ts                                                       *)
(* ===================================================================== *)

Module Config.

Record github_t : Type := { username : string; allowedUsers : list string }.
Record scheduler_t : Type := { maxConcurrentTasks : Z }.
Record opencode_t : Type := { projectPath : string; worktreeDir : string }.
Record t : Type :=
  { github : github_t; scheduler : scheduler_t; opencode : opencode_t }.

(** The schema accepts [maxConcurrentTasks] between 1 and 10. *)
Definition valid (c : t) : Prop :=
  1 <= maxConcurrentTasks (scheduler c) <= 10.

Definition getWorktreePath (config : t) (issueNumber : Z) : string :=
  Eff.path_join [projectPath (opencode config);
                 worktreeDir (opencode config);
                 "issue-" ++ pretty issueNumber].

Definition getBranchName (issueNumber : Z) (slug : string) : string :=
  "ai/issue-" ++ pretty issueNumber ++ "-" ++ slug.

End Config.

(* ===================================================================== *)
(** * src/github/client.ts and src/github/labels.ts                       *)
(* ===================================================================== *)

Module Labels.

Definition AI_TASK := "ai-task".
Definition AI_IN_PROGRESS := "ai-in-progress".
Definition AI_BLOCKED := "ai-blocked".
Definition AI_REVIEW_READY := "ai-review-ready".
Definition AI_DEBUGGING := "ai-debugging".
Definition AI_APPROVED := "ai-approved".
Definition PRIORITY_HIGH := "ai-priority:high".
Definition PRIORITY_MEDIUM := "ai-priority:medium".
Definition PRIORITY_LOW := "ai-priority:low".

(** [labels.includes(l)] *)
Definition includes (labels : list string) (l : string) : bool :=
  existsb (String.eqb l) labels.

Definition isReadyForPickup (issue : Issue.t) : bool :=
  includes (Issue.labels issue) AI_TASK
  && negb (includes (Issue.labels issue) AI_IN_PROGRESS).

Definition isBlocked (issue : Issue.t) : bool :=
  includes (Issue.labels issue) AI_BLOCKED.

Definition isUserAllowed (issue : Issue.t) (config : Config.t) : bool :=
  let allowedUsers := Config.allowedUsers (Config.github config) in
  if (length allowedUsers =? 0)%nat then true
  else if match Issue.author issue with
          | Some a => includes allowedUsers a
          | None => false
          end then true
  else if includes (Issue.labels issue) AI_APPROVED then true
  else false.

End Labels.

Module GitHub.
Import Eff.

Inductive Priority : Type := high | medium | low | none.

Definition getPriority (issue : Issue.t) : Priority :=
  if Labels.includes (Issue.labels issue) "ai-priority:high" then high
  else if Labels.includes (Issue.labels issue) "ai-priority:medium" then medium
  else if Labels.includes (Issue.labels issue) "ai-priority:low" then low
  else none.

Definition priorityOrder (p : Priority) : Z :=
  match p with
  | high => 0
  | medium => 1
  | low => 2
  | none => 3
  end.

(** [Array.prototype.sort] is stable, and the comparator
    [priorityA - priorityB] is a total preorder on the keys, so the
    result is the one stable arrangement by key: each element is put in
    front of the first later element whose key is not smaller. *)
Fixpoint insert_by {A} (key : A -> Z) (x : A) (sorted : list A) : list A :=
  match sorted with
  | [] => [x]
  | y :: rest =>
      if key x <=? key y then x :: y :: rest
      else y :: insert_by key x rest
  end.

Definition stable_sort {A} (key : A -> Z) (l : list A) : list A :=
  fold_right (insert_by key) [] l.

Definition sortByPriority (issues : list Issue.t) : list Issue.t :=
  stable_sort (fun i => priorityOrder (getPriority i)) issues.

Section WithEnv.
Context {E : Env}.
Variable config : Config.t.

Definition this_username : string := Config.username (Config.github config).

Definition hasNewComments (issue : Issue.t) (since : Z) : bool :=
  existsb
    (fun comment =>
       (since <? Comment.createdAt comment)
       && negb (String.eqb (Comment.author comment) this_username))
    (Issue.comments issue).

Definition getLatestHumanComment (issue : Issue.t) : option Comment.t :=
  let humanComments :=
    List.filter
      (fun c => negb (String.eqb (Comment.author c) this_username))
      (Issue.comments issue) in
  if (0 <? length humanComments)%nat then last humanComments else None.

Definition label_name (l : string + option string) : string :=
  match l with
  | inl s => s
  | inr (Some n) => n
  | inr None => ""
  end.

Definition getIssuesWithLabel (label : string)
    (excludeLabels : list string) : M sys (list Issue.t) :=
  try_catch
    (data ← call_listForRepo label;
     (* Filter out issues with excluded labels *)
     let filtered :=
       List.filter
         (fun issue =>
            let issueLabels := map label_name (RawIssue.labels issue) in
            negb (existsb (Labels.includes issueLabels) excludeLabels))
         data in
     (* Fetch comments for each issue *)
     mapM
       (fun issue =>
          comments ← call_getIssueComments (RawIssue.number issue);
          ret {| Issue.number := RawIssue.number issue;
                 Issue.title := RawIssue.title issue;
                 Issue.body := default "" (RawIssue.body issue);
                 Issue.labels := map label_name (RawIssue.labels issue);
                 Issue.comments := comments;
                 Issue.createdAt := RawIssue.created_at issue;
                 Issue.updatedAt := RawIssue.updated_at issue;
                 Issue.author := None |})
       filtered)
    (fun error =>
       log "error" "Failed to fetch issues";;
       throw error).

Definition addLabel (issueNumber : Z) (label : string) : M sys unit :=
  try_catch
    (do_call (AddLabels issueNumber label) ;;
     logi "debug" issueNumber "Added label")
    (fun error =>
       logi "error" issueNumber "Failed to add label" ;;
       throw error).

Definition removeLabel (issueNumber : Z) (label : string) : M sys unit :=
  try_catch
    (do_call (RemoveLabel issueNumber label) ;;
     logi "debug" issueNumber "Removed label")
    (fun error =>
       status ← EffAccess.prop "status" error;
       if JS.neq_num status 404
       then logi "error" issueNumber "Failed to remove label" ;; throw error
       else ret tt).

Definition postComment (issueNumber : Z) (body : string) : M sys unit :=
  try_catch
    (do_call (CreateComment issueNumber body) ;;
     logi "debug" issueNumber "Posted comment")
    (fun error =>
       logi "error" issueNumber "Failed to post comment" ;;
       throw error).

End WithEnv.
End GitHub.

(* ===================================================================== *)
(** * src/tasks/quality.ts                                                *)
(* ===================================================================== *)

Module Quality.
Import Eff EffAccess.

Record QualityGate : Type :=
  { name : string; commands : list string; required : bool }.

Record QualityResult : Type :=
  { gate : string; passed : bool; output : JS.value; error : JS.value }.

(** [gates.find(g => g.name === n)], used as a condition. *)
Definition has_gate (gates : list QualityGate) (n : string) : bool :=
  existsb (fun g => String.eqb (name g) n) gates.

Section WithEnv.
Context {E : Env}.

Definition detect_package_json (worktreePath : string)
    (gates : list QualityGate) : M sys (list QualityGate) :=
  text ← readFileSync (path_join [worktreePath; "package.json"]);
  packageJson ← lift (JSON_parse text);
  declared ← prop "scripts" packageJson;
  let scripts := JS.or declared (JS.Obj []) in
  (* Linting *)
  gates ←
    (if JS.truthy (JS.get "lint" scripts)
     then ret ((gates ++ [{| name := "Linting";
                            commands := ["npm"; "run"; "lint"];
                            required := true |}])%list)
     else
       eslint ←
         orM (existsSync (path_join [worktreePath; ".eslintrc.js"]))
           (orM (existsSync (path_join [worktreePath; ".eslintrc.json"]))
                (existsSync (path_join [worktreePath; "eslint.config.js"])));
       if (eslint : bool)
       then ret ((gates ++ [{| name := "Linting";
                              commands := ["npx"; "eslint"; "."];
                              required := true |}])%list)
       else ret gates);
  (* Type checking *)
  gates ←
    (if JS.truthy (JS.get "type-check" scripts)
     then ret ((gates ++ [{| name := "Type Checking";
                            commands := ["npm"; "run"; "type-check"];
                            required := true |}])%list)
     else
       tsconfig ← existsSync (path_join [worktreePath; "tsconfig.json"]);
       if (tsconfig : bool)
       then ret ((gates ++ [{| name := "Type Checking";
                              commands := ["npx"; "tsc"; "--noEmit"];
                              required := true |}])%list)
       else ret gates);
  (* Build *)
  let gates :=
    if JS.truthy (JS.get "build" scripts)
    then (gates ++ [{| name := "Build";
                      commands := ["npm"; "run"; "build"];
                      required := true |}])%list
    else gates in
  (* Tests *)
  let gates :=
    if JS.truthy (JS.get "test" scripts)
    then (gates ++ [{| name := "Tests";
                      commands := ["npm"; "test"];
                      required := true |}])%list
    else gates in
  (* Formatting *)
  let gates :=
    if JS.truthy (JS.get "format" scripts)
    then (gates ++ [{| name := "Formatting";
                      commands := ["npm"; "run"; "format"];
                      required := false |}])%list
    else gates in
  ret gates.

Definition detect_makefile (worktreePath : string)
    (gates : list QualityGate) : M sys (list QualityGate) :=
  makefile ← readFileSync (path_join [worktreePath; "Makefile"]);
  let gates :=
    if JS.includes makefile "lint:" && negb (has_gate gates "Linting")
    then (gates ++ [{| name := "Linting"; commands := ["make"; "lint"];
                      required := true |}])%list
    else gates in
  let gates :=
    if JS.includes makefile "test:" && negb (has_gate gates "Tests")
    then (gates ++ [{| name := "Tests"; commands := ["make"; "test"];
                      required := true |}])%list
    else gates in
  let gates :=
    if JS.includes makefile "build:" && negb (has_gate gates "Build")
    then (gates ++ [{| name := "Build"; commands := ["make"; "build"];
                      required := true |}])%list
    else gates in
  ret gates.

Definition detectGates (worktreePath : string) : M sys (list QualityGate) :=
  let gates := [] in
  (* Check for package.json *)
  has_package ← existsSync (path_join [worktreePath; "package.json"]);
  gates ← (if (has_package : bool)
            then detect_package_json worktreePath gates
            else ret gates);
  (* Check for Makefile *)
  has_makefile ← existsSync (path_join [worktreePath; "Makefile"]);
  gates ← (if (has_makefile : bool)
            then detect_makefile worktreePath gates
            else ret gates);
  (* Check for Python projects *)
  python ← orM (existsSync (path_join [worktreePath; "pyproject.toml"]))
                (existsSync (path_join [worktreePath; "setup.py"]));
  let gates :=
    if (python : bool) && negb (has_gate gates "Tests")
    then (gates ++ [{| name := "Tests"; commands := ["pytest"];
                      required := true |}])%list
    else gates in
  (* Check for Rust projects *)
  rust ← existsSync (path_join [worktreePath; "Cargo.toml"]);
  let gates :=
    if (rust : bool)
    then (gates ++ [{| name := "Linting"; commands := ["cargo"; "clippy"];
                      required := true |};
                   {| name := "Build"; commands := ["cargo"; "build"];
                      required := true |};
                   {| name := "Tests"; commands := ["cargo"; "test"];
                      required := true |}])%list
    else gates in
  ret gates.

Definition command_line (g : QualityGate) : string :=
  String.concat " " (commands g).

Definition runGate (worktreePath : string) (g : QualityGate)
    : M sys QualityResult :=
  log "info" "Running quality gate" ;;
  try_catch
    (out ← do_call (ExecSync worktreePath (command_line g));
     log "info" "Quality gate passed" ;;
     ret {| gate := name g; passed := true; output := out;
            error := JS.Undefined |})
    (fun err =>
       out ← (o ← prop "stdout" err; ret (JS.or o (JS.Str "")));
       errorOutput ← (e ← prop "stderr" err;
                       m ← (if JS.truthy e then ret e
                             else prop "message" err);
                       ret m);
       log "warn" "Quality gate failed" ;;
       ret {| gate := name g; passed := false; output := out;
              error := errorOutput |}).

(** The [for] loop of [runAllGates], from the gates still to run and
    the results pushed so far. *)
Fixpoint run_gates (worktreePath : string) (gates : list QualityGate)
    (results : list QualityResult) : M sys (list QualityResult) :=
  match gates with
  | [] => ret results
  | g :: rest =>
      result ← runGate worktreePath g;
      let results := (results ++ [result])%list in
      (* Stop on required gate failure *)
      if negb (passed result) && required g
      then log "warn" "Required gate failed, stopping" ;; ret results
      else run_gates worktreePath rest results
  end.

Definition runAllGates (worktreePath : string)
    : M sys (list QualityResult) :=
  gates ← detectGates worktreePath;
  run_gates worktreePath gates [].

(** [results.find(r => r.gate === gateName)?.passed ?? false] *)
Definition passed_in (results : list QualityResult) (gateName : string)
    : bool :=
  match List.find (fun r => String.eqb (gate r) gateName) results with
  | Some r => passed r
  | None => false
  end.

Definition allRequiredPassed (results : list QualityResult) : M sys bool :=
  gates ← detectGates "";
  let requiredGates := map name (List.filter required gates) in
  ret (forallb (passed_in results) requiredGates).

End WithEnv.
End Quality.

(* ===================================================================== *)
(** * src/tasks/worktree.ts                                               *)
(* ===================================================================== *)

Module Worktree.
Import Eff EffAccess.

(** A double quote, for the command lines that quote a path. *)
Definition dquote : string := String "034"%char EmptyString.

Section WithEnv.
Context {E : Env}.
Variable config : Config.t.

Definition projectPath : string := Config.projectPath (Config.opencode config).

Definition execSync (cwd command : string) : M sys JS.value :=
  do_call (ExecSync cwd command).

Definition getDefaultBranch : M sys string :=
  try_catch
    (output ← execSync projectPath "git symbolic-ref refs/remotes/origin/HEAD";
     ret (JS.replace_first (JS.trim (default "" (JS.as_str output)))
            "refs/remotes/origin/" ""))
    (fun _ =>
       try_catch
         (execSync projectPath "git show-ref --verify refs/remotes/origin/main";;
          ret "main")
         (fun _ => ret "master")).

Definition createWorktree (issueNumber : Z) (branchName : string)
    : M sys string :=
  let worktreePath := Config.getWorktreePath config issueNumber in
  let worktreeDir := JS.dirname worktreePath in
  (* Ensure worktree directory exists *)
  dir_exists ← existsSync worktreeDir;
  when (negb dir_exists) (do_call (MkdirSync worktreeDir);; ret tt);;
  (* Check if worktree already exists *)
  already ← existsSync worktreePath;
  if (already : bool)
  then logi "info" issueNumber "Worktree already exists";; ret worktreePath
  else
    try_catch
      (defaultBranch ← getDefaultBranch;
       execSync projectPath ("git fetch origin " ++ defaultBranch);;
       branchExists ←
         try_catch
           (execSync projectPath
              ("git show-ref --verify refs/heads/" ++ branchName);;
            ret true)
           (fun _ => ret false);
       (if (branchExists : bool)
        then
          logi "info" issueNumber "Branch already exists, reusing it";;
          execSync projectPath
            ("git worktree add " ++ dquote ++ worktreePath ++ dquote
             ++ " " ++ branchName)
        else
          execSync projectPath
            ("git worktree add " ++ dquote ++ worktreePath ++ dquote
             ++ " -b " ++ branchName ++ " origin/" ++ defaultBranch));;
       logi "info" issueNumber "Created worktree";;
       ret worktreePath)
      (fun error =>
         logi "error" issueNumber "Failed to create worktree";;
         throw error).

Definition worktreeExists (issueNumber : Z) : M sys bool :=
  existsSync (Config.getWorktreePath config issueNumber).

Definition getPath (issueNumber : Z) : string :=
  Config.getWorktreePath config issueNumber.

(** [string | null]: [None] is [null]. *)
Definition getCurrentBranch (issueNumber : Z) : M sys (option string) :=
  let worktreePath := Config.getWorktreePath config issueNumber in
  present ← existsSync worktreePath;
  if negb present then ret None
  else
    try_catch
      (output ← execSync worktreePath "git rev-parse --abbrev-ref HEAD";
       ret (Some (JS.trim (default "" (JS.as_str output)))))
      (fun _ =>
         logi "error" issueNumber "Failed to get current branch";;
         ret None).

End WithEnv.
End Worktree.

(* ===================================================================== *)
(** * The orchestrator's memory                                           *)
(* ===================================================================== *)

(** [OpenCodeTaskStatus] of [src/tasks/opencode.ts].  Optional fields are
    [option]s; [errorHandled] is [false] while it is [undefined];
    [eventSource] and [statusCheckInterval] record whether the handle is
    set.  Timestamps are milliseconds. *)
Module OpenCodeTaskStatus.
Record TuiPopup : Type :=
  { title : string; message : string; variant : JS.value }.

Record t : Type := {
  sessionId : string;
  issueNumber : Z;
  startedAt : Z;
  shareLink : option string;
  eventSource : bool;
  lastActivity : Z;
  currentMessageBuffer : option string;
  statusCheckInterval : bool;
  lastTuiPopup : option TuiPopup;
  errorHandled : bool;
}.

Definition set_shareLink (v : option string) (o : t) : t :=
  {| sessionId := sessionId o; issueNumber := issueNumber o;
     startedAt := startedAt o; shareLink := v;
     eventSource := eventSource o; lastActivity := lastActivity o;
     currentMessageBuffer := currentMessageBuffer o;
     statusCheckInterval := statusCheckInterval o;
     lastTuiPopup := lastTuiPopup o; errorHandled := errorHandled o |}.

Definition set_eventSource (v : bool) (o : t) : t :=
  {| sessionId := sessionId o; issueNumber := issueNumber o;
     startedAt := startedAt o; shareLink := shareLink o;
     eventSource := v; lastActivity := lastActivity o;
     currentMessageBuffer := currentMessageBuffer o;
     statusCheckInterval := statusCheckInterval o;
     lastTuiPopup := lastTuiPopup o; errorHandled := errorHandled o |}.

Definition set_lastActivity (v : Z) (o : t) : t :=
  {| sessionId := sessionId o; issueNumber := issueNumber o;
     startedAt := startedAt o; shareLink := shareLink o;
     eventSource := eventSource o; lastActivity := v;
     currentMessageBuffer := currentMessageBuffer o;
     statusCheckInterval := statusCheckInterval o;
     lastTuiPopup := lastTuiPopup o; errorHandled := errorHandled o |}.

Definition set_currentMessageBuffer (v : option string) (o : t) : t :=
  {| sessionId := sessionId o; issueNumber := issueNumber o;
     startedAt := startedAt o; shareLink := shareLink o;
     eventSource := eventSource o; lastActivity := lastActivity o;
     currentMessageBuffer := v;
     statusCheckInterval := statusCheckInterval o;
     lastTuiPopup := lastTuiPopup o; errorHandled := errorHandled o |}.

Definition set_statusCheckInterval (v : bool) (o : t) : t :=
  {| sessionId := sessionId o; issueNumber := issueNumber o;
     startedAt := startedAt o; shareLink := shareLink o;
     eventSource := eventSource o; lastActivity := lastActivity o;
     currentMessageBuffer := currentMessageBuffer o;
     statusCheckInterval := v;
     lastTuiPopup := lastTuiPopup o; errorHandled := errorHandled o |}.

Definition set_lastTuiPopup (v : option TuiPopup) (o : t) : t :=
  {| sessionId := sessionId o; issueNumber := issueNumber o;
     startedAt := startedAt o; shareLink := shareLink o;
     eventSource := eventSource o; lastActivity := lastActivity o;
     currentMessageBuffer := currentMessageBuffer o;
     statusCheckInterval := statusCheckInterval o;
     lastTuiPopup := v; errorHandled := errorHandled o |}.

Definition set_errorHandled (v : bool) (o : t) : t :=
  {| sessionId := sessionId o; issueNumber := issueNumber o;
     startedAt := startedAt o; shareLink := shareLink o;
     eventSource := eventSource o; lastActivity := lastActivity o;
     currentMessageBuffer := currentMessageBuffer o;
     statusCheckInterval := statusCheckInterval o;
     lastTuiPopup := lastTuiPopup o; errorHandled := v |}.
End OpenCodeTaskStatus.

(** [TaskPhase] and [TaskContext] of [src/tasks/manager.ts].  [process]
    refers to the [OpenCodeTaskStatus] object the session manager returned:
    the same object its own map and its event handler hold. *)
Module TaskContext.
Inductive TaskPhase : Type :=
| pending | analysis | implementation | testing | quality | ci
| documentation | pr | completed | blocked | failed.

Record t : Type := {
  issueNumber : Z;
  issue : Issue.t;
  branchName : string;
  worktreePath : string;
  phase : TaskPhase;
  startedAt : Z;
  sessionId : option string;
  process : option nat;
}.
End TaskContext.

Module Store.
Import Eff.

Section WithEnv.
Context {E : Env}.

(** The objects of the running process: the world and call trace, the
    [OpenCodeTaskStatus] objects by reference (a reference is an index
    into [heap]), [OpenCodeManager.tasks] and
    [TaskManager.activeTasks]. *)
Record state : Type := {
  system : sys;
  heap : list OpenCodeTaskStatus.t;
  tasks : gmap Z nat;
  activeTasks : gmap Z TaskContext.t;
}.

Definition set_system (v : sys) (st : state) : state :=
  {| system := v; heap := heap st; tasks := tasks st;
     activeTasks := activeTasks st |}.
Definition set_heap (v : list OpenCodeTaskStatus.t) (st : state) : state :=
  {| system := system st; heap := v; tasks := tasks st;
     activeTasks := activeTasks st |}.
Definition set_tasks (v : gmap Z nat) (st : state) : state :=
  {| system := system st; heap := heap st; tasks := v;
     activeTasks := activeTasks st |}.
Definition set_activeTasks (v : gmap Z TaskContext.t) (st : state) : state :=
  {| system := system st; heap := heap st; tasks := tasks st;
     activeTasks := v |}.

(** A computation on the outside world, run inside the process. *)
Definition in_sys {A} (m : M sys A) : M state A :=
  fun st => let '(r, s) := m (system st) in (r, set_system s st).

Definition clock : M state Z :=
  gets (fun st => Date_now (world (system st))).

(** [new] object. *)
Definition alloc (o : OpenCodeTaskStatus.t) : M state nat :=
  fun st => (Ok (length (heap st)), set_heap (heap st ++ [o]) st).

(** Reading through a reference.  Every reference the code holds
    points to an object; a dangling one throws. *)
Definition read (r : nat) : M state OpenCodeTaskStatus.t :=
  fun st =>
    match heap st !! r with
    | Some o => (Ok o, st)
    | None => (Throw EffAccess.TypeError, st)
    end.

(** Assignment to fields of the object behind a reference. *)
Definition update (r : nat) (f : OpenCodeTaskStatus.t -> OpenCodeTaskStatus.t)
    : M state unit :=
  modify (fun st => set_heap (alter f r (heap st)) st).

End WithEnv.
End Store.

(* ===================================================================== *)
(** * src/tasks/opencode.ts                                               *)
(* ===================================================================== *)

(** Event payloads are parsed JSON of no fixed shape.  The handler reads
    them with [?.] and [||], which the model follows; where it goes on to
    use a field at the type the interfaces declare ([type], [text] and the
    popup texts are strings), a field of another type reads as absent. *)
Module OpenCode.
Import Eff EffAccess Store.

Definition MIN_SESSION_DURATION_MS : Z := 60000.
Definition IMMEDIATE_FAILURE_MS : Z := 1000.
Definition IDLE_THRESHOLD_MS : Z := 300000.

Definition nl : string := String "010"%char EmptyString.

(** [if (s)] for an optional string. *)
Definition nonempty (s : option string) : bool :=
  match s with
  | Some s => negb (String.eqb s "")
  | None => false
  end.

Definition errorCommentBody (errorName errorMessage sessionLink : string)
    : string :=
  "## ⚠️ Session Error - Issue Reset" ++ nl ++ nl
  ++ "The AI session encountered an error and the issue has been reset to `ai-task` status so it can be retried."
  ++ nl ++ nl
  ++ "### Error Details" ++ nl
  ++ "**Type:** " ++ errorName ++ nl ++ nl
  ++ "```" ++ nl
  ++ String.substring 0 1000 errorMessage
  ++ (if (1000 <? String.length errorMessage)%nat then "..." else "") ++ nl
  ++ "```" ++ nl ++ nl
  ++ "### What Happened" ++ nl
  ++ "The session encountered an error during execution. The issue has been automatically reset to `ai-task` status and will be picked up again in the next polling cycle."
  ++ nl ++ nl
  ++ "### Next Steps" ++ nl
  ++ "- The orchestrator will automatically retry this issue" ++ nl
  ++ "- If errors persist, please check the session logs and investigate the root cause" ++ nl
  ++ sessionLink ++ nl ++ nl
  ++ "---" ++ nl
  ++ "_This issue will be automatically retried. If problems continue, please investigate the error details above._".

Definition event_type (event : JS.value) : string :=
  default "" (JS.as_str (JS.get "type" event)).

(** [JSON.stringify(v)], which is [undefined] for [undefined]. *)
Definition stringify {E : Env} (v : JS.value) : JS.value :=
  match v with
  | JS.Undefined => JS.Undefined
  | _ => JS.Str (JSON_stringify v)
  end.

Section WithEnv.
Context {E : Env}.
Variable config : Config.t.
(** The callback the constructor was given, if any. *)
Variable onTaskComplete : option (Z -> M state unit).

Definition logS (level message : string) : M state unit :=
  in_sys (log level message).

Definition logI (level : string) (issueNumber : Z) (message : string)
    : M state unit :=
  in_sys (logi level issueNumber message).

(** A call on a handle that answers nothing and cannot fail
    ([EventSource.close], [clearInterval], [setInterval]). *)
Definition signal_call (c : call) : M state unit :=
  in_sys (try_catch (do_call c;; ret tt) (fun _ => ret tt)).

(** Handle session errors by reverting issue back to ai-task label.
    The caller does not await it; its calls are recorded where it is
    invoked.  It never throws. *)
Definition handleSessionError (issueNumber : Z) (error : JS.value)
    (shareLink : option string) : M state unit :=
  try_catch
    (logI "info" issueNumber "Reverting issue to ai-task label after session error";;
     (* Remove ai-in-progress label *)
     try_catch
       (in_sys (GitHub.removeLabel issueNumber Labels.AI_IN_PROGRESS))
       (fun _ => logI "warn" issueNumber "Failed to remove ai-in-progress label");;
     (* Add ai-task label back so it can be retried *)
     try_catch
       (in_sys (GitHub.addLabel issueNumber Labels.AI_TASK))
       (fun _ => logI "warn" issueNumber "Failed to add ai-task label");;
     (* Post error comment *)
     let errorMessage :=
       JS.or (JS.get "message" (JS.get "data" error))
         (JS.or (JS.get "message" error) (stringify error)) in
     let errorName := JS.or (JS.get "name" error) (JS.Str "UnknownError") in
     let sessionLink :=
       if nonempty shareLink
       then nl ++ nl ++ "### Session Log" ++ nl
            ++ "📎 [View session for debugging](" ++ default "" shareLink ++ ")"
       else "" in
     match errorMessage with
     | JS.Str errorMessage =>
         in_sys (GitHub.postComment issueNumber
                   (errorCommentBody (JS.to_string errorName)
                      errorMessage sessionLink));;
         logI "info" issueNumber "Posted error comment and reverted labels"
     | _ => throw TypeError
     end)
    (fun _ => logI "error" issueNumber "Failed to handle session error").

(** The diagnostic pass over agents and providers: it only logs, and
    whatever fails inside it is caught.  The per-agent warnings are not
    recorded. *)
Definition checkConfiguration : M state unit :=
  try_catch
    (in_sys (do_call GetAgents);;
     in_sys (do_call GetProviders);;
     logS "info" "OpenCode configuration check")
    (fun _ => logS "error" "Failed to check OpenCode configuration").

Definition subscribeToEvents (task : nat) : M state unit :=
  o ← read task;
  when (OpenCodeTaskStatus.eventSource o)
    (signal_call (CloseEventSource (OpenCodeTaskStatus.sessionId o)));;
  signal_call (StreamEvents (OpenCodeTaskStatus.sessionId o));;
  update task (OpenCodeTaskStatus.set_eventSource true);;
  signal_call (SetInterval (OpenCodeTaskStatus.sessionId o));;
  update task (OpenCodeTaskStatus.set_statusCheckInterval true).

Definition startTask (issue : Issue.t) (worktreePath branchName : string)
    : M state nat :=
  let prompt := generateOrchestratorPrompt issue worktreePath branchName in
  let title := "Issue #" ++ pretty (Issue.number issue) ++ ": "
               ++ String.substring 0 50 (Issue.title issue) in
  session ← in_sys (do_call (CreateSession title worktreePath));
  session_id ← prop "id" session;
  let session_id := default "" (JS.as_str session_id) in
  logI "info" (Issue.number issue) "Created OpenCode session";;
  (* Check configuration before sending prompt *)
  checkConfiguration;;
  try_catch
    (in_sys (do_call (SendPromptAsync session_id prompt));; ret tt)
    (fun error =>
       logI "error" (Issue.number issue) "Failed to send prompt - may indicate model/config issue";;
       throw error);;
  (* Track task *)
  now ← clock;
  task ← alloc {| OpenCodeTaskStatus.sessionId := session_id;
                  OpenCodeTaskStatus.issueNumber := Issue.number issue;
                  OpenCodeTaskStatus.startedAt := now;
                  OpenCodeTaskStatus.shareLink := None;
                  OpenCodeTaskStatus.eventSource := false;
                  OpenCodeTaskStatus.lastActivity := now;
                  OpenCodeTaskStatus.currentMessageBuffer := None;
                  OpenCodeTaskStatus.statusCheckInterval := false;
                  OpenCodeTaskStatus.lastTuiPopup := None;
                  OpenCodeTaskStatus.errorHandled := false |};
  modify (fun st => set_tasks (<[Issue.number issue := task]> (tasks st)) st);;
  (* Start listening to events *)
  subscribeToEvents task;;
  ret task.

Definition continueTask (issue : Issue.t)
    (worktreePath previousSessionId newComment : string) : M state nat :=
  let prompt :=
    generateContinuationPrompt issue worktreePath previousSessionId
      newComment in
  logI "info" (Issue.number issue) "Continuing task";;
  (* Verify session exists *)
  found ←
    try_catch
      (in_sys (do_call (GetSession previousSessionId));; ret true)
      (fun _ =>
         logI "error" (Issue.number issue) "Previous session not found, creating new one";;
         ret false);
  if negb found
  then
    (* Fallback: Start fresh if session is lost *)
    startTask issue worktreePath
      ("ai/issue-" ++ pretty (Issue.number issue) ++ "-recovery")
  else
    (* Send continuation prompt *)
    try_catch
      (in_sys (do_call (SendPromptAsync previousSessionId prompt));; ret tt)
      (fun error =>
         logI "error" (Issue.number issue)
           "Failed to send continuation prompt - may indicate model/config issue";;
         throw error);;
    (* Track task *)
    now ← clock;
    task ← alloc {| OpenCodeTaskStatus.sessionId := previousSessionId;
                    OpenCodeTaskStatus.issueNumber := Issue.number issue;
                    OpenCodeTaskStatus.startedAt := now;
                    OpenCodeTaskStatus.shareLink := None;
                    OpenCodeTaskStatus.eventSource := false;
                    OpenCodeTaskStatus.lastActivity := now;
                    OpenCodeTaskStatus.currentMessageBuffer := None;
                    OpenCodeTaskStatus.statusCheckInterval := false;
                    OpenCodeTaskStatus.lastTuiPopup := None;
                    OpenCodeTaskStatus.errorHandled := false |};
    modify (fun st => set_tasks (<[Issue.number issue := task]> (tasks st)) st);;
    subscribeToEvents task;;
    ret task.

(** Periodically check session status to detect errors. *)
Definition checkSessionStatus (task : nat) : M state unit :=
  o ← read task;
  try_catch
    (statuses ← in_sys (do_call GetSessionStatus);
     sessionStatus ← prop (OpenCodeTaskStatus.sessionId o) statuses;
     when (JS.truthy sessionStatus)
       (let state := JS.get "state" sessionStatus in
        (* Log status changes *)
        when (JS.is_str state "error" || JS.is_str state "blocked")
          (logI "warn" (OpenCodeTaskStatus.issueNumber o) "Session status check detected error/blocked state");;
        (* Check if session has been idle for too long without activity *)
        now ← clock;
        o ← read task;
        let timeSinceLastActivity :=
          now - OpenCodeTaskStatus.lastActivity o in
        when (JS.is_str state "idle"
              && (IDLE_THRESHOLD_MS <? timeSinceLastActivity))
          (logI "warn" (OpenCodeTaskStatus.issueNumber o)
             "Session has been idle for extended period - may be stuck")))
    (fun _ => logI "error" (OpenCodeTaskStatus.issueNumber o) "Failed to check session status").


(** The [message.updated] block: the model diagnostics.  (The summary
    of file changes goes to the console only.) *)
Definition handle_message_updated (issueNumber : Z) (event : JS.value)
    : M state unit :=
  let messageInfo :=
    JS.or (JS.get "info" (JS.get "properties" event)) (JS.get "info" event) in
  let model := JS.get "model" messageInfo in
  when (JS.truthy model)
    (let modelID :=
       JS.or (JS.get "modelID" model)
         (JS.or (JS.get "model" model) (JS.Str "")) in
     (* Check for empty modelID *)
     if negb (JS.truthy modelID)
        || match modelID with
           | JS.Str s => String.eqb (JS.trim s) ""
           | _ => false
           end
     then logI "error" issueNumber
            "CRITICAL: Message has empty modelID - this will cause session to fail"
     else logI "debug" issueNumber "Message model configuration").

(** [message.part.updated] and [message.chunk]. *)
Definition handle_part (task : nat) (issueNumber : Z) (eventType : string)
    (event : JS.value) : M state unit :=
  let part :=
    JS.or (JS.get "part" (JS.get "properties" event)) (JS.get "part" event) in
  let part_type := JS.get "type" part in
  let text :=
    if JS.is_str part_type "text"
    then match JS.get "text" part with
         | JS.Str s => if String.eqb s "" then None else Some s
         | _ => None
         end
    else None in
  match text with
  | Some text =>
      if String.eqb eventType "message.chunk"
      then
        (* Chunks are usually deltas, so we append *)
        update task
          (fun o =>
             OpenCodeTaskStatus.set_currentMessageBuffer
               (Some (default "" (OpenCodeTaskStatus.currentMessageBuffer o)
                      ++ text)) o)
      else
        (* Part updates are usually snapshots, so we replace *)
        update task (OpenCodeTaskStatus.set_currentMessageBuffer (Some text))
  | None =>
      if JS.is_str part_type "tool_use" || JS.is_str part_type "tool_call"
      then logI "info" issueNumber "OpenCode tool use"
      else if JS.is_str part_type "step_finish"
      then
        o ← read task;
        (* Log the buffered message if any *)
        when (nonempty (OpenCodeTaskStatus.currentMessageBuffer o))
          (logI "info" issueNumber "OpenCode message";;
           update task (OpenCodeTaskStatus.set_currentMessageBuffer None));;
        logI "info" issueNumber "OpenCode step finish"
      else ret tt
  end.

(** [tui.*] popups. *)
Definition handle_tui (task : nat) (event : JS.value) : M state unit :=
  let popupData := JS.or (JS.get "properties" event) event in
  let title :=
    JS.or (JS.get "title" popupData)
      (JS.or (JS.get "message" popupData) (JS.Str "")) in
  let message :=
    JS.or (JS.get "message" popupData)
      (JS.or (JS.get "text" popupData)
         (JS.or (JS.get "body" popupData) (JS.Str ""))) in
  let normalizedTitle := normalizeMessage (default "" (JS.as_str title)) in
  let normalizedMessage :=
    normalizeMessage (default "" (JS.as_str message)) in
  o ← read task;
  (* Only if the message actually changed *)
  let hasChanged :=
    match OpenCodeTaskStatus.lastTuiPopup o with
    | None => true
    | Some lastPopup =>
        negb (String.eqb (OpenCodeTaskStatus.message lastPopup)
                normalizedMessage)
    end in
  when hasChanged
    (update task
       (OpenCodeTaskStatus.set_lastTuiPopup
          (Some {| OpenCodeTaskStatus.title := normalizedTitle;
                   OpenCodeTaskStatus.message := normalizedMessage;
                   OpenCodeTaskStatus.variant :=
                     JS.get "variant" popupData |}))).

Definition immediateError (sessionDuration : Z) : JS.value :=
  JS.Obj [("name", JS.Str "ImmediateFailure");
          ("message",
           JS.Str ("Session failed immediately after "
                   ++ pretty sessionDuration
                   ++ "ms - likely model/config validation error"))].

(** [session.idle] *)
Definition handle_idle (task : nat) (issueNumber : Z) (event : JS.value)
    : M state unit :=
  o ← read task;
  let idleSessionId :=
    JS.or (JS.get "sessionID" event)
      (JS.get "sessionID" (JS.get "properties" event)) in
  when (JS.is_str idleSessionId (OpenCodeTaskStatus.sessionId o))
    ((* Check if session went idle too quickly *)
     now ← clock;
     let sessionDuration := now - OpenCodeTaskStatus.startedAt o in
     (if sessionDuration <? IMMEDIATE_FAILURE_MS
      then logI "error" issueNumber
             "Session failed immediately - likely model/config issue"
      else if sessionDuration <? MIN_SESSION_DURATION_MS
      then logI "warn" issueNumber
             "Session went idle very quickly - may not have completed work"
      else ret tt);;
     (* Check for explicit error in idle event *)
     o ← read task;
     when (JS.truthy (JS.get "error" event)
           && negb (OpenCodeTaskStatus.errorHandled o))
       (update task (OpenCodeTaskStatus.set_errorHandled true);;
        logI "error" issueNumber "OpenCode session idle with error";;
        (* Revert issue back to ai-task so it can be retried *)
        handleSessionError issueNumber (JS.get "error" event)
          (OpenCodeTaskStatus.shareLink o));;
     (* Log any remaining buffer *)
     o ← read task;
     when (nonempty (OpenCodeTaskStatus.currentMessageBuffer o))
       (logI "info" issueNumber "OpenCode final message";;
        update task (OpenCodeTaskStatus.set_currentMessageBuffer None));;
     (* Handle immediate failures that might not have triggered error events *)
     o ← read task;
     when ((sessionDuration <? IMMEDIATE_FAILURE_MS)
           && negb (OpenCodeTaskStatus.errorHandled o))
       (update task (OpenCodeTaskStatus.set_errorHandled true);;
        handleSessionError issueNumber (immediateError sessionDuration)
          (OpenCodeTaskStatus.shareLink o));;
     (if JS.truthy (JS.get "error" event)
         || (sessionDuration <? IMMEDIATE_FAILURE_MS)
      then logI "info" issueNumber "OpenCode session ended (Failed)"
      else logI "info" issueNumber "OpenCode session idle - Task Complete");;
     (* Cleanup task *)
     o ← read task;
     when (OpenCodeTaskStatus.eventSource o)
       (signal_call (CloseEventSource (OpenCodeTaskStatus.sessionId o)));;
     when (OpenCodeTaskStatus.statusCheckInterval o)
       (signal_call (ClearInterval (OpenCodeTaskStatus.sessionId o)));;
     modify (fun st => set_tasks (delete issueNumber (tasks st)) st);;
     (* Notify TaskManager that this task is complete so it can free the slot *)
     match onTaskComplete with
     | Some callback => callback issueNumber
     | None => ret tt
     end).

(** [session.status], [session.error], [session.blocked] *)
Definition handle_session_status (task : nat) (issueNumber : Z)
    (event : JS.value) : M state unit :=
  let statusData := JS.or (JS.get "properties" event) event in
  let state :=
    JS.or (JS.get "state" statusData) (JS.get "status" statusData) in
  let error := JS.or (JS.get "error" statusData) (JS.get "error" event) in
  when (JS.truthy error || JS.is_str state "error"
        || JS.is_str state "error" || JS.is_str state "blocked")
    (o ← read task;
     (* Only handle error once per task *)
     when (negb (OpenCodeTaskStatus.errorHandled o))
       (update task (OpenCodeTaskStatus.set_errorHandled true);;
        logI "error" issueNumber "OpenCode session error/blocked detected";;
        (* Revert issue back to ai-task so it can be retried *)
        handleSessionError issueNumber error
          (OpenCodeTaskStatus.shareLink o))).

(** Every other event type: share links, and a warning for payloads
    that mention error or model keywords. *)
Definition handle_other (task : nat) (issueNumber : Z) (eventType : string)
    (event : JS.value) : M state unit :=
  let properties := JS.get "properties" event in
  let shareLink :=
    JS.or (JS.get "shareLink" event)
      (JS.or (JS.get "url" event)
         (JS.or (JS.get "shareLink" properties) (JS.get "url" properties))) in
  o ← read task;
  match shareLink with
  | JS.Str link =>
      when (JS.truthy shareLink && JS.includes link "opncd.ai"
            && negb (nonempty (OpenCodeTaskStatus.shareLink o)))
        (update task (OpenCodeTaskStatus.set_shareLink (Some link));;
         logI "info" issueNumber "OpenCode Share Link Captured")
  | _ => ret tt
  end;;
  when (negb (String.eqb eventType "message.updated"))
    (let eventStr := JS.toLowerCase (JSON_stringify event) in
     when (JS.includes eventStr "model"
           || JS.includes eventStr "invalid"
           || JS.includes eventStr "error"
           || JS.includes eventStr "fail"
           || JS.includes eventStr "not valid"
           || JS.includes eventStr "token")
       (logI "warn" issueNumber
          "Unhandled event with potential error/model information")).

(** Handle incoming OpenCode events.  [task] is the object the
    subscription was opened for. *)
Definition handleEvent (task : nat) (event : JS.value) : M state unit :=
  now ← clock;
  update task (OpenCodeTaskStatus.set_lastActivity now);;
  o ← read task;
  let issueNumber := OpenCodeTaskStatus.issueNumber o in
  let eventType := event_type event in
  logI "debug" issueNumber "OpenCode event received";;
  when (String.eqb eventType "message.updated")
    (handle_message_updated issueNumber event);;
  if String.eqb eventType "message.part.updated"
     || String.eqb eventType "message.chunk"
  then handle_part task issueNumber eventType event
  else if String.eqb eventType "error"
  then logI "error" issueNumber "OpenCode error event"
  else if JS.startsWith eventType "tui."
  then handle_tui task event
  else if String.eqb eventType "session.idle"
  then handle_idle task issueNumber event
  else if String.eqb eventType "session.status"
          || String.eqb eventType "session.error"
          || String.eqb eventType "session.blocked"
  then handle_session_status task issueNumber event
  else if String.eqb eventType "todo.updated"
  then logI "info" issueNumber "Todo list updated"
  else handle_other task issueNumber eventType event.

Definition isRunning (issueNumber : Z) : M state bool :=
  gets (fun st => bool_decide (is_Some (tasks st !! issueNumber))).

Definition killTask (issueNumber : Z) : M state unit :=
  found ← gets (fun st => tasks st !! issueNumber);
  match found with
  | Some task =>
      o ← read task;
      logI "info" issueNumber "Stopping OpenCode task";;
      when (OpenCodeTaskStatus.eventSource o)
        (signal_call (CloseEventSource (OpenCodeTaskStatus.sessionId o)));;
      when (OpenCodeTaskStatus.statusCheckInterval o)
        (signal_call (ClearInterval (OpenCodeTaskStatus.sessionId o)));;
      try_catch
        (in_sys (do_call (AbortSession (OpenCodeTaskStatus.sessionId o)));;
         ret tt)
        (fun _ => logI "error" issueNumber "Failed to abort session on server");;
      modify (fun st => set_tasks (delete issueNumber (tasks st)) st)
  | None => ret tt
  end.

(** What the supervisor of one task can observe: an event pushed on
    its subscription, or a tick of its status timer. *)
Inductive signal : Type :=
| PushEvent (event : JS.value)
| StatusPoll.

Definition observe (task : nat) (sg : signal) : M state unit :=
  match sg with
  | PushEvent event => handleEvent task event
  | StatusPoll => checkSessionStatus task
  end.

End WithEnv.
End OpenCode.

(* ===================================================================== *)
(** * src/tasks/manager.ts                                                *)
(* ===================================================================== *)

Module Manager.
Import Eff EffAccess Store.

Section WithEnv.
Context {E : Env}.
Variable config : Config.t.

(** The callback the constructor hands to [OpenCodeManager]. *)
Definition onTaskComplete (issueNumber : Z) : M state unit :=
  modify (fun st =>
            set_activeTasks (delete issueNumber (activeTasks st)) st);;
  OpenCode.logI "info" issueNumber "Task completed, slot freed".

(** Start a new task. *)
Definition startTask (issue : Issue.t) : M state TaskContext.t :=
  (* Guard: Don't start if already tracking this issue *)
  existing ← gets (fun st => activeTasks st !! Issue.number issue);
  match existing with
  | Some context =>
      OpenCode.logI "warn" (Issue.number issue)
        "Task already in progress, skipping duplicate start";;
      ret context
  | None =>
      OpenCode.logI "info" (Issue.number issue) "Starting task";;
      let slug := createBranchSlug (Issue.title issue) in
      let branchName := Config.getBranchName (Issue.number issue) slug in
      (* Create worktree *)
      worktreePath ←
        in_sys (Worktree.createWorktree config (Issue.number issue)
                  branchName);
      (* Start OpenCode process *)
      process ← OpenCode.startTask issue worktreePath branchName;
      started ← read process;
      now ← clock;
      let context :=
        {| TaskContext.issueNumber := Issue.number issue;
           TaskContext.issue := issue;
           TaskContext.branchName := branchName;
           TaskContext.worktreePath := worktreePath;
           TaskContext.phase := TaskContext.analysis;
           TaskContext.startedAt := now;
           TaskContext.sessionId :=
             Some (OpenCodeTaskStatus.sessionId started);
           TaskContext.process := Some process |} in
      modify (fun st =>
                set_activeTasks
                  (<[Issue.number issue := context]> (activeTasks st)) st);;
      ret context
  end.

(** Continue a blocked task.  [None] is [null]. *)
Definition continueBlockedTask (issue : Issue.t)
    : M state (option TaskContext.t) :=
  OpenCode.logI "info" (Issue.number issue) "Continuing blocked task";;
  (* Get latest human comment *)
  match GitHub.getLatestHumanComment config issue with
  | None =>
      OpenCode.logI "warn" (Issue.number issue) "No human comment found";;
      ret None
  | Some latestComment =>
      (* Get existing context or create new one *)
      context ← gets (fun st => activeTasks st !! Issue.number issue);
      let worktreePath := Worktree.getPath config (Issue.number issue) in
      branchName ←
        in_sys (Worktree.getCurrentBranch config (Issue.number issue));
      if negb (OpenCode.nonempty branchName)
      then
        OpenCode.logI "error" (Issue.number issue)
          "Could not find branch for task";;
        ret None
      else
        (* Get previous session ID from context or comments *)
        let previousSessionId :=
          match context ≫= TaskContext.sessionId with
          | Some s => if String.eqb s "" then "unknown" else s
          | None => "unknown"
          end in
        (* Start continuation *)
        process ←
          OpenCode.continueTask issue worktreePath previousSessionId
            (Comment.body latestComment);
        resumed ← read process;
        now ← clock;
        let context' :=
          {| TaskContext.issueNumber := Issue.number issue;
             TaskContext.issue := issue;
             TaskContext.branchName := default "" branchName;
             TaskContext.worktreePath := worktreePath;
             TaskContext.phase := TaskContext.implementation;
             TaskContext.startedAt :=
               match context with
               | Some c => TaskContext.startedAt c
               | None => now
               end;
             TaskContext.sessionId :=
               Some (OpenCodeTaskStatus.sessionId resumed);
             TaskContext.process := Some process |} in
        modify (fun st =>
                  set_activeTasks
                    (<[Issue.number issue := context']> (activeTasks st))
                    st);;
        ret (Some context')
  end.

Definition getTask (issueNumber : Z) : M state (option TaskContext.t) :=
  gets (fun st => activeTasks st !! issueNumber).

Definition getActiveCount : M state Z :=
  gets (fun st => Z.of_nat (size (activeTasks st))).

Definition canStartNewTask : M state bool :=
  gets (fun st =>
          Z.of_nat (size (activeTasks st))
          <? Config.maxConcurrentTasks (Config.scheduler config)).

End WithEnv.
End Manager.

(* ===================================================================== *)
(** * src/index.ts                                                        *)
(* ===================================================================== *)

Module Orchestrator.
Import Eff EffAccess Store.

Section WithEnv.
Context {E : Env}.
Variable config : Config.t.

(** The [for] loop of [checkNewTasks]: start tasks up to max
    concurrent. *)
Fixpoint start_sorted (sorted : list Issue.t) : M state unit :=
  match sorted with
  | [] => ret tt
  | issue :: rest =>
      can ← Manager.canStartNewTask config;
      if negb can then ret tt
      else
        when (Labels.isReadyForPickup issue
              && Labels.isUserAllowed issue config)
          (try_catch
             (Manager.startTask config issue;;
              OpenCode.logI "info" (Issue.number issue) "Started task")
             (fun _ =>
                OpenCode.logI "error" (Issue.number issue)
                  "Failed to start task"));;
        start_sorted rest
  end.

(** Check for new tasks to pick up. *)
Definition checkNewTasks : M state unit :=
  can ← Manager.canStartNewTask config;
  if negb can
  then OpenCode.logS "debug" "At max concurrent tasks"
  else
    (* Get issues with ai-task label, excluding those already in progress *)
    issues ←
      in_sys (GitHub.getIssuesWithLabel Labels.AI_TASK
                [Labels.AI_IN_PROGRESS]);
    if (length issues =? 0)%nat
    then OpenCode.logS "debug" "No new tasks found"
    else
      (* Sort by priority *)
      let sorted := GitHub.sortByPriority issues in
      start_sorted sorted.

(** The body of the loop of [checkBlockedTasks]. *)
Definition resume_if_replied (issue : Issue.t) : M state unit :=
  (* Check if there's a new comment from a human *)
  task ← Manager.getTask (Issue.number issue);
  let blockedSince :=
    match task with
    | Some t => TaskContext.startedAt t
    | None => 0
    end in
  when (GitHub.hasNewComments config issue blockedSince)
    (try_catch
       (Manager.continueBlockedTask config issue;;
        OpenCode.logI "info" (Issue.number issue) "Resumed blocked task")
       (fun _ =>
          OpenCode.logI "error" (Issue.number issue)
            "Failed to resume task")).

(** Check for blocked tasks that have received replies. *)
Definition checkBlockedTasks : M state unit :=
  blockedIssues ←
    in_sys (GitHub.getIssuesWithLabel Labels.AI_BLOCKED []);
  mapM resume_if_replied blockedIssues;;
  ret tt.

(** The handler of every subscription is the session manager's, built
    with the task manager's completion callback. *)
Definition observe (task : nat) (sg : OpenCode.signal) : M state unit :=
  OpenCode.observe (Some Manager.onTaskComplete) task sg.

(** What the single event loop runs, one callback at a time: a
    discovery scan, a resume scan, or a signal for the supervisor of
    one task.  Between callbacks the world moves on by itself. *)
Inductive callback : Type :=
| DiscoveryScan
| ResumeScan
| Signal (task : nat) (sg : OpenCode.signal).

Definition run_callback (c : callback) : M state unit :=
  match c with
  | DiscoveryScan => checkNewTasks
  | ResumeScan => checkBlockedTasks
  | Signal task sg => observe task sg
  end.

Definition at_world (w : World) (st : state) : state :=
  set_system {| world := w; calls := calls (system st) |} st.

(** The process after a callback has run in world [w]; an exception
    that escapes the callback is caught by its caller and only
    logged. *)
Definition after (st : state) (w : World) (c : callback) : state :=
  snd (run_callback c (at_world w st)).

Fixpoint run (st : state) (schedule : list (World * callback)) : state :=
  match schedule with
  | [] => st
  | (w, c) :: rest => run (after st w c) rest
  end.

(** A freshly started process. *)
Definition boot (w : World) : state :=
  {| system := {| world := w; calls := [] |};
     heap := [];
     tasks := ∅;
     activeTasks := ∅ |}.

End WithEnv.
End Orchestrator.

(* ===================================================================== *)
(** * A simulated world                                                   *)
(* ===================================================================== *)

(** One concrete outside world, used to run the code on examples: a file
    system given by its files and directories, subprocesses that fail for
    listed command lines, a tracker with canned listings, and an OpenCode
    server that knows some sessions. *)
Module Sim.
Import Eff.

Record world : Type := {
  files : list (string * string);
  dirs : list string;
  failing : list string;
  branch : string;
  now : Z;
  absent_labels : list string;
  listing : list (string * list RawIssue.t);
  comments : list (Z * list Comment.t);
  sessions : list string;
  status : JS.value;
  next_session : string;
}.

Definition mem (x : string) (l : list string) : bool :=
  existsb (String.eqb x) l.

Fixpoint lookup {A} (k : string) (l : list (string * A)) : option A :=
  match l with
  | [] => None
  | (k', v) :: rest => if String.eqb k k' then Some v else lookup k rest
  end.

Fixpoint lookupZ {A} (k : Z) (l : list (Z * A)) : option A :=
  match l with
  | [] => None
  | (k', v) :: rest => if Z.eqb k k' then Some v else lookupZ k rest
  end.

Definition with_dir (d : string) (w : world) : world :=
  {| files := files w; dirs := d :: dirs w; failing := failing w;
     branch := branch w; now := now w; absent_labels := absent_labels w;
     listing := listing w; comments := comments w; sessions := sessions w;
     status := status w; next_session := next_session w |}.

Definition with_session (sid : string) (w : world) : world :=
  {| files := files w; dirs := dirs w; failing := failing w;
     branch := branch w; now := now w; absent_labels := absent_labels w;
     listing := listing w; comments := comments w;
     sessions := sid :: sessions w;
     status := status w; next_session := next_session w |}.

Definition http_error (code : Z) (text : string) : JS.value :=
  JS.Obj [("status", JS.Num code); ("message", JS.Str text)].

Definition perform (w : world) (c : call) : result JS.value * world :=
  match c with
  | ExistsSync p =>
      (Ok (JS.Bool (mem p (dirs w) || mem p (map fst (files w)))), w)
  | ReadFileSync p =>
      match lookup p (files w) with
      | Some text => (Ok (JS.Str text), w)
      | None => (Throw (JS.Obj [("code", JS.Str "ENOENT")]), w)
      end
  | MkdirSync p => (Ok JS.Undefined, with_dir p w)
  | ExecSync cwd command =>
      if mem command (failing w)
      then (Throw (JS.Obj [("status", JS.Num 1);
                           ("stdout", JS.Str "");
                           ("stderr", JS.Str ("failed: " ++ command))]), w)
      else (Ok (JS.Str (branch w)), w)
  | RemoveLabel _ name =>
      if mem name (absent_labels w)
      then (Throw (http_error 404 "Label does not exist"), w)
      else (Ok JS.Undefined, w)
  | CreateSession _ _ =>
      (Ok (JS.Obj [("id", JS.Str (next_session w))]),
       with_session (next_session w) w)
  | GetSession sid =>
      if mem sid (sessions w)
      then (Ok (JS.Obj [("id", JS.Str sid)]), w)
      else (Throw (http_error 404 "Not Found"), w)
  | GetSessionStatus => (Ok (status w), w)
  | _ => (Ok JS.Undefined, w)
  end.

#[export] Instance env : Env := {|
  World := world;
  Eff.perform := perform;
  Date_now := now;
  listForRepo w label := (Ok (default [] (lookup label (listing w))), w);
  getIssueComments w n := (default [] (lookupZ n (comments w)), w);
  JSON_parse _ := Throw (JS.Obj [("name", JS.Str "SyntaxError")]);
  JSON_stringify _ := "{}";
  generateOrchestratorPrompt issue _ _ := "Work on: " ++ Issue.title issue;
  generateContinuationPrompt issue _ _ comment := "Continue with: " ++ comment;
  createBranchSlug _ := "task";
  normalizeMessage s := JS.trim s;
|}.

Definition empty : world :=
  {| files := []; dirs := []; failing := []; branch := "main"; now := 0;
     absent_labels := []; listing := []; comments := []; sessions := [];
     status := JS.Obj []; next_session := "ses_1" |}.

Definition config : Config.t :=
  {| Config.github :=
       {| Config.username := "orchestrator-bot"; Config.allowedUsers := [] |};
     Config.scheduler := {| Config.maxConcurrentTasks := 2 |};
     Config.opencode :=
       {| Config.projectPath := "/repo"; Config.worktreeDir := ".worktrees" |} |}.

Definition start (w : world) : sys := {| Eff.world := w; calls := [] |}.

(** The orchestrator process, freshly started in world [w]. *)
Definition boot (w : world) : Store.state := Orchestrator.boot w.

End Sim.

(* ===================================================================== *)
(** * Text                                                                *)
(* ===================================================================== *)

Module Text.

(** [s.split(sep)] for a separator of one character. *)
Fixpoint split (sep : ascii) (s : string) : list string :=
  match s with
  | EmptyString => [EmptyString]
  | String c s' =>
      if Ascii.eqb c sep then EmptyString :: split sep s'
      else match split sep s' with
           | piece :: rest => String c piece :: rest
           | [] => [String c EmptyString]
           end
  end.

End Text.

(* ===================================================================== *)
(** * src/utils/slug.ts                                                   *)
(* ===================================================================== *)

(** A character of a title is a code unit below 256.  Of these, the
    lower-case letters and digits that [slugify] keeps are ASCII, and the
    white space of [\s] is the ASCII white space and the no-break space;
    [toLowerCase] sends no code unit from 128 on to one that is kept. *)
Module Slug.

(** [\s] *)
Definition is_space (c : ascii) : bool :=
  Ascii.is_space c || Ascii.eqb c "160"%char.

(** [[a-z0-9]] *)
Definition is_lower_or_digit (c : ascii) : bool :=
  let n := nat_of_ascii c in
  ((97 <=? n) && (n <=? 122) || (48 <=? n) && (n <=? 57))%nat.

Definition is_hyphen (c : ascii) : bool := Ascii.eqb c "-"%char.

(** [.replace(/[^a-z0-9\s-]/g, '')] *)
Fixpoint remove_special (s : string) : string :=
  match s with
  | EmptyString => EmptyString
  | String c s' =>
      if is_lower_or_digit c || is_space c || is_hyphen c
      then String c (remove_special s')
      else remove_special s'
  end.

(** [.replace(/C+/g, '-')] for a character class [C]: every maximal run
    of characters of the class becomes one hyphen.  [in_run] tells
    whether the character before belongs to the class. *)
Fixpoint squeeze (class : ascii -> bool) (in_run : bool) (s : string)
    : string :=
  match s with
  | EmptyString => EmptyString
  | String c s' =>
      if class c
      then if in_run then squeeze class true s'
           else String "-"%char (squeeze class true s')
      else String c (squeeze class false s')
  end.

(** [.replace(/^-|-$/g, '')]: a hyphen at the start goes, and so does a
    hyphen at the end of what is left. *)
Definition strip_leading (s : string) : string :=
  match s with
  | String c s' => if is_hyphen c then s' else s
  | EmptyString => s
  end.

Fixpoint strip_trailing (s : string) : string :=
  match s with
  | EmptyString => EmptyString
  | String c s' =>
      match s' with
      | EmptyString => if is_hyphen c then EmptyString else s
      | String _ _ => String c (strip_trailing s')
      end
  end.

(** Convert a title to a URL-safe slug. *)
Definition slugify (title : string) : string :=
  String.substring 0 50                      (* Limit length *)
    (strip_trailing (strip_leading           (* Remove leading/trailing hyphens *)
       (squeeze is_hyphen false              (* Replace multiple hyphens with single *)
          (squeeze is_space false            (* Replace spaces with hyphens *)
             (remove_special                 (* Remove special characters *)
                (JS.toLowerCase title)))))).

(** Create a branch-safe slug from issue title: [slug || 'task']. *)
Definition createBranchSlug (title : string) : string :=
  let slug := slugify title in
  if String.eqb slug "" then "task" else slug.

End Slug.

(* ===================================================================== *)
(** * src/utils/logger.ts                                                 *)
(* ===================================================================== *)

Module Logger.

(** [str.substring(0, end)]: an [end] below zero counts as zero, one
    beyond the length as the length. *)
Definition substring_to (end_ : Z) (str : string) : string :=
  String.substring 0 (Z.to_nat end_) str.

(** Truncate string to max length. *)
Definition truncate (str : string) (maxLen : Z) : string :=
  if Z.of_nat (String.length str) <=? maxLen then str
  else substring_to (maxLen - 3) str ++ "...".

End Logger.

(* ===================================================================== *)
(** * src/config.ts: parsing environment variables                        *)
(* ===================================================================== *)

Module ConfigParse.

Definition digit (c : ascii) : option Z :=
  let n := nat_of_ascii c in
  if ((48 <=? n) && (n <=? 57))%nat then Some (Z.of_nat (n - 48)) else None.

(** The value of the longest run of decimal digits at the start of [s],
    continuing from [acc]. *)
Fixpoint digits (acc : Z) (s : string) : Z :=
  match s with
  | EmptyString => acc
  | String c s' =>
      match digit c with
      | Some d => digits (10 * acc + d) s'
      | None => acc
      end
  end.

(** What [parseInt] answers when it is not [NaN]: an integer that a
    double holds, or an infinity.  The two zeros are not told apart. *)
Inductive number : Type :=
| Finite (n : Z)
| Infinite (negative : bool).

(** The Number value for an integer: the nearest double, a tie going to
    the even significand of 53 bits, and an infinity from 2^1024 on.
    (For a numeral of more than 20 significant digits the language
    allows an implementation to round the digits after the 20th away
    first; Node rounds the exact value.) *)
Definition nearest_double (z : Z) : number :=
  let a := Z.abs z in
  if a <? 2 ^ 53 then Finite z
  else
    let e := Z.log2 a - 52 in
    let q := a / 2 ^ e in
    let r := a mod 2 ^ e in
    let half := 2 ^ (e - 1) in
    let q := if (half <? r) || (r =? half) && Z.odd q then q + 1 else q in
    if 2 ^ 1024 <=? q * 2 ^ e then Infinite (z <? 0)
    else Finite (Z.sgn z * (q * 2 ^ e)).

(** [parseInt(s, 10)]: leading white space, an optional sign, and the
    digits up to the first character that is none; [None] is [NaN]. *)
Definition parseInt (s : string) : option number :=
  let s := JS.trim_start s in
  let '(negative, rest) :=
    match s with
    | String c r =>
        if Ascii.eqb c "-"%char then (true, r)
        else if Ascii.eqb c "+"%char then (false, r)
        else (false, s)
    | EmptyString => (false, s)
    end in
  match rest with
  | String c _ =>
      match digit c with
      | Some _ => Some (nearest_double
                          (if negative : bool then - digits 0 rest
                           else digits 0 rest))
      | None => None
      end
  | EmptyString => None
  end.

(** Parse number from environment variable.  [None] is [undefined]. *)
Definition parseNumber (value : option string) (defaultValue : Z)
    : number :=
  match value with
  | None => Finite defaultValue
  | Some v =>
      match parseInt v with
      | Some parsed => parsed
      | None => Finite defaultValue
      end
  end.

(** Parse comma-separated string to array of trimmed strings. *)
Definition parseStringArray (value : option string) : list string :=
  match value with
  | None => []
  | Some v =>
      if String.eqb v "" || String.eqb (JS.trim v) "" then []
      else List.filter (fun s => (0 <? String.length s)%nat)
             (map JS.trim (Text.split ","%char v))
  end.

(** The configuration, as its type declares it. *)
Record github_t : Type :=
  { token : string; repo : string; username : string;
    allowedUsers : list string }.
Record scheduler_t : Type :=
  { pollIntervalMs : Z; maxConcurrentTasks : Z }.
Record opencode_t : Type :=
  { serverUrl : string; projectPath : string; worktreeDir : string }.
Record testing_t : Type :=
  { ralphLoopEnabled : bool; ralphLoopMaxIterations : Z;
    playwrightEnabled : bool; minTestCoverage : Z }.
Record quality_t : Type := { enforceGates : bool; maxAttempts : Z }.
Record taskState_t : Type :=
  { checkpointIntervalMinutes : Z; worktreeRetentionDays : Z;
    autoCleanWorktrees : bool }.
Record cicd_t : Type := { waitTimeoutMinutes : Z; requirePass : bool }.
Record documentation_t : Type :=
  { autoGenerate : bool; autoUpdateReadme : bool; framework : string }.
Record logging_t : Type :=
  { level : string; shareSessions : bool;
    progressUpdateIntervalMinutes : Z }.
Record t : Type :=
  { github : github_t; scheduler : scheduler_t; opencode : opencode_t;
    testing : testing_t; quality : quality_t; taskState : taskState_t;
    cicd : cicd_t; documentation : documentation_t; logging : logging_t }.

(** [/[^/]+$/] *)
Fixpoint no_slash_to_end (s : string) : bool :=
  match s with
  | EmptyString => false
  | String c s' =>
      negb (Ascii.eqb c "/"%char)
      && match s' with
         | EmptyString => true
         | String _ _ => no_slash_to_end s'
         end
  end.

(** [/^[^/]+\/[^/]+$/]; [seen] tells whether a character of the owner
    has been read. *)
Fixpoint owner_slash_repo (seen : bool) (s : string) : bool :=
  match s with
  | EmptyString => false
  | String c s' =>
      if Ascii.eqb c "/"%char then seen && no_slash_to_end s'
      else owner_slash_repo true s'
  end.

Definition repo_pattern (s : string) : bool := owner_slash_repo false s.

(** Get parsed repository owner and name: [const [owner, repo] =
    config.github.repo.split('/')].  [None] is [undefined]. *)
Definition getRepoInfo (config : t) : option string * option string :=
  let parts := Text.split "/"%char (repo (github config)) in
  (parts !! 0%nat, parts !! 1%nat).

End ConfigParse.

(* ===================================================================== *)
(** * src/tasks/worktree.ts: removing and listing worktrees               *)
(* ===================================================================== *)

Module WorktreeAdmin.
Import Eff EffAccess.

(** The [for] loop of [listWorktrees] over the lines of the output. *)
Fixpoint worktree_lines (lines : list string) : list string :=
  match lines with
  | [] => []
  | line :: rest =>
      if JS.startsWith line "worktree "
      then JS.replace_first line "worktree " "" :: worktree_lines rest
      else worktree_lines rest
  end.

Section WithEnv.
Context {E : Env}.
Variable config : Config.t.

(** Remove a worktree. *)
Definition removeWorktree (issueNumber : Z) : M sys unit :=
  let worktreePath := Config.getWorktreePath config issueNumber in
  present ← existsSync worktreePath;
  if negb present
  then logi "debug" issueNumber "Worktree does not exist"
  else
    try_catch
      (Worktree.execSync (Worktree.projectPath config)
         ("git worktree remove " ++ Worktree.dquote ++ worktreePath
          ++ Worktree.dquote ++ " --force");;
       logi "info" issueNumber "Removed worktree")
      (fun error =>
         logi "error" issueNumber "Failed to remove worktree";;
         throw error).

(** List all worktrees. *)
Definition listWorktrees : M sys (list string) :=
  try_catch
    (output ← Worktree.execSync (Worktree.projectPath config)
                "git worktree list --porcelain";
     let lines := Text.split "010"%char (default "" (JS.as_str output)) in
     ret (worktree_lines lines))
    (fun _ =>
       log "error" "Failed to list worktrees";;
       ret []).

(** Push a branch to origin. *)
Definition pushBranch (issueNumber : Z) (branchName : string) : M sys unit :=
  let worktreePath := Config.getWorktreePath config issueNumber in
  try_catch
    (Worktree.execSync worktreePath ("git push -u origin " ++ branchName);;
     logi "info" issueNumber "Pushed branch to origin")
    (fun error =>
       logi "error" issueNumber "Failed to push branch";;
       throw error).

End WithEnv.
End WorktreeAdmin.

(* ===================================================================== *)
(** * src/index.ts: the poll                                              *)
(* ===================================================================== *)

Module Poller.
Import Eff EffAccess Store.

Section WithEnv.
Context {E : Env}.
Variable config : Config.t.

(** [WorktreeManager.cleanOldWorktrees] walks the worktree directory
    with [fs.readdirSync] and [fs.statSync]; the poll is modelled for
    whatever it does. *)
Variable cleanOldWorktrees : M state unit.

(** Poll GitHub for tasks. *)
Definition poll : M state unit :=
  OpenCode.logS "debug" "Polling GitHub for tasks...";;
  try_catch
    ((* Check for new tasks *)
     Orchestrator.checkNewTasks config;;
     (* Check for blocked tasks with replies *)
     Orchestrator.checkBlockedTasks config;;
     (* Clean old worktrees if enabled *)
     cleanOldWorktrees)
    (fun _ => OpenCode.logS "error" "Error during poll").

End WithEnv.
End Poller.

(* ===================================================================== *)
(** * src/github/client.ts: the paging loop of getIssueComments           *)
(* ===================================================================== *)

Module Paging.
Import Eff EffAccess.

(** A comment as [octokit.issues.listComments] answers it; [body] may be
    missing and [user] may be null. *)
Record RawComment : Type := {
  id : Z;
  body : option string;
  login : option string;
  created_at : Z
}.

(** [value || fallback] on a string that may be missing. *)
Definition or_string (value : option string) (fallback : string) : string :=
  match value with
  | Some v => if String.eqb v "" then fallback else v
  | None => fallback
  end.

Definition convert (comment : RawComment) : Comment.t :=
  {| Comment.id := id comment;
     Comment.body := or_string (body comment) "";
     Comment.author := or_string (login comment) "unknown";
     Comment.createdAt := created_at comment |}.

(** Maximum per page *)
Definition perPage : nat := 100.

Section WithEnv.
Context {E : Env}.

(** [octokit.issues.listComments] for an issue and a page, 100 per
    page: what it answers in a world and the world it leaves. *)
Variable listComments :
  World -> Z -> Z -> result (list RawComment) * World.

Definition call_listComments (issueNumber page : Z)
    : M sys (list RawComment) :=
  fun s =>
    let '(r, w) := listComments (world s) issueNumber page in
    (r, {| world := w; calls := calls s |}).

(** The [while (true)] loop, for at most [fuel] requests; [None] when
    the loop is still asking after that many. *)
Fixpoint fetch_pages (fuel : nat) (issueNumber page : Z)
    (allComments : list Comment.t) : M sys (option (list Comment.t)) :=
  match fuel with
  | O => ret None
  | S fuel' =>
      data ← call_listComments issueNumber page;
      if (length data =? 0)%nat then ret (Some allComments)
      else
        let allComments := (allComments ++ map convert data)%list in
        (* If we got fewer than perPage, we've reached the end *)
        if (length data <? perPage)%nat then ret (Some allComments)
        else fetch_pages fuel' issueNumber (page + 1) allComments
  end.

Definition getIssueComments (fuel : nat) (issueNumber : Z)
    : M sys (option (list Comment.t)) :=
  try_catch
    (found ← fetch_pages fuel issueNumber 1 [];
     match found with
     | Some allComments =>
         logi "debug" issueNumber "Fetched all comments";;
         ret (Some allComments)
     | None => ret None
     end)
    (fun _ =>
       logi "error" issueNumber "Failed to fetch comments";;
       ret (Some [])).

End WithEnv.
End Paging.

(* ===================================================================== *)
(** * Reasoning about computations                                        *)
(* ===================================================================== *)

(** From here on [++] is list concatenation. *)
Local Open Scope list_scope.

Module EffFacts.
Import Eff EffAccess.

(** [preserves R m]: whatever [m] returns or throws, the state it leaves
    is related by [R] to the state it started from. *)
Definition preserves {S A} (R : S -> S -> Prop) (m : M S A) : Prop :=
  forall s, R s (snd (m s)).

Section Frames.
Context {S : Type} (R : S -> S -> Prop) `{!PreOrder R}.

Lemma preserves_ret {A} (a : A) : preserves R (ret a).
Proof. intros s. reflexivity. Qed.

Lemma preserves_throw {A} e : preserves R (@throw S A e).
Proof. intros s. reflexivity. Qed.

Lemma preserves_lift {A} (r : result A) : preserves R (lift r).
Proof. intros s. reflexivity. Qed.

Lemma preserves_gets {A} (f : S -> A) : preserves R (gets f).
Proof. intros s. reflexivity. Qed.

Lemma preserves_modify (f : S -> S) :
  (forall s, R s (f s)) -> preserves R (modify f).
Proof. intros H s. apply H. Qed.

Lemma preserves_bind {A B} (m : M S A) (k : A -> M S B) :
  preserves R m -> (forall a, preserves R (k a)) -> preserves R (m ≫= k).
Proof.
  intros Hm Hk s. unfold mbind, M_bind, bind.
  specialize (Hm s). destruct (m s) as [[a|e] s1]; simpl in *.
  - etransitivity; [exact Hm | apply Hk].
  - exact Hm.
Qed.

Lemma preserves_try_catch {A} (m : M S A) (h : JS.value -> M S A) :
  preserves R m -> (forall e, preserves R (h e)) ->
  preserves R (try_catch m h).
Proof.
  intros Hm Hh s. unfold try_catch.
  specialize (Hm s). destruct (m s) as [[a|e] s1]; simpl in *.
  - exact Hm.
  - etransitivity; [exact Hm | apply Hh].
Qed.

Lemma preserves_when (c : bool) (m : M S unit) :
  preserves R m -> preserves R (when c m).
Proof. destruct c; simpl; [auto | intros _; apply preserves_ret]. Qed.

Lemma preserves_prop k v : preserves R (@prop S k v).
Proof. destruct v; first [apply preserves_throw | apply preserves_ret]. Qed.

Lemma preserves_orM (a b : M S bool) :
  preserves R a -> preserves R b -> preserves R (orM a b).
Proof.
  intros Ha Hb. apply preserves_bind; [exact Ha |].
  intros []; [apply preserves_ret | exact Hb].
Qed.

Lemma preserves_mapM {A B} (f : A -> M S B) (l : list A) :
  (forall a, preserves R (f a)) -> preserves R (mapM f l).
Proof.
  intros Hf. induction l as [|x l IH]; simpl.
  - apply preserves_ret.
  - apply (preserves_bind (f x)); [apply Hf |].
    intros y. apply (preserves_bind (mapM f l)); [exact IH |].
    intros ys. apply preserves_ret.
Qed.

End Frames.

(** One step of a frame proof: peel the outermost construct. *)
Ltac frame_step :=
  lazymatch goal with
  | |- preserves _ (@mbind _ _ _ _ _ _) =>
      apply preserves_bind; [apply _ | | intros ?]
  | |- preserves _ (bind _ _) => apply preserves_bind; [apply _ | | intros ?]
  | |- preserves _ (try_catch _ _) =>
      apply preserves_try_catch; [apply _ | | intros ?]
  | |- preserves _ (when _ _) => apply preserves_when; [apply _ |]
  | |- preserves _ (orM _ _) => apply preserves_orM; [apply _ | |]
  | |- preserves _ (mapM _ _) => apply preserves_mapM; [apply _ | intros ?]
  | |- preserves _ (ret _) => apply preserves_ret; apply _
  | |- preserves _ (throw _) => apply preserves_throw; apply _
  | |- preserves _ (lift _) => apply preserves_lift; apply _
  | |- preserves _ (gets _) => apply preserves_gets; apply _
  | |- preserves _ (prop _ _) => apply preserves_prop; apply _
  | |- preserves _ (if ?b then _ else _) => destruct b
  | |- preserves _ (match ?x with _ => _ end) => destruct x
  | |- preserves _ (let _ := _ in _) => cbv zeta
  end.

(** Peel as far as possible, closing leaves with the hints of [frames]. *)
Ltac frame := repeat (first [frame_step | solve [eauto with frames]]).

Lemma fst_bind_ok {S A B} (m : M S A) (k : A -> M S B) s a s1 :
  m s = (Ok a, s1) -> (m ≫= k) s = k a s1.
Proof. intros H. unfold mbind, M_bind, bind. now rewrite H. Qed.

Lemma fst_bind_throw {S A B} (m : M S A) (k : A -> M S B) s e s1 :
  m s = (Throw e, s1) -> (m ≫= k) s = (Throw e, s1).
Proof. intros H. unfold mbind, M_bind, bind. now rewrite H. Qed.

(** ** Running a computation step by step *)

(** [wp m Q s]: run from [s], [m] ends in an outcome and a state that
    satisfy [Q]. *)
Definition wp {S A} (m : M S A) (Q : result A -> S -> Prop) (s : S) : Prop :=
  Q (fst (m s)) (snd (m s)).

Definition after_bind {S A B} (k : A -> M S B) (Q : result B -> S -> Prop)
    (r : result A) (s : S) : Prop :=
  match r with
  | Ok a => wp (k a) Q s
  | Throw e => Q (Throw e) s
  end.

Definition after_try {S A} (h : JS.value -> M S A)
    (Q : result A -> S -> Prop) (r : result A) (s : S) : Prop :=
  match r with
  | Ok a => Q (Ok a) s
  | Throw e => wp (h e) Q s
  end.

Lemma wp_bind {S A B} (m : M S A) (k : A -> M S B) Q s :
  wp m (after_bind k Q) s -> wp (m ≫= k) Q s.
Proof.
  unfold wp, after_bind, mbind, M_bind, bind.
  destruct (m s) as [[a|e] s1]; cbn; auto.
Qed.

Lemma wp_try_catch {S A} (m : M S A) (h : JS.value -> M S A) Q s :
  wp m (after_try h Q) s -> wp (try_catch m h) Q s.
Proof.
  unfold wp, after_try, try_catch. destruct (m s) as [[a|e] s1]; cbn; auto.
Qed.

Lemma wp_ret {S A} (a : A) (Q : result A -> S -> Prop) s :
  Q (Ok a) s -> wp (ret a) Q s.
Proof. auto. Qed.

Lemma wp_throw {S A} e (Q : result A -> S -> Prop) s :
  Q (Throw e) s -> wp (throw e) Q s.
Proof. auto. Qed.

Lemma wp_gets {S A} (f : S -> A) (Q : result A -> S -> Prop) s :
  Q (Ok (f s)) s -> wp (gets f) Q s.
Proof. auto. Qed.

Lemma wp_modify {S} (f : S -> S) (Q : result unit -> S -> Prop) s :
  Q (Ok tt) (f s) -> wp (modify f) Q s.
Proof. auto. Qed.

Lemma wp_prop {S} k v (Q : result JS.value -> S -> Prop) s :
  match v with
  | JS.Undefined | JS.Null => Q (Throw TypeError) s
  | _ => Q (Ok (JS.get k v)) s
  end -> wp (prop k v) Q s.
Proof. destruct v; auto. Qed.

(** A computation whose end state is all that matters. *)
Lemma wp_frame {S A} (R : S -> S -> Prop) (m : M S A)
    (Q : result A -> S -> Prop) s :
  preserves R m -> (forall r s', R s s' -> Q r s') -> wp m Q s.
Proof. intros Hm HQ. apply HQ, Hm. Qed.

Section SysSteps.
Context {E : Env}.

Lemma wp_do_call c (Q : result JS.value -> sys -> Prop) s :
  (forall r w, perform (world s) c = (r, w) ->
               Q r {| world := w; calls := calls s ++ [c] |}) ->
  wp (do_call c) Q s.
Proof.
  intros H. unfold wp, do_call.
  destruct (perform (world s) c) as [r w] eqn:Hp. cbn. auto.
Qed.

Lemma wp_log_entry level n message (Q : result unit -> sys -> Prop) s :
  Q (Ok tt) {| world := world s;
               calls := calls s ++ [LogCall level n message] |} ->
  wp (log_entry level n message) Q s.
Proof. auto. Qed.

End SysSteps.

End EffFacts.

Create HintDb frames.

(* ===================================================================== *)
(** * Theorems: src/github/client.ts                                      *)
(* ===================================================================== *)

Module GitHubFacts.
Import Eff EffAccess EffFacts.

Section WithEnv.
Context {E : Env}.

Lemma removeLabel_unfold (s : sys) issueNumber label error w :
  perform (world s) (RemoveLabel issueNumber label) = (Throw error, w) ->
  GitHub.removeLabel issueNumber label s
  = (status ← prop "status" error;
     if JS.neq_num status 404
     then logi "error" issueNumber "Failed to remove label";; throw error
     else ret tt)
      {| world := w; calls := calls s ++ [RemoveLabel issueNumber label] |}.
Proof.
  intros H. unfold GitHub.removeLabel, try_catch.
  unfold mbind at 1. unfold M_bind, bind, do_call. rewrite H. reflexivity.
Qed.

(** C9.  When the tracker's [removeLabel] request fails with status 404
    (the label is not on the issue), [removeLabel] returns normally;
    when it fails with an error object carrying any other status (or
    none), [removeLabel] throws that same error. *)
Theorem removeLabel_ignores_404_only (s : sys) (issueNumber : Z)
    (label : string) (error : JS.value) (w : World) :
  perform (world s) (RemoveLabel issueNumber label) = (Throw error, w) ->
  (JS.get "status" error = JS.Num 404 ->
   fst (GitHub.removeLabel issueNumber label s) = Ok tt)
  /\ (JS.neq_num (JS.get "status" error) 404 = true ->
      error <> JS.Undefined -> error <> JS.Null ->
      fst (GitHub.removeLabel issueNumber label s) = Throw error).
Proof.
  intros H. rewrite (removeLabel_unfold _ _ _ _ _ H). split.
  - intros H404. destruct error; simpl in H404; try discriminate.
    unfold mbind, M_bind, bind, prop, ret; simpl. now rewrite H404.
  - intros Hne Hu Hn. destruct error; try congruence;
      unfold mbind, M_bind, bind, prop, ret; simpl in *;
      rewrite ?Hne; reflexivity.
Qed.

End WithEnv.

Definition absent_label_world : Sim.world :=
  {| Sim.files := []; Sim.dirs := []; Sim.failing := [];
     Sim.branch := "main"; Sim.now := 0;
     Sim.absent_labels := ["ai-in-progress"];
     Sim.listing := []; Sim.comments := []; Sim.sessions := [];
     Sim.status := JS.Obj []; Sim.next_session := "ses_1" |}.

Lemma removeLabel_ignores_404_only_witness :
  fst (GitHub.removeLabel 7 "ai-in-progress" (Sim.start absent_label_world))
  = Ok tt.
Proof.
  refine (proj1 (removeLabel_ignores_404_only
                   (Sim.start absent_label_world) 7 "ai-in-progress"
                   (Sim.http_error 404 "Label does not exist")
                   absent_label_world _) _); reflexivity.
Defined.

End GitHubFacts.

(* ===================================================================== *)
(** * Theorems: src/tasks/quality.ts                                      *)
(* ===================================================================== *)

Module QualityFacts.
Import Eff EffAccess EffFacts Quality.

(** The subprocesses a trace ran, in order: working directory and
    command line. *)
Definition exec_calls (trace : list call) : list (string * string) :=
  omap (fun c => match c with
                 | ExecSync cwd command => Some (cwd, command)
                 | _ => None
                 end) trace.

(** What a failed call throws is an error object, never [null] or
    [undefined]. *)
Definition throws_objects {E : Env} : Prop :=
  forall w c e w', perform w c = (Throw e, w') ->
                   e <> JS.Undefined /\ e <> JS.Null.

Section WithEnv.
Context {E : Env}.

Lemma exec_calls_app l1 l2 :
  exec_calls (l1 ++ l2) = exec_calls l1 ++ exec_calls l2.
Proof. apply omap_app. Qed.

Lemma runGate_runs_its_command (worktreePath : string) (g : QualityGate)
    (s : sys) :
  throws_objects ->
  exists r s',
    runGate worktreePath g s = (Ok r, s')
    /\ gate r = name g
    /\ exec_calls (calls s')
       = exec_calls (calls s) ++ [(worktreePath, command_line g)].
Proof.
  intros Hobj. unfold runGate.
  unfold mbind at 1. unfold M_bind, bind, log, log_entry at 1.
  unfold try_catch. unfold mbind at 1. unfold M_bind, bind, do_call.
  cbn [world calls].
  destruct (perform (world s) (ExecSync worktreePath (command_line g)))
    as [[out|e] w] eqn:Hp.
  - eexists _, _. split; [reflexivity|]. cbn. split; [reflexivity|].
    rewrite !exec_calls_app. cbn. now rewrite !app_nil_r.
  - destruct (Hobj _ _ _ _ Hp) as [Hu Hn].
    destruct e; try congruence;
      cbn; unfold mbind, M_bind, bind, prop, ret; cbn;
      match goal with
      | |- context [if ?b then _ else _] => destruct b
      | _ => idtac
      end; cbn;
      (eexists _, _; split; [reflexivity|]; cbn; split; [reflexivity|];
       rewrite !exec_calls_app; cbn; now rewrite !app_nil_r).
Qed.

Lemma run_gates_spec (worktreePath : string) :
  throws_objects ->
  forall (gates : list QualityGate) (acc : list QualityResult) (s : sys),
  exists results s' n,
    run_gates worktreePath gates acc s = (Ok (acc ++ results), s')
    /\ exec_calls (calls s')
       = exec_calls (calls s)
         ++ map (fun g => (worktreePath, command_line g)) (take n gates)
    /\ map gate results = map name (take n gates)
    /\ (forall i r g, (S i < n)%nat -> results !! i = Some r ->
                      gates !! i = Some g ->
                      passed r = true \/ required g = false)
    /\ (n = length gates
        \/ exists r g, (0 < n)%nat /\ results !! (n - 1)%nat = Some r
                       /\ gates !! (n - 1)%nat = Some g
                       /\ passed r = false /\ required g = true).
Proof.
  intros Hobj gates. induction gates as [|g rest IH]; intros acc s.
  - exists [], s, 0%nat. cbn. rewrite !app_nil_r.
    repeat split; auto. intros; lia.
  - destruct (runGate_runs_its_command worktreePath g s Hobj)
      as (r & s1 & Hrun & Hname & Hexec).
    cbn [run_gates]. rewrite (fst_bind_ok _ _ _ _ _ Hrun).
    destruct (negb (passed r) && required g) eqn:Hhalt.
    + apply andb_true_iff in Hhalt as [Hp Hr].
      apply negb_true_iff in Hp.
      exists [r], (snd (log "warn" "Required gate failed, stopping" s1)),
        1%nat.
      cbn. rewrite take_0.
      repeat split.
      * rewrite exec_calls_app. cbn. now rewrite app_nil_r.
      * now rewrite Hname.
      * intros; lia.
      * right. exists r, g. repeat split; auto.
    + destruct (IH (acc ++ [r]) s1)
        as (results & s' & n & Hrest & Hcalls & Hnames & Hmid & Hlast).
      exists (r :: results), s', (S n). cbn [take map].
      repeat split.
      * rewrite Hrest. now rewrite <- app_assoc.
      * rewrite Hcalls, Hexec. now rewrite <- app_assoc.
      * cbn. now rewrite Hname, Hnames.
      * intros i r0 g0 Hi Hr0 Hg0. destruct i as [|i]; cbn in *.
        -- inversion Hr0; inversion Hg0; subst.
           apply andb_false_iff in Hhalt as [Hp|Hq]; [left|right]; auto.
           now apply negb_false_iff in Hp.
        -- apply (Hmid i); auto. lia.
      * destruct Hlast as [->|(r0 & g0 & Hn & Hr0 & Hg0 & Hp & Hq)].
        -- now left.
        -- right. exists r0, g0. repeat split; auto; try lia.
           ++ replace (S n - 1)%nat with (S (n - 1)) by lia. exact Hr0.
           ++ replace (S n - 1)%nat with (S (n - 1)) by lia. exact Hg0.
Qed.

(** C7.  [runAllGates] runs the detected gates in order and stops right
    after the first one that fails while required: the commands it
    ran are those of the first [n] detected gates, the result list
    names exactly those [n] gates in that order, no gate before the
    last one run failed while required, and either every gate ran or
    the last one run is a required gate that failed. *)
Theorem runAllGates_stops_at_first_required_failure
    (worktreePath : string) (s s1 : sys) (gates : list QualityGate) :
  throws_objects ->
  detectGates worktreePath s = (Ok gates, s1) ->
  exists results s2 n,
    runAllGates worktreePath s = (Ok results, s2)
    /\ exec_calls (calls s2)
       = exec_calls (calls s1)
         ++ map (fun g => (worktreePath, command_line g)) (take n gates)
    /\ map gate results = map name (take n gates)
    /\ (forall i r g, (S i < n)%nat -> results !! i = Some r ->
                      gates !! i = Some g ->
                      passed r = true \/ required g = false)
    /\ (n = length gates
        \/ exists r g, (0 < n)%nat /\ results !! (n - 1)%nat = Some r
                       /\ gates !! (n - 1)%nat = Some g
                       /\ passed r = false /\ required g = true).
Proof.
  intros Hobj Hdetect. unfold runAllGates.
  rewrite (fst_bind_ok _ _ _ _ _ Hdetect).
  destruct (run_gates_spec worktreePath Hobj gates [] s1)
    as (results & s2 & n & H). exists results, s2, n. exact H.
Qed.

End WithEnv.

Lemma Sim_throws_objects : @throws_objects Sim.env.
Proof.
  intros w c e w' H. destruct c; cbn in H;
    repeat match type of H with
           | context [if ?b then _ else _] => destruct b
           | context [match ?x with _ => _ end] => destruct x
           end;
    inversion H; subst; split; discriminate.
Qed.

(** A workspace [/w] whose Makefile has lint, test and build targets,
    where [make test] fails; the directory the process runs in has no
    manifest at all. *)
Definition makefile_world : Sim.world :=
  {| Sim.files := [("/w/Makefile", "lint: ; eslint .  test: ; jest  build: ; tsc")];
     Sim.dirs := ["/w"]; Sim.failing := ["make test"];
     Sim.branch := "main"; Sim.now := 0; Sim.absent_labels := [];
     Sim.listing := []; Sim.comments := []; Sim.sessions := [];
     Sim.status := JS.Obj []; Sim.next_session := "ses_1" |}.

Definition makefile_gates : list QualityGate :=
  [{| name := "Linting"; commands := ["make"; "lint"]; required := true |};
   {| name := "Tests"; commands := ["make"; "test"]; required := true |};
   {| name := "Build"; commands := ["make"; "build"]; required := true |}].

Lemma runAllGates_stops_at_first_required_failure_witness :
  exists results s2 n,
    runAllGates "/w" (Sim.start makefile_world) = (Ok results, s2)
    /\ exec_calls (calls s2)
       = exec_calls (calls (snd (detectGates "/w" (Sim.start makefile_world))))
         ++ map (fun g => ("/w", command_line g)) (take n makefile_gates)
    /\ map gate results = map name (take n makefile_gates)
    /\ (forall i r g, (S i < n)%nat -> results !! i = Some r ->
                      makefile_gates !! i = Some g ->
                      passed r = true \/ required g = false)
    /\ (n = length makefile_gates
        \/ exists r g, (0 < n)%nat /\ results !! (n - 1)%nat = Some r
                       /\ makefile_gates !! (n - 1)%nat = Some g
                       /\ passed r = false /\ required g = true).
Proof.
  apply (runAllGates_stops_at_first_required_failure "/w"
           (Sim.start makefile_world)
           (snd (detectGates "/w" (Sim.start makefile_world)))
           makefile_gates Sim_throws_objects).
  vm_compute. reflexivity.
Defined.

(** C8 (the code at the failing input).  In [makefile_world] the run in
    workspace [/w] stops at the required gate [Tests], which failed; yet
    [allRequiredPassed] answers [true] for these results, because the
    gate list it recomputes is that of the path [''], the directory of
    the process, where nothing is detected. *)
Theorem allRequiredPassed_reads_process_directory :
  let run := runAllGates "/w" (Sim.start makefile_world) in
  exists results,
    fst run = Ok results
    /\ map (fun r => (gate r, passed r)) results
       = [("Linting", true); ("Tests", false)]
    /\ fst (detectGates "/w" (snd run)) = Ok makefile_gates
    /\ fst (detectGates "" (snd run)) = Ok []
    /\ fst (allRequiredPassed results (snd run)) = Ok true.
Proof.
  cbv zeta. eexists. split; [vm_compute; reflexivity|].
  repeat split; vm_compute; reflexivity.
Qed.

End QualityFacts.

(* ===================================================================== *)
(** * Frames for the process state                                        *)
(* ===================================================================== *)

Module StoreFacts.
Import Eff EffAccess EffFacts Store.

Section WithEnv.
Context {E : Env}.

(** ** Traces *)

(** [quiet P]: the computation adds no call that satisfies [P]. *)
Definition quiet (P : call -> bool) (s s' : sys) : Prop :=
  List.filter P (calls s') = List.filter P (calls s).

#[export] Instance quiet_preorder P : PreOrder (quiet P).
Proof.
  split; [intros s; reflexivity |].
  intros a b c Hab Hbc. unfold quiet in *. congruence.
Qed.

Lemma quiet_do_call P c : P c = false -> preserves (quiet P) (do_call c).
Proof.
  intros H s. unfold do_call, quiet.
  destruct (perform (world s) c) as [r w]. cbn.
  rewrite List.filter_app. cbn. rewrite H. apply app_nil_r.
Qed.

Lemma quiet_log_entry P level n message :
  P (LogCall level n message) = false ->
  preserves (quiet P) (log_entry level n message).
Proof.
  intros H s. unfold log_entry, quiet. cbn.
  rewrite List.filter_app. cbn. rewrite H. apply app_nil_r.
Qed.

Lemma quiet_call_listForRepo P label :
  P (ListForRepo label) = false ->
  preserves (quiet P) (call_listForRepo label).
Proof.
  intros H s. unfold call_listForRepo, quiet.
  destruct (listForRepo (world s) label) as [r w]. cbn.
  rewrite List.filter_app. cbn. rewrite H. apply app_nil_r.
Qed.

Lemma quiet_call_getIssueComments P n :
  P (ListComments n) = false ->
  preserves (quiet P) (call_getIssueComments n).
Proof.
  intros H s. unfold call_getIssueComments, quiet.
  destruct (getIssueComments (world s) n) as [r w]. cbn.
  rewrite List.filter_app. cbn. rewrite H. apply app_nil_r.
Qed.

Definition quietS (P : call -> bool) (st st' : state) : Prop :=
  quiet P (system st) (system st').

#[export] Instance quietS_preorder P : PreOrder (quietS P).
Proof.
  split; [intros s; unfold quietS; reflexivity |].
  intros a b c Hab Hbc. unfold quietS in *. etransitivity; eauto.
Qed.

Lemma quietS_in_sys P {A} (m : M sys A) :
  preserves (quiet P) m -> preserves (quietS P) (in_sys m).
Proof.
  intros H st. unfold in_sys, quietS. specialize (H (system st)).
  destruct (m (system st)) as [r s]. exact H.
Qed.

Lemma quietS_memory P (f : state -> state) :
  (forall st, system (f st) = system st) ->
  preserves (quietS P) (modify f).
Proof. intros H st. unfold quietS, modify. cbn. rewrite H. reflexivity. Qed.

Lemma quietS_alloc P o : preserves (quietS P) (alloc o).
Proof. intros st. unfold quietS, alloc. cbn. reflexivity. Qed.

Lemma quietS_read P r : preserves (quietS P) (read r).
Proof.
  intros st. unfold quietS, read. destruct (heap st !! r); reflexivity.
Qed.

Lemma quietS_update P r f : preserves (quietS P) (update r f).
Proof. intros st. unfold quietS, update, modify. cbn. reflexivity. Qed.

Lemma quietS_clock P : preserves (quietS P) clock.
Proof. intros st. unfold quietS, clock, gets. cbn. reflexivity. Qed.

(** ** Memory *)

(** A relation that looks at the memory of the process only. *)
Definition sys_blind (R : state -> state -> Prop) : Prop :=
  forall st s, R st (set_system s st).

Lemma blind_in_sys R {A} (m : M sys A) :
  sys_blind R -> preserves R (in_sys m).
Proof.
  intros H st. unfold in_sys. destruct (m (system st)) as [r s]. apply H.
Qed.

Lemma blind_read R `{!Reflexive R} r : preserves R (read r).
Proof. intros st. unfold read. destruct (heap st !! r); reflexivity. Qed.

Lemma blind_clock R `{!Reflexive R} : preserves R clock.
Proof. intros st. reflexivity. Qed.

(** A relation on one component of the memory. *)
Definition via {X} (proj : state -> X) (RX : X -> X -> Prop)
    (st st' : state) : Prop :=
  RX (proj st) (proj st').

#[export] Instance via_preorder {X} (proj : state -> X) RX `{!PreOrder RX} :
  PreOrder (via proj RX).
Proof.
  split; [intros st; unfold via; reflexivity |].
  intros a b c Hab Hbc. unfold via in *. etransitivity; eauto.
Qed.

Lemma via_in_sys {X} (proj : state -> X) RX `{!Reflexive RX} {A}
    (m : M sys A) :
  (forall st s, proj (set_system s st) = proj st) ->
  preserves (via proj RX) (in_sys m).
Proof.
  intros H. apply blind_in_sys. intros st s. unfold via. rewrite H.
  reflexivity.
Qed.

Lemma via_modify {X} (proj : state -> X) RX (f : state -> state) :
  (forall st, RX (proj st) (proj (f st))) -> preserves (via proj RX) (modify f).
Proof. intros H st. apply H. Qed.

Lemma via_alloc {X} (proj : state -> X) RX o :
  (forall st, RX (proj st) (proj (set_heap (heap st ++ [o]) st))) ->
  preserves (via proj RX) (alloc o).
Proof. intros H st. apply H. Qed.

(** ** Steps *)

Lemma wp_in_sys {A} (m : M sys A) (Q : result A -> state -> Prop) st :
  wp m (fun r s => Q r (set_system s st)) (system st) -> wp (in_sys m) Q st.
Proof.
  unfold wp, in_sys. destruct (m (system st)) as [r s]. cbn. auto.
Qed.

Lemma wp_read r (Q : result OpenCodeTaskStatus.t -> state -> Prop) st :
  match heap st !! r with
  | Some o => Q (Ok o) st
  | None => Q (Throw TypeError) st
  end -> wp (read r) Q st.
Proof. unfold wp, read. destruct (heap st !! r); auto. Qed.

Lemma wp_update r f (Q : result unit -> state -> Prop) st :
  Q (Ok tt) (set_heap (alter f r (heap st)) st) -> wp (update r f) Q st.
Proof. auto. Qed.

Lemma wp_alloc o (Q : result nat -> state -> Prop) st :
  Q (Ok (length (heap st))) (set_heap (heap st ++ [o]) st) ->
  wp (alloc o) Q st.
Proof. auto. Qed.

Lemma wp_clock (Q : result Z -> state -> Prop) st :
  Q (Ok (Date_now (world (system st)))) st -> wp clock Q st.
Proof. auto. Qed.

End WithEnv.

(** One step of a run: peel the outermost construct of the computation,
    or resolve what the previous step left. *)
Ltac wp_step :=
  lazymatch goal with
  | |- wp (@mbind _ _ _ _ _ _) _ _ => apply wp_bind
  | |- wp (try_catch _ _) _ _ => apply wp_try_catch
  | |- wp (ret _) _ _ => apply wp_ret
  | |- wp (throw _) _ _ => apply wp_throw
  | |- wp (gets _) _ _ => apply wp_gets
  | |- wp (modify _) _ _ => apply wp_modify
  | |- wp (prop _ _) _ _ => apply wp_prop
  | |- wp (do_call _) _ _ => apply wp_do_call; intros ? ? ?
  | |- wp (log_entry _ _ _) _ _ => apply wp_log_entry
  | |- wp (in_sys _) _ _ => apply wp_in_sys
  | |- wp (read _) _ _ => apply wp_read
  | |- wp (update _ _) _ _ => apply wp_update
  | |- wp (alloc _) _ _ => apply wp_alloc
  | |- wp clock _ _ => apply wp_clock
  | |- wp (when true _) _ _ => cbn [when]
  | |- wp (when false _) _ _ => cbn [when]
  | |- wp (when ?c _) _ _ => destruct c eqn:?
  | |- wp (if ?c then _ else _) _ _ => destruct c eqn:?
  | |- wp (let _ := _ in _) _ _ => cbv zeta
  | |- wp (match ?x with _ => _ end) _ _ => destruct x eqn:?
  | |- after_bind _ _ (Ok _) _ => cbn [after_bind]
  | |- after_bind _ _ (Throw _) _ => cbn [after_bind]
  | |- after_bind _ _ ?r _ => destruct r
  | |- after_try _ _ (Ok _) _ => cbn [after_try]
  | |- after_try _ _ (Throw _) _ => cbn [after_try]
  | |- after_try _ _ ?r _ => destruct r
  | |- match ?v with _ => _ end => destruct v
  end.

Ltac store_step :=
  lazymatch goal with
  | |- preserves _ (read _) => apply blind_read; apply _
  | |- preserves _ clock => apply blind_clock; apply _
  end.

(** Leaves of a frame proof for a relation on a memory component; what
    remains is the relation between the component before and after. *)
Ltac via_step :=
  lazymatch goal with
  | |- preserves (via _ _) (in_sys _) =>
      apply via_in_sys; [apply _ | intros ? ?; reflexivity]
  | |- preserves (via _ _) (update _ _) =>
      unfold update; apply via_modify; intros ?; cbn
  | |- preserves (via _ _) (modify _) => apply via_modify; intros ?; cbn
  | |- preserves (via _ _) (alloc _) => apply via_alloc; intros ?; cbn
  end.

(** Peel a computation on the process state down to its leaves. *)
Ltac frames :=
  repeat (first [frame_step | store_step | solve [eauto with frames]]).

#[export] Hint Resolve quiet_do_call quiet_log_entry quiet_call_listForRepo
  quiet_call_getIssueComments quietS_in_sys quietS_alloc quietS_read
  quietS_update quietS_clock blind_in_sys blind_read blind_clock : frames.

End StoreFacts.

(* ===================================================================== *)
(** * Theorems: src/tasks/worktree.ts and src/tasks/manager.ts            *)
(* ===================================================================== *)

Module ManagerFacts.
Import Eff EffAccess EffFacts Store StoreFacts.

(** Calls that create, resume or subscribe to a session. *)
Definition is_session_call (c : call) : bool :=
  match c with
  | CreateSession _ _ | GetSession _ | SendPromptAsync _ _
  | StreamEvents _ | SetInterval _ => true
  | _ => false
  end.

(** Subprocesses: every git operation is one. *)
Definition is_exec_call (c : call) : bool :=
  match c with
  | ExecSync _ _ => true
  | _ => false
  end.

Lemma bind_ok_inv {S A B} (m : M S A) (k : A -> M S B) s b s' :
  (m ≫= k) s = (Ok b, s') ->
  exists a s1, m s = (Ok a, s1) /\ k a s1 = (Ok b, s').
Proof.
  unfold mbind, M_bind, bind. destruct (m s) as [[a|e] s1]; intros H.
  - eauto.
  - discriminate.
Qed.

Section WithEnv.
Context {E : Env}.
Variable config : Config.t.

(** In world [w] no current branch can be resolved for the worktree of
    issue [n]: [getCurrentBranch] answers [null] or the empty string. *)
Definition resolves_no_branch (w : World) (n : Z) : Prop :=
  forall trace, exists b s',
    Worktree.getCurrentBranch config n {| world := w; calls := trace |}
    = (Ok b, s')
    /\ OpenCode.nonempty b = false.

Lemma existsSync_quiet P p :
  P (ExistsSync p) = false -> preserves (quiet P) (existsSync p).
Proof. intros H. unfold existsSync. frame. Qed.

Lemma getCurrentBranch_quiet P n :
  (forall p, P (ExistsSync p) = false) ->
  (forall cwd c, P (ExecSync cwd c) = false) ->
  (forall l i m, P (LogCall l i m) = false) ->
  preserves (quiet P) (Worktree.getCurrentBranch config n).
Proof.
  intros H1 H2 H3. unfold Worktree.getCurrentBranch, Worktree.execSync, logi.
  frame. apply existsSync_quiet, H1.
Qed.

Lemma no_human_comment issue :
  Forall (fun c => Comment.author c = GitHub.this_username config)
    (Issue.comments issue) ->
  GitHub.getLatestHumanComment config issue = None.
Proof.
  intros H. unfold GitHub.getLatestHumanComment.
  replace (List.filter _ (Issue.comments issue)) with (@nil Comment.t);
    [reflexivity |].
  induction H as [|c l Hc _ IH]; [reflexivity |].
  cbn. rewrite Hc, String.eqb_refl. cbn. exact IH.
Qed.

(** C10.  If every comment of the issue is by the orchestrator's own
    user name, or no current branch can be resolved for the issue's
    worktree, [continueBlockedTask] returns [null]; the active-task
    map, the session manager's map and every task object are left as
    they were, and no session is created, looked up, prompted or
    subscribed to. *)
Theorem continueBlockedTask_returns_null (issue : Issue.t) (st : state) :
  Forall (fun c => Comment.author c = GitHub.this_username config)
    (Issue.comments issue)
  \/ resolves_no_branch (world (system st)) (Issue.number issue) ->
  exists st',
    Manager.continueBlockedTask config issue st = (Ok None, st')
    /\ activeTasks st' = activeTasks st
    /\ tasks st' = tasks st
    /\ heap st' = heap st
    /\ List.filter is_session_call (calls (system st'))
       = List.filter is_session_call (calls (system st)).
Proof.
  intros H. unfold Manager.continueBlockedTask.
  unfold mbind at 1. unfold M_bind, bind, OpenCode.logI at 1.
  unfold in_sys at 1, logi at 1, log_entry at 1.
  destruct (GitHub.getLatestHumanComment config issue) as [c|] eqn:Hc.
  - destruct H as [H|H]; [rewrite (no_human_comment _ H) in Hc; discriminate|].
    unfold mbind at 1. unfold M_bind, bind, gets at 1.
    unfold mbind at 1. unfold M_bind, bind, in_sys at 1.
    cbn [system set_system world calls].
    destruct (H (calls (system st)
                 ++ [LogCall "info" (Some (Issue.number issue))
                       "Continuing blocked task"]))
      as (b & s' & Hb & Hn).
    rewrite Hb, Hn. cbn.
    eexists. split; [reflexivity|]. cbn. repeat split.
    rewrite List.filter_app. cbn. rewrite app_nil_r.
    pose proof (getCurrentBranch_quiet is_session_call (Issue.number issue)
                  (fun _ => eq_refl) (fun _ _ => eq_refl)
                  (fun _ _ _ => eq_refl)
                  {| world := world (system st);
                     calls := calls (system st)
                              ++ [LogCall "info" (Some (Issue.number issue))
                                    "Continuing blocked task"] |}) as Hq.
    rewrite Hb in Hq. unfold quiet in Hq. cbn in Hq. rewrite Hq.
    rewrite List.filter_app. cbn. apply app_nil_r.
  - eexists. split; [reflexivity|]. cbn. repeat split.
    rewrite !List.filter_app. cbn. now rewrite !app_nil_r.
Qed.


Lemma existsSync_answer (s : sys) (p : string) (v : JS.value) (w : World) :
  perform (world s) (ExistsSync p) = (Ok v, w) ->
  existsSync p s
  = (Ok (JS.truthy v), {| world := w; calls := calls s ++ [ExistsSync p] |}).
Proof.
  intros H. unfold existsSync, try_catch, mbind, M_bind, bind, do_call.
  rewrite H. reflexivity.
Qed.

Lemma startTask_tracks (issue : Issue.t) (st st1 : state)
    (context : TaskContext.t) :
  Manager.startTask config issue st = (Ok context, st1) ->
  activeTasks st1 !! Issue.number issue = Some context.
Proof.
  unfold Manager.startTask. intros H.
  apply bind_ok_inv in H as (existing & s0 & Hget & H).
  unfold gets in Hget. inversion Hget; subst existing s0; clear Hget.
  destruct (activeTasks st !! Issue.number issue) as [c|] eqn:Hc.
  - apply bind_ok_inv in H as ([] & s0 & Hlog & H).
    unfold ret in H. inversion H; subst.
    unfold OpenCode.logI, in_sys, logi, log_entry in Hlog.
    inversion Hlog; subst. exact Hc.
  - repeat (apply bind_ok_inv in H as (? & ? & ? & H)).
    unfold ret in H. inversion H; subst.
    match goal with
    | Hm : modify _ _ = _ |- _ => unfold modify in Hm; inversion Hm; subst
    end.
    cbn. apply lookup_insert_eq.
Qed.

Lemma startTask_again (issue : Issue.t) (st : state)
    (context : TaskContext.t) :
  activeTasks st !! Issue.number issue = Some context ->
  Manager.startTask config issue st
  = (Ok context,
     set_system
       {| world := world (system st);
          calls := calls (system st)
                   ++ [LogCall "warn" (Some (Issue.number issue))
                         "Task already in progress, skipping duplicate start"] |}
       st).
Proof.
  intros H. unfold Manager.startTask.
  unfold mbind at 1. unfold M_bind, bind, gets at 1. rewrite H.
  reflexivity.
Qed.

(** C5.  Once [startTask] has returned a Task for an issue, then for as
    long as that Task is in the active map a further [startTask] for
    the same issue returns that very Task: no object, map or world is
    changed and the only call made is the warning of the duplicate
    start, so no second session and no second worktree are created.
    And [createWorktree] for an issue whose worktree directory exists
    returns its path after the two existence checks, without running
    any subprocess. *)
Theorem second_start_reuses_task_and_workspace
    (issue : Issue.t) (st st1 : state) (context : TaskContext.t)
    (s : sys) (branchName : string) (d v : JS.value) (w1 w2 : World) :
  let worktreePath := Config.getWorktreePath config (Issue.number issue) in
  Manager.startTask config issue st = (Ok context, st1) ->
  perform (world s) (ExistsSync (JS.dirname worktreePath)) = (Ok d, w1) ->
  JS.truthy d = true ->
  perform w1 (ExistsSync worktreePath) = (Ok v, w2) ->
  JS.truthy v = true ->
  activeTasks st1 !! Issue.number issue = Some context
  /\ (forall st2,
        activeTasks st2 !! Issue.number issue = Some context ->
        exists st3,
          Manager.startTask config issue st2 = (Ok context, st3)
          /\ heap st3 = heap st2
          /\ tasks st3 = tasks st2
          /\ activeTasks st3 = activeTasks st2
          /\ world (system st3) = world (system st2)
          /\ calls (system st3)
             = calls (system st2)
               ++ [LogCall "warn" (Some (Issue.number issue))
                     "Task already in progress, skipping duplicate start"])
  /\ Worktree.createWorktree config (Issue.number issue) branchName s
     = (Ok worktreePath,
        {| world := w2;
           calls := calls s
                    ++ [ExistsSync (JS.dirname worktreePath);
                        ExistsSync worktreePath;
                        LogCall "info" (Some (Issue.number issue))
                          "Worktree already exists"] |}).
Proof.
  intros worktreePath Hstart Hd Hdt Hv Hvt. split; [|split].
  - exact (startTask_tracks _ _ _ _ Hstart).
  - intros st2 H2. eexists. split; [apply (startTask_again _ _ _ H2)|].
    cbn. repeat split.
  - unfold Worktree.createWorktree. fold worktreePath.
    clearbody worktreePath.
    rewrite (fst_bind_ok _ _ _ _ _ (existsSync_answer _ _ _ _ Hd)).
    rewrite Hdt. cbn [negb when].
    rewrite (fst_bind_ok (ret tt) _ _ tt _ eq_refl).
    erewrite fst_bind_ok; [|apply existsSync_answer; exact Hv].
    rewrite Hvt. unfold logi, log_entry, mbind, M_bind, bind, ret. cbn.
    now rewrite <- !app_assoc.
Qed.

End WithEnv.

#[local] Existing Instance Sim.env.

(** Issue 7 carries a reply by a human, but no worktree directory exists
    for it. *)
Definition replied_issue : Issue.t :=
  {| Issue.number := 7; Issue.title := "Fix the parser";
     Issue.body := ""; Issue.labels := ["ai-blocked"];
     Issue.comments :=
       [{| Comment.id := 1; Comment.body := "Blocked: which grammar?";
           Comment.author := "orchestrator-bot"; Comment.createdAt := 10 |};
        {| Comment.id := 2; Comment.body := "Use the v2 grammar.";
           Comment.author := "alice"; Comment.createdAt := 20 |}];
     Issue.createdAt := 1; Issue.updatedAt := 20; Issue.author := None |}.

Lemma continueBlockedTask_returns_null_witness :
  exists st',
    Manager.continueBlockedTask Sim.config replied_issue
      (Sim.boot Sim.empty) = (Ok None, st')
    /\ activeTasks st' = activeTasks (Sim.boot Sim.empty)
    /\ tasks st' = tasks (Sim.boot Sim.empty)
    /\ heap st' = heap (Sim.boot Sim.empty)
    /\ List.filter is_session_call (calls (system st'))
       = List.filter is_session_call
           (calls (system (Sim.boot Sim.empty))).
Proof.
  apply (continueBlockedTask_returns_null (E := Sim.env) Sim.config replied_issue
           (Sim.boot Sim.empty)).
  right. intros trace. eexists _, _. split; reflexivity.
Defined.

(** The repository directory, its worktree directory and the worktree of
    issue 7 exist. *)
Definition provisioned_world : Sim.world :=
  {| Sim.files := [];
     Sim.dirs := ["/repo"; "/repo/.worktrees"; "/repo/.worktrees/issue-7"];
     Sim.failing := []; Sim.branch := "ai/issue-7-task"; Sim.now := 5;
     Sim.absent_labels := []; Sim.listing := []; Sim.comments := [];
     Sim.sessions := []; Sim.status := JS.Obj [];
     Sim.next_session := "ses_1" |}.

Definition first_start :=
  Manager.startTask Sim.config replied_issue
    (Sim.boot provisioned_world).

Definition first_context : TaskContext.t :=
  {| TaskContext.issueNumber := 7;
     TaskContext.issue := replied_issue;
     TaskContext.branchName := "ai/issue-7-task";
     TaskContext.worktreePath := "/repo/.worktrees/issue-7";
     TaskContext.phase := TaskContext.analysis;
     TaskContext.startedAt := 5;
     TaskContext.sessionId := Some "ses_1";
     TaskContext.process := Some 0%nat |}.

Lemma second_start_reuses_task_and_workspace_witness :
  fst (Manager.startTask Sim.config replied_issue (snd first_start))
  = Ok first_context
  /\ Worktree.createWorktree Sim.config 7 "ai/issue-7-task"
       (Sim.start provisioned_world)
     = (Ok "/repo/.worktrees/issue-7",
        {| world := provisioned_world;
           calls := [ExistsSync "/repo/.worktrees";
                     ExistsSync "/repo/.worktrees/issue-7";
                     LogCall "info" (Some 7) "Worktree already exists"] |}).
Proof.
  assert (Hfirst : first_start = (Ok first_context, snd first_start))
    by (vm_compute; reflexivity).
  destruct (second_start_reuses_task_and_workspace (E := Sim.env)
              Sim.config replied_issue
              (Sim.boot provisioned_world) (snd first_start)
              first_context (Sim.start provisioned_world) "ai/issue-7-task"
              (JS.Bool true) (JS.Bool true)
              provisioned_world provisioned_world
              Hfirst eq_refl eq_refl eq_refl eq_refl)
    as (Htracked & Hagain & Hreuse).
  split.
  - destruct (Hagain (snd first_start) Htracked) as (st3 & Hst3 & _).
    now rewrite Hst3.
  - exact Hreuse.
Defined.

End ManagerFacts.

(* ===================================================================== *)
(** * Theorems: src/tasks/opencode.ts                                     *)
(* ===================================================================== *)

Module OpenCodeFacts.
Import Eff EffAccess EffFacts Store StoreFacts.

(** The three steps of the recovery sequence, as calls on the tracker. *)
Definition is_label_removal (c : call) : bool :=
  match c with
  | RemoveLabel _ l => String.eqb l Labels.AI_IN_PROGRESS
  | _ => false
  end.

Definition is_label_restore (c : call) : bool :=
  match c with
  | AddLabels _ l => String.eqb l Labels.AI_TASK
  | _ => false
  end.

Definition is_comment (c : call) : bool :=
  match c with
  | CreateComment _ _ => true
  | _ => false
  end.

(** Any call that changes the tracker. *)
Definition is_tracker_write (c : call) : bool :=
  match c with
  | RemoveLabel _ _ | AddLabels _ _ | CreateComment _ _ => true
  | _ => false
  end.

Section WithEnv.
Context {E : Env}.

Definition writes (st : state) : list call :=
  List.filter is_tracker_write (calls (system st)).

(** How many calls of a kind the process has made so far. *)
Definition tally (P : call -> bool) (st : state) : nat :=
  length (List.filter P (calls (system st))).

(** The error-handled flag of the task object behind a reference. *)
Definition flagged (task : nat) (st : state) : bool :=
  match heap st !! task with
  | Some o => OpenCodeTaskStatus.errorHandled o
  | None => false
  end.

(** Nothing in the memory of the process changed. *)
Definition memory_kept (st st' : state) : Prop :=
  heap st' = heap st /\ tasks st' = tasks st
  /\ activeTasks st' = activeTasks st.

#[export] Instance memory_kept_preorder : PreOrder memory_kept.
Proof.
  split; [intros st; repeat split |].
  intros a b c (H1 & H2 & H3) (H4 & H5 & H6). repeat split; congruence.
Qed.

Lemma memory_kept_blind : sys_blind memory_kept.
Proof. intros st s. repeat split. Qed.

Lemma filter_snoc (P : call -> bool) (l : list call) (c : call) :
  List.filter P (l ++ [c]) = List.filter P l ++ (if P c then [c] else []).
Proof. rewrite List.filter_app. cbn. now destruct (P c). Qed.

(** The recovery sequence: it returns normally whatever the tracker
    answers, touches no memory, and on the tracker it removes the
    in-progress label, restores the ready label and then posts at most one
    comment. *)
Lemma handleSessionError_trace (issueNumber : Z) (error : JS.value)
    (shareLink : option string) (st : state) :
  exists s' posted,
    OpenCode.handleSessionError issueNumber error shareLink st
    = (Ok tt, set_system s' st)
    /\ List.filter is_tracker_write (calls s')
       = writes st
         ++ RemoveLabel issueNumber Labels.AI_IN_PROGRESS
            :: AddLabels issueNumber Labels.AI_TASK :: posted
    /\ (posted = [] \/ exists body, posted = [CreateComment issueNumber body]).
Proof.
  assert (H : wp (OpenCode.handleSessionError issueNumber error shareLink)
                (fun r st' =>
                   exists s' posted,
                     (r, st') = (Ok tt, set_system s' st)
                     /\ List.filter is_tracker_write (calls s')
                        = writes st
                          ++ RemoveLabel issueNumber Labels.AI_IN_PROGRESS
                             :: AddLabels issueNumber Labels.AI_TASK :: posted
                     /\ (posted = []
                         \/ exists body,
                              posted = [CreateComment issueNumber body])) st).
  { unfold OpenCode.handleSessionError, OpenCode.logI, GitHub.removeLabel,
      GitHub.addLabel, GitHub.postComment, logi.
    destruct st as [[w tr] hp tk act].
    repeat (wp_step; cbn [system set_system calls world heap tasks activeTasks]).
    all: eexists _, _; split; [reflexivity |]; split;
      [ unfold writes; cbn [system calls]; rewrite !filter_snoc;
        cbn [is_tracker_write]; rewrite <- ?app_assoc; cbn [app];
        rewrite ?app_nil_r; reflexivity
      | first [left; reflexivity | right; eexists; reflexivity] ]. }
  unfold wp in H. destruct (OpenCode.handleSessionError _ _ _ st). exact H.
Qed.


Lemma handleSessionError_memory issueNumber error shareLink :
  preserves memory_kept
    (OpenCode.handleSessionError issueNumber error shareLink).
Proof.
  intros st.
  destruct (handleSessionError_trace issueNumber error shareLink st)
    as (s' & posted & Hrun & _).
  rewrite Hrun. apply memory_kept_blind.
Qed.

(** ** At most one recovery per task *)

(** The three kinds of call the recovery sequence makes. *)
Definition recovery_kind (P : call -> bool) : Prop :=
  P = is_label_removal \/ P = is_label_restore \/ P = is_comment.

Lemma recovery_kind_write P c :
  recovery_kind P -> P c = true -> is_tracker_write c = true.
Proof. intros [->|[->| ->]]; destruct c; cbn; congruence. Qed.

Lemma filter_of_writes P (l : list call) :
  recovery_kind P ->
  List.filter P (List.filter is_tracker_write l) = List.filter P l.
Proof.
  intros HP. induction l as [|c l IH]; [reflexivity |]. cbn.
  destruct (is_tracker_write c) eqn:Hw; cbn.
  - now rewrite IH.
  - destruct (P c) eqn:Hc; [| exact IH].
    rewrite (recovery_kind_write P c HP Hc) in Hw. discriminate.
Qed.

Lemma handleSessionError_bound P issueNumber error shareLink st :
  recovery_kind P ->
  let st' := snd (OpenCode.handleSessionError issueNumber error shareLink st) in
  (tally P st <= tally P st' <= tally P st + 1)%nat.
Proof.
  intros HP.
  destruct (handleSessionError_trace issueNumber error shareLink st)
    as (s' & posted & Hrun & Hw & Hposted).
  rewrite Hrun. cbn. unfold tally. cbn [system set_system].
  rewrite <- (filter_of_writes P (calls s') HP), Hw.
  unfold writes. rewrite List.filter_app, (filter_of_writes P _ HP).
  rewrite length_app.
  destruct HP as [->|[->| ->]];
    destruct Hposted as [->|[body ->]]; cbn; lia.
Qed.

(** [guard task P]: along the step, the flag of [task] never falls, no
    call of kind [P] is made once the flag is set, and at most one is made
    before, in which case the flag is set afterwards. *)
Definition guard (task : nat) (P : call -> bool) (st st' : state) : Prop :=
  (flagged task st = true ->
   flagged task st' = true /\ tally P st' = tally P st)
  /\ (flagged task st = false ->
      tally P st' = tally P st
      \/ (flagged task st' = true
          /\ (tally P st <= tally P st' <= tally P st + 1)%nat)).

#[export] Instance guard_preorder task P : PreOrder (guard task P).
Proof.
  split.
  - intros st. split; auto.
  - intros a b c [Hab1 Hab0] [Hbc1 Hbc0]. split.
    + intros Ha. destruct (Hab1 Ha) as [Hb Hn].
      destruct (Hbc1 Hb) as [Hc Hm]. split; [assumption | congruence].
    + intros Ha. destruct (Hab0 Ha) as [Hn|[Hb Hn]].
      * destruct (flagged task b) eqn:Hb.
        -- destruct (Hbc1 eq_refl) as [Hc Hm]. left. congruence.
        -- destruct (Hbc0 eq_refl) as [Hm|[Hc Hm]];
             [left; congruence | right; split; [assumption | lia]].
      * destruct (Hbc1 Hb) as [Hc Hm]. right. split; [assumption | lia].
Qed.

(** A step that leaves the flag and the tally alone keeps the guard. *)
Lemma guard_untouched task P st st' :
  flagged task st' = flagged task st -> tally P st' = tally P st ->
  guard task P st st'.
Proof. intros Hf Ht. split; intros H; [split|left]; congruence. Qed.

Lemma guard_in_sys task P {A} (m : M sys A) :
  preserves (quiet P) m -> preserves (guard task P) (in_sys m).
Proof.
  intros Hm st. unfold in_sys. specialize (Hm (system st)).
  destruct (m (system st)) as [r s]. cbn in *.
  apply guard_untouched; [reflexivity |].
  unfold tally. cbn. unfold quiet in Hm. now rewrite Hm.
Qed.

Lemma flagged_alter task r f (st : state) :
  (forall o, OpenCodeTaskStatus.errorHandled (f o)
             = OpenCodeTaskStatus.errorHandled o) ->
  flagged task (set_heap (alter f r (heap st)) st) = flagged task st.
Proof.
  intros Hf. unfold flagged. cbn.
  destruct (decide (r = task)) as [->|Hne].
  - rewrite list_lookup_alter_eq. destruct (heap st !! task); cbn; auto.
  - now rewrite list_lookup_alter_ne.
Qed.

Lemma guard_update task P r f :
  (forall o, OpenCodeTaskStatus.errorHandled (f o)
             = OpenCodeTaskStatus.errorHandled o) ->
  preserves (guard task P) (update r f).
Proof.
  intros Hf st. unfold update, modify. cbn.
  apply guard_untouched; [now apply flagged_alter | reflexivity].
Qed.

Lemma guard_modify task P (f : state -> state) :
  (forall st, heap (f st) = heap st) ->
  (forall st, system (f st) = system st) ->
  preserves (guard task P) (modify f).
Proof.
  intros Hh Hs st. unfold modify. cbn. apply guard_untouched.
  - unfold flagged. now rewrite Hh.
  - unfold tally. now rewrite Hs.
Qed.

(** Reading the object whose flag a guard is about to test. *)
Definition preserves_from {A} (I : state -> Prop) (R : state -> state -> Prop)
    (m : M state A) : Prop :=
  forall st, I st -> R st (snd (m st)).

Lemma from_weaken {A} I R (m : M state A) :
  preserves R m -> preserves_from I R m.
Proof. intros H st _. apply H. Qed.

Lemma from_bind {A B} I R `{!PreOrder R} (m : M state A) (k : A -> M state B) :
  preserves_from I R m -> (forall a, preserves R (k a)) ->
  preserves_from I R (m ≫= k).
Proof.
  intros Hm Hk st HI. unfold mbind, M_bind, bind.
  specialize (Hm st HI). destruct (m st) as [[a|e] s1]; cbn in *.
  - etransitivity; [exact Hm | apply Hk].
  - exact Hm.
Qed.

Lemma preserves_read_bind {B} R `{!PreOrder R} r
    (k : OpenCodeTaskStatus.t -> M state B) :
  (forall o, preserves_from (fun st => heap st !! r = Some o) R (k o)) ->
  preserves R (read r ≫= k).
Proof.
  intros Hk st. unfold mbind, M_bind, bind, read.
  destruct (heap st !! r) as [o|] eqn:Ho; cbn.
  - now apply Hk.
  - reflexivity.
Qed.

(** The guarded block: set the flag, then run something that touches no
    memory and makes at most one call of kind [P]. *)
Lemma guarded_recovery task P o (c : bool) (rest : M state unit) :
  (forall st, memory_kept st (snd (rest st))
              /\ (tally P st <= tally P (snd (rest st)) <= tally P st + 1)%nat) ->
  preserves_from (fun st => heap st !! task = Some o) (guard task P)
    (when (c && negb (OpenCodeTaskStatus.errorHandled o))
       (update task (OpenCodeTaskStatus.set_errorHandled true);; rest)).
Proof.
  intros Hrest st Ho.
  destruct c; cbn [andb when]; [| reflexivity].
  destruct (OpenCodeTaskStatus.errorHandled o) eqn:He; cbn [negb when];
    [reflexivity |].
  unfold mbind, M_bind, bind, update, modify. cbn.
  set (st1 := set_heap _ st).
  destruct (Hrest st1) as ((Hh & _ & _) & Hn).
  assert (Hflag : flagged task (snd (rest st1)) = true).
  { unfold flagged. rewrite Hh. subst st1. cbn.
    rewrite list_lookup_alter_eq, Ho. reflexivity. }
  assert (Ht : tally P st1 = tally P st) by reflexivity.
  split; intros Hf.
  - unfold flagged in Hf. rewrite Ho in Hf. congruence.
  - right. split; [exact Hflag | lia].
Qed.

Lemma recovery_block P issueNumber error shareLink :
  recovery_kind P ->
  forall st,
    memory_kept st
      (snd (OpenCode.handleSessionError issueNumber error shareLink st))
    /\ (tally P st
        <= tally P (snd (OpenCode.handleSessionError issueNumber error
                           shareLink st))
        <= tally P st + 1)%nat.
Proof.
  intros HP st. split.
  - apply handleSessionError_memory.
  - now apply handleSessionError_bound.
Qed.

Lemma logged_recovery_block P level message issueNumber error shareLink :
  recovery_kind P ->
  forall st,
    let m := (OpenCode.logI level issueNumber message;;
              OpenCode.handleSessionError issueNumber error shareLink) in
    memory_kept st (snd (m st))
    /\ (tally P st <= tally P (snd (m st)) <= tally P st + 1)%nat.
Proof.
  intros HP st m. subst m.
  unfold mbind, M_bind, bind, OpenCode.logI, in_sys, logi, log_entry. cbn.
  set (st1 := set_system _ st).
  destruct (recovery_block P issueNumber error shareLink HP st1) as [Hm Hn].
  assert (Ht : tally P st1 = tally P st).
  { unfold tally. subst st1. cbn. rewrite filter_snoc.
    destruct HP as [->|[->| ->]]; cbn; now rewrite app_nil_r. }
  split.
  - destruct Hm as (H1 & H2 & H3). repeat split; assumption.
  - lia.
Qed.

Ltac guard_step :=
  lazymatch goal with
  | |- preserves (guard _ _) (in_sys _) => apply guard_in_sys
  | |- preserves (guard _ _) (update _ _) =>
      apply guard_update; intros ?; reflexivity
  | |- preserves (guard _ _) (modify _) =>
      apply guard_modify; intros ?; reflexivity
  | |- preserves (quietS _) (in_sys _) => apply quietS_in_sys
  end.

Ltac guards :=
  repeat (first [frame_step | store_step | guard_step
                | solve [eauto with frames]]).

Lemma handle_idle_guard task P issueNumber event :
  recovery_kind P ->
  preserves (guard task P)
    (OpenCode.handle_idle (Some Manager.onTaskComplete) task issueNumber
       event).
Proof.
  intros HP. unfold OpenCode.handle_idle.
  apply preserves_read_bind; [apply _ |]. intros o. apply from_weaken.
  apply preserves_when; [apply _ |].
  apply preserves_bind; [apply _ | store_step |]. intros now. cbv zeta.
  apply preserves_bind; [apply _ | |]; [| intros _].
  { unfold OpenCode.logI, logi.
    destruct HP as [->|[->| ->]]; guards. }
  apply preserves_read_bind; [apply _ |]. intros o1.
  apply from_bind; [apply _ | |]; [| intros _].
  { apply guarded_recovery. now apply logged_recovery_block. }
  apply preserves_bind; [apply _ | store_step |]. intros o2.
  apply preserves_bind; [apply _ | |]; [| intros _].
  { unfold OpenCode.logI, logi.
    destruct HP as [->|[->| ->]]; guards. }
  apply preserves_read_bind; [apply _ |]. intros o3.
  apply from_bind; [apply _ | |]; [| intros _].
  { apply guarded_recovery. now apply recovery_block. }
  unfold OpenCode.logI, logi, OpenCode.signal_call, Manager.onTaskComplete,
    OpenCode.logI, logi.
  destruct HP as [->|[->| ->]]; guards.
Qed.

Lemma handle_session_status_guard task P issueNumber event :
  recovery_kind P ->
  preserves (guard task P)
    (OpenCode.handle_session_status task issueNumber event).
Proof.
  intros HP. unfold OpenCode.handle_session_status. cbv zeta.
  apply preserves_when; [apply _ |].
  apply preserves_read_bind; [apply _ |]. intros o.
  apply (guarded_recovery task P o true). now apply logged_recovery_block.
Qed.

Lemma handleEvent_guard task P event :
  recovery_kind P ->
  preserves (guard task P)
    (OpenCode.handleEvent (Some Manager.onTaskComplete) task event).
Proof.
  intros HP. unfold OpenCode.handleEvent.
  pose proof (handle_idle_guard task P) as Hidle.
  pose proof (handle_session_status_guard task P) as Hstatus.
  unfold OpenCode.handle_message_updated, OpenCode.handle_part,
    OpenCode.handle_tui, OpenCode.handle_other, OpenCode.logI, logi.
  destruct HP as [->|[->| ->]]; guards;
    first [apply Hidle | apply Hstatus]; unfold recovery_kind; auto.
Qed.

Lemma checkSessionStatus_guard task P task' :
  recovery_kind P ->
  preserves (guard task P) (OpenCode.checkSessionStatus task').
Proof.
  intros HP. unfold OpenCode.checkSessionStatus, OpenCode.logI, logi.
  destruct HP as [->|[->| ->]]; guards.
Qed.

(** ** What a terminal idle event is taken for *)

(** The four log lines by which the handler states its verdict. *)
Definition immediate_failure (n : Z) : call :=
  LogCall "error" (Some n)
    "Session failed immediately - likely model/config issue".
Definition idle_very_quickly (n : Z) : call :=
  LogCall "warn" (Some n)
    "Session went idle very quickly - may not have completed work".
Definition ended_failed (n : Z) : call :=
  LogCall "info" (Some n) "OpenCode session ended (Failed)".
Definition task_complete (n : Z) : call :=
  LogCall "info" (Some n) "OpenCode session idle - Task Complete".

Definition is_verdict_line (c : call) : bool :=
  match c with
  | LogCall _ _ message =>
      String.eqb message
        "Session failed immediately - likely model/config issue"
      || String.eqb message
           "Session went idle very quickly - may not have completed work"
      || String.eqb message "OpenCode session ended (Failed)"
      || String.eqb message "OpenCode session idle - Task Complete"
  | _ => false
  end.

Definition verdict (st : state) : list call :=
  List.filter is_verdict_line (calls (system st)).

(** The verdict as a function of the elapsed duration and of whether the
    event carries an error. *)
Definition idle_verdict (n : Z) (d : Z) (has_error : bool) : list call :=
  (if d <? 1000 then [immediate_failure n]
   else if d <? 60000 then [idle_very_quickly n]
   else [])
  ++ [if has_error || (d <? 1000) then ended_failed n else task_complete n].

Lemma handleSessionError_run issueNumber error shareLink (st : state)
    (Q : result unit -> state -> Prop) :
  (forall s',
     List.filter is_verdict_line (calls s')
     = List.filter is_verdict_line (calls (system st)) ->
     (exists posted,
        List.filter is_tracker_write (calls s')
        = writes st
          ++ RemoveLabel issueNumber Labels.AI_IN_PROGRESS
             :: AddLabels issueNumber Labels.AI_TASK :: posted) ->
     Q (Ok tt) (set_system s' st)) ->
  wp (OpenCode.handleSessionError issueNumber error shareLink) Q st.
Proof.
  intros HQ. unfold wp.
  destruct (handleSessionError_trace issueNumber error shareLink st)
    as (s' & posted & Hrun & Hw & _).
  assert (Hq : preserves (quietS is_verdict_line)
                 (OpenCode.handleSessionError issueNumber error shareLink)).
  { unfold OpenCode.handleSessionError, OpenCode.logI, logi,
      GitHub.removeLabel, GitHub.addLabel, GitHub.postComment, logi.
    guards. }
  specialize (Hq st). rewrite Hrun in *. cbn in *.
  apply HQ; [exact Hq | eauto].
Qed.

Lemma signal_call_run c (st : state) (Q : result unit -> state -> Prop) :
  (forall w, Q (Ok tt)
               (set_system {| world := w;
                              calls := calls (system st) ++ [c] |} st)) ->
  wp (OpenCode.signal_call c) Q st.
Proof.
  intros HQ. unfold wp, OpenCode.signal_call, in_sys, try_catch, mbind,
    M_bind, bind, do_call, ret.
  destruct (perform (world (system st)) c) as [[v|e] w]; cbn; apply HQ.
Qed.

Ltac eval_closed :=
  repeat match goal with
         | |- context [String.eqb ?a ?b] =>
             let v := eval vm_compute in (String.eqb a b) in
             lazymatch v with
             | true => change (String.eqb a b) with true
             | false => change (String.eqb a b) with false
             end
         | |- context [JS.startsWith ?a ?b] =>
             let v := eval vm_compute in (JS.startsWith a b) in
             lazymatch v with
             | true => change (JS.startsWith a b) with true
             | false => change (JS.startsWith a b) with false
             end
         end.


Ltac normalize_state :=
  unfold set_system, set_heap, set_tasks, set_activeTasks;
  cbn [after_bind after_try system calls world heap tasks activeTasks
         OpenCodeTaskStatus.sessionId OpenCodeTaskStatus.issueNumber
         OpenCodeTaskStatus.startedAt OpenCodeTaskStatus.shareLink
         OpenCodeTaskStatus.eventSource OpenCodeTaskStatus.lastActivity
         OpenCodeTaskStatus.currentMessageBuffer
         OpenCodeTaskStatus.statusCheckInterval
         OpenCodeTaskStatus.lastTuiPopup OpenCodeTaskStatus.errorHandled
         OpenCodeTaskStatus.set_lastActivity
         OpenCodeTaskStatus.set_errorHandled
         OpenCodeTaskStatus.set_currentMessageBuffer].

Ltac run_step Ho :=
  first
    [ lazymatch goal with
      | |- wp (OpenCode.handleSessionError _ _ _) _ _ =>
          apply handleSessionError_run;
          unfold writes; normalize_state; intros ? ? ?
      | |- wp (OpenCode.signal_call _) _ _ =>
          apply signal_call_run; intros ?
      | |- wp (read _) _ _ =>
          apply wp_read; normalize_state;
          rewrite ?list_lookup_alter_eq, Ho;
          cbn [fmap option_fmap option_map]
      end
    | wp_step ];
  normalize_state.

Lemma idle_run (task : nat) (st : state) (o : OpenCodeTaskStatus.t)
    (event : JS.value) :
  heap st !! task = Some o ->
  OpenCode.event_type event = "session.idle" ->
  JS.is_str (JS.or (JS.get "sessionID" event)
               (JS.get "sessionID" (JS.get "properties" event)))
    (OpenCodeTaskStatus.sessionId o) = true ->
  let d := Date_now (world (system st)) - OpenCodeTaskStatus.startedAt o in
  let has_error := JS.truthy (JS.get "error" event) in
  let n := OpenCodeTaskStatus.issueNumber o in
  let st' := snd (OpenCode.handleEvent (Some Manager.onTaskComplete) task event st) in
  verdict st' = verdict st ++ idle_verdict n d has_error
  /\ flagged task st'
     = OpenCodeTaskStatus.errorHandled o || has_error || (d <? 1000)
  /\ (if OpenCodeTaskStatus.errorHandled o || negb (has_error || (d <? 1000))
      then writes st' = writes st
      else exists posted,
             writes st'
             = writes st ++ RemoveLabel n Labels.AI_IN_PROGRESS
                           :: AddLabels n Labels.AI_TASK :: posted).
Proof.
  intros Ho Htype Hsid d has_error n st'.
  subst st'.
  match goal with
  | |- ?G =>
      let Q := constr:(fun (_ : result unit) (st' : state) =>
        verdict st' = verdict st ++ idle_verdict n d has_error
        /\ flagged task st'
           = OpenCodeTaskStatus.errorHandled o || has_error || (d <? 1000)
        /\ (if OpenCodeTaskStatus.errorHandled o || negb (has_error || (d <? 1000))
            then writes st' = writes st
            else exists posted,
                 writes st'
                 = writes st ++ RemoveLabel n Labels.AI_IN_PROGRESS
                               :: AddLabels n Labels.AI_TASK :: posted)) in
      change (wp (OpenCode.handleEvent (Some Manager.onTaskComplete) task event) Q st)
  end.
  subst d has_error n.
  unfold OpenCode.handleEvent. cbv zeta. rewrite Htype. eval_closed.
  cbn [orb when].
  destruct st as [[w tr] hp tk act].
  destruct o as [sid num started link es la buf sci popup flag].
  cbn in Ho, Hsid.
  cbn [system world OpenCodeTaskStatus.startedAt
         OpenCodeTaskStatus.issueNumber OpenCodeTaskStatus.errorHandled] in *.
  unfold OpenCode.handle_idle, OpenCode.logI, logi, Manager.onTaskComplete,
    OpenCode.logI, logi, OpenCode.IMMEDIATE_FAILURE_MS,
    OpenCode.MIN_SESSION_DURATION_MS.
  repeat (run_step Ho; rewrite ?Hsid; cbn [andb orb negb when]).
  all: cbn [andb orb negb] in *; try discriminate.
  all: repeat match goal with
              | H : exists _, _ |- _ => destruct H
              end.
  all: destruct flag; destruct (JS.truthy (JS.get "error" event));
       cbn [andb orb negb] in *; try discriminate.
  all: unfold verdict, idle_verdict, flagged, writes; normalize_state.
  all: repeat match goal with
              | H : (_ <? _) = _ |- _ => rewrite ?H; clear H
              end.
  all: cbn [andb orb negb].
  all: split; [| split; [| try eexists]].
  all: rewrite ?list_lookup_alter_eq, ?Ho;
       cbn [fmap option_fmap option_map]; normalize_state.
  all: rewrite ?filter_snoc, ?List.filter_app in *.
  all: repeat match goal with
              | H : List.filter ?P (calls ?s) = _
                |- context [List.filter ?P (calls ?s)] =>
                  rewrite H; rewrite ?filter_snoc, ?List.filter_app
              end.
  all: cbn [is_verdict_line is_tracker_write]; eval_closed;
       cbn [orb andb negb app]; rewrite ?app_nil_r.
  all: unfold immediate_failure, idle_very_quickly, ended_failed,
         task_complete.
  all: rewrite <- ?app_assoc; cbn [app]; try reflexivity.
Qed.

(** C2.  For a [session.idle] event whose session id is the task's own,
    the verdict the handler logs is [idle_verdict] of the elapsed duration
    [d] since the task started and of whether the event carries an error,
    and of nothing else.  If [d < 1000] the session is taken to have
    failed immediately (configuration or validation failure) and the task
    ends up handled; if [1000 <= d < 60000] without an error the idle is
    logged as suspiciously quick and nothing is recovered; if
    [d >= 60000] without an error the task is complete and nothing is
    recovered; with an error, whatever [d] is, the session has failed and
    the task ends up handled.  In the failure cases the recovery sequence
    runs unless the task's error had been handled before. *)
Theorem idle_classification (task : nat) (st : state)
    (o : OpenCodeTaskStatus.t) (event : JS.value) :
  heap st !! task = Some o ->
  OpenCode.event_type event = "session.idle" ->
  JS.is_str (JS.or (JS.get "sessionID" event)
               (JS.get "sessionID" (JS.get "properties" event)))
    (OpenCodeTaskStatus.sessionId o) = true ->
  let d := Date_now (world (system st)) - OpenCodeTaskStatus.startedAt o in
  let has_error := JS.truthy (JS.get "error" event) in
  let n := OpenCodeTaskStatus.issueNumber o in
  let st' :=
    snd (OpenCode.handleEvent (Some Manager.onTaskComplete) task event st) in
  let recovered :=
    exists posted,
      writes st' = writes st ++ RemoveLabel n Labels.AI_IN_PROGRESS
                               :: AddLabels n Labels.AI_TASK :: posted in
  verdict st' = verdict st ++ idle_verdict n d has_error
  /\ (d < 1000 ->
      idle_verdict n d has_error = [immediate_failure n; ended_failed n]
      /\ flagged task st' = true
      /\ (OpenCodeTaskStatus.errorHandled o = false -> recovered))
  /\ (1000 <= d < 60000 -> has_error = false ->
      idle_verdict n d has_error = [idle_very_quickly n; task_complete n]
      /\ writes st' = writes st
      /\ flagged task st' = OpenCodeTaskStatus.errorHandled o)
  /\ (60000 <= d -> has_error = false ->
      idle_verdict n d has_error = [task_complete n]
      /\ writes st' = writes st
      /\ flagged task st' = OpenCodeTaskStatus.errorHandled o)
  /\ (has_error = true ->
      last (idle_verdict n d has_error) = Some (ended_failed n)
      /\ flagged task st' = true
      /\ (OpenCodeTaskStatus.errorHandled o = false -> recovered)).
Proof.
  intros Ho Htype Hsid d has_error n st' recovered.
  destruct (idle_run task st o event Ho Htype Hsid) as (Hv & Hf & Hw).
  fold d has_error n st' in Hv, Hf, Hw.
  split; [exact Hv |]. unfold idle_verdict.
  split; [| split; [| split]].
  - intros Hd. apply Z.ltb_lt in Hd. rewrite Hd in *.
    rewrite orb_true_r in *. cbn [app]. repeat split; auto.
    intros He. rewrite He in Hw. exact Hw.
  - intros [Hlo Hhi] He.
    assert (H1 : (d <? 1000) = false) by (apply Z.ltb_ge; lia).
    assert (H2 : (d <? 60000) = true) by (apply Z.ltb_lt; lia).
    rewrite H1, H2, He in *. cbn in *.
    rewrite !orb_false_r in Hf. rewrite orb_true_r in Hw.
    repeat split; assumption.
  - intros Hlo He.
    assert (H1 : (d <? 1000) = false) by (apply Z.ltb_ge; lia).
    assert (H2 : (d <? 60000) = false) by (apply Z.ltb_ge; lia).
    rewrite H1, H2, He in *. cbn in *.
    rewrite !orb_false_r in Hf. rewrite orb_true_r in Hw.
    repeat split; assumption.
  - intros He. rewrite He in *. cbn [orb] in *.
    rewrite orb_true_r in Hf. repeat split.
    + destruct (d <? 1000); [reflexivity |].
      destruct (d <? 60000); reflexivity.
    + destruct (d <? 1000); exact Hf.
    + intros Hh. rewrite Hh in Hw. exact Hw.
Qed.

(** ** The status poll *)

Lemma checkSessionStatus_memory task :
  preserves memory_kept (OpenCode.checkSessionStatus task).
Proof.
  pose proof memory_kept_blind.
  unfold OpenCode.checkSessionStatus, OpenCode.logI. frames.
Qed.

Lemma checkSessionStatus_no_write task :
  preserves (quietS is_tracker_write) (OpenCode.checkSessionStatus task).
Proof.
  unfold OpenCode.checkSessionStatus, OpenCode.logI, logi. frames.
Qed.

Definition poll_warning (issueNumber : Z) : call :=
  LogCall "warn" (Some issueNumber)
    "Session status check detected error/blocked state".

(** C3 (amended).  When the status poll finds the task's session in
    state error or blocked, it logs a warning and does nothing else: no
    task object changes, so the error-handled flag stays as it was, both
    maps stay as they were, and no call is made on the tracker.  The
    recovery sequence is started from the push channel only. *)
Theorem status_poll_only_logs (task : nat) (st : state)
    (o : OpenCodeTaskStatus.t) (statuses : JS.value) (w : World) :
  heap st !! task = Some o ->
  perform (world (system st)) GetSessionStatus = (Ok statuses, w) ->
  (let state :=
     JS.get "state" (JS.get (OpenCodeTaskStatus.sessionId o) statuses) in
   JS.is_str state "error" || JS.is_str state "blocked" = true) ->
  let st' := snd (OpenCode.checkSessionStatus task st) in
  In (poll_warning (OpenCodeTaskStatus.issueNumber o)) (calls (system st'))
  /\ heap st' = heap st
  /\ tasks st' = tasks st
  /\ activeTasks st' = activeTasks st
  /\ writes st' = writes st.
Proof.
  intros Ho Hcall Hstate st'.
  destruct (checkSessionStatus_memory task st) as (Hh & Ht & Ha).
  pose proof (checkSessionStatus_no_write task st) as Hw.
  fold st' in Hh, Ht, Ha, Hw.
  split; [| repeat split; assumption].
  subst st'. clear Hh Ht Ha Hw.
  change (wp (OpenCode.checkSessionStatus task)
            (fun _ st' =>
               In (poll_warning (OpenCodeTaskStatus.issueNumber o))
                  (calls (system st'))) st).
  unfold OpenCode.checkSessionStatus, OpenCode.logI, logi.
  destruct st as [[w0 tr] hp tk act]. cbn in Ho, Hcall.
  wp_step. wp_step. cbn [heap]. rewrite Ho. cbn [after_bind].
  wp_step. wp_step. wp_step. wp_step.
  cbn [system world] in *. rewrite Hcall in H. inversion H; subst r w1.
  cbn [after_bind set_system system calls world].
  assert (Htruthy :
            JS.truthy (JS.get (OpenCodeTaskStatus.sessionId o) statuses) = true).
  { cbv zeta in Hstate.
    destruct (JS.get (OpenCodeTaskStatus.sessionId o) statuses);
      cbn in Hstate; try discriminate; reflexivity. }
  assert (Hobj : statuses <> JS.Undefined /\ statuses <> JS.Null).
  { split; intros ->; cbn in Htruthy; discriminate. }
  wp_step. wp_step.
  destruct statuses; try (destruct Hobj; congruence);
    cbn [after_bind]; rewrite Htruthy; cbn [when];
    wp_step; cbv zeta in Hstate; rewrite Hstate; cbn [when];
    repeat (wp_step;
            cbn [system set_system calls world heap tasks activeTasks]);
    rewrite ?in_app_iff; cbn; unfold poll_warning; tauto.
Qed.

End WithEnv.

#[local] Existing Instance Sim.env.

(** The server reports session [ses_1] in state error; its task has not
    handled any error yet. *)
Definition failing_session_world : Sim.world :=
  {| Sim.files := []; Sim.dirs := []; Sim.failing := [];
     Sim.branch := "main"; Sim.now := 90000; Sim.absent_labels := [];
     Sim.listing := []; Sim.comments := []; Sim.sessions := ["ses_1"];
     Sim.status := JS.Obj [("ses_1", JS.Obj [("state", JS.Str "error")])];
     Sim.next_session := "ses_2" |}.

Definition running_task : OpenCodeTaskStatus.t :=
  {| OpenCodeTaskStatus.sessionId := "ses_1";
     OpenCodeTaskStatus.issueNumber := 7;
     OpenCodeTaskStatus.startedAt := 0;
     OpenCodeTaskStatus.shareLink := None;
     OpenCodeTaskStatus.eventSource := true;
     OpenCodeTaskStatus.lastActivity := 0;
     OpenCodeTaskStatus.currentMessageBuffer := None;
     OpenCodeTaskStatus.statusCheckInterval := true;
     OpenCodeTaskStatus.lastTuiPopup := None;
     OpenCodeTaskStatus.errorHandled := false |}.

Definition supervising (w : Sim.world) : state :=
  {| system := Sim.start w;
     heap := [running_task];
     tasks := {[ 7 := 0%nat ]};
     activeTasks := ∅ |}.

Lemma status_poll_only_logs_witness :
  let st' := snd (OpenCode.checkSessionStatus 0 (supervising failing_session_world)) in
  In (poll_warning 7) (calls (system st'))
  /\ heap st' = [running_task]
  /\ tasks st' = {[ 7 := 0%nat ]}
  /\ activeTasks st' = ∅
  /\ writes st' = [].
Proof.
  apply (status_poll_only_logs (E := Sim.env) 0
           (supervising failing_session_world) running_task
           (Sim.status failing_session_world) failing_session_world);
    reflexivity.
Defined.

(** Session [ses_1] goes idle without an error 90 seconds after its task
    started. *)
Definition late_idle : JS.value :=
  JS.Obj [("type", JS.Str "session.idle");
          ("properties", JS.Obj [("sessionID", JS.Str "ses_1")])].

Lemma idle_classification_witness :
  let st := supervising failing_session_world in
  let st' :=
    snd (OpenCode.handleEvent (Some Manager.onTaskComplete) 0 late_idle st) in
  verdict st' = verdict st ++ [task_complete 7]
  /\ writes st' = writes st
  /\ flagged 0 st' = false.
Proof.
  destruct (idle_classification (E := Sim.env) 0
              (supervising failing_session_world) running_task late_idle
              eq_refl eq_refl eq_refl)
    as (Hv & _ & _ & Hlate & _).
  destruct Hlate as (Hshape & Hw & Hf);
    [vm_compute; discriminate | reflexivity |].
  cbv zeta. rewrite Hv, Hshape. auto.
Defined.

(** The claim C3 as stated: whenever the poll finds the session in state
    error or blocked and the task's error was not handled yet, the poll
    sets the flag and runs the recovery sequence. *)
Definition poll_feeds_recovery : Prop :=
  forall (E : Env) (task : nat) (st : state) (o : OpenCodeTaskStatus.t)
         (statuses : JS.value) (w : World),
    heap st !! task = Some o ->
    OpenCodeTaskStatus.errorHandled o = false ->
    perform (world (system st)) GetSessionStatus = (Ok statuses, w) ->
    (let state :=
       JS.get "state" (JS.get (OpenCodeTaskStatus.sessionId o) statuses) in
     JS.is_str state "error" || JS.is_str state "blocked" = true) ->
    let st' := snd (OpenCode.checkSessionStatus task st) in
    flagged task st' = true
    /\ tally is_label_removal st' = S (tally is_label_removal st)
    /\ tally is_comment st' = S (tally is_comment st).

(** C3 (counterexample).  In [failing_session_world] the poll observes the
    error state of the task's session, and afterwards the flag is still
    unset and nothing was asked of the tracker. *)
Lemma poll_feeds_recovery_fails : ~ poll_feeds_recovery.
Proof.
  intros H.
  destruct (H Sim.env 0%nat (supervising failing_session_world) running_task
              (Sim.status failing_session_world) failing_session_world
              eq_refl eq_refl eq_refl eq_refl) as (Hflag & _).
  vm_compute in Hflag. discriminate.
Qed.

End OpenCodeFacts.

(* ===================================================================== *)
(** * Theorems: src/index.ts and the process as a whole                   *)
(* ===================================================================== *)

Module OrchestratorFacts.
Import Eff EffAccess EffFacts Store StoreFacts OpenCodeFacts.

(** Every method of the program that is not a loop, unfolded. *)
Ltac unfold_program :=
  unfold Orchestrator.run_callback, Orchestrator.observe, OpenCode.observe,
    Orchestrator.checkNewTasks, Orchestrator.checkBlockedTasks,
    Orchestrator.resume_if_replied, Manager.startTask,
    Manager.continueBlockedTask, Manager.getTask, Manager.canStartNewTask,
    Manager.onTaskComplete, OpenCode.handleEvent,
    OpenCode.handle_message_updated, OpenCode.handle_part,
    OpenCode.handle_tui, OpenCode.handle_idle,
    OpenCode.handle_session_status, OpenCode.handle_other,
    OpenCode.checkSessionStatus, OpenCode.continueTask, OpenCode.startTask,
    OpenCode.subscribeToEvents, OpenCode.checkConfiguration,
    OpenCode.handleSessionError, OpenCode.signal_call, OpenCode.logI,
    OpenCode.logS.

(** Frames for a relation on a memory component; [side] proves the
    relation between the component before and after a write. *)
Ltac memory_frames side :=
  repeat (first [ frame_step | store_step | via_step; side
                | solve [eauto with frames] ]).

(** ** The error-handled flag never falls *)

Definition flags_le (hp hp' : list OpenCodeTaskStatus.t) : Prop :=
  forall r o, hp !! r = Some o -> OpenCodeTaskStatus.errorHandled o = true ->
              exists o', hp' !! r = Some o'
                         /\ OpenCodeTaskStatus.errorHandled o' = true.

#[export] Instance flags_le_preorder : PreOrder flags_le.
Proof.
  split; [intros hp r o H1 H2; eauto |].
  intros a b c Hab Hbc r o H1 H2.
  destruct (Hab r o H1 H2) as (o' & H3 & H4). eauto.
Qed.

Lemma flags_le_alter (f : OpenCodeTaskStatus.t -> OpenCodeTaskStatus.t) i hp :
  (forall o, OpenCodeTaskStatus.errorHandled o = true ->
             OpenCodeTaskStatus.errorHandled (f o) = true) ->
  flags_le hp (alter f i hp).
Proof.
  intros Hf r o H1 H2. destruct (decide (i = r)) as [->|Hne].
  - exists (f o). rewrite list_lookup_alter_eq, H1. split; [reflexivity | auto].
  - exists o. now rewrite list_lookup_alter_ne.
Qed.

Lemma flags_le_app hp o : flags_le hp (hp ++ [o]).
Proof. intros r o' H1 H2. exists o'. split; [now apply lookup_app_l_Some | auto]. Qed.

Ltac flag_side :=
  first [ reflexivity
        | apply flags_le_app
        | apply flags_le_alter; intros ? ?; first [assumption | reflexivity] ].

Section WithEnv.
Context {E : Env}.
Variable config : Config.t.

Definition flags_kept : state -> state -> Prop := via heap flags_le.

Lemma startTask_flags_kept issue :
  preserves flags_kept (Manager.startTask config issue).
Proof. unfold flags_kept. unfold_program. memory_frames flag_side. Qed.

Lemma start_sorted_flags_kept sorted :
  preserves flags_kept (Orchestrator.start_sorted config sorted).
Proof.
  pose proof startTask_flags_kept as Hstart.
  induction sorted as [|issue rest IH]; cbn [Orchestrator.start_sorted];
    unfold flags_kept in *; unfold OpenCode.logI; unfold Manager.canStartNewTask;
    memory_frames flag_side.
Qed.

Lemma callback_flags_kept c :
  preserves flags_kept (Orchestrator.run_callback config c).
Proof.
  pose proof start_sorted_flags_kept as Hloop.
  destruct c as [| |task sg]; [| |destruct sg];
    unfold flags_kept in *; unfold_program; memory_frames flag_side.
Qed.


Lemma run_flags_kept schedule st :
  flags_kept st (Orchestrator.run config st schedule).
Proof.
  revert st. induction schedule as [|[w c] rest IH]; intros st; cbn.
  - reflexivity.
  - etransitivity; [| apply IH].
    unfold Orchestrator.after.
    transitivity (Orchestrator.at_world w st).
    + unfold flags_kept, via. cbn. reflexivity.
    + apply callback_flags_kept.
Qed.

(** ** At most one recovery per task object *)

(** The signals one task's supervisor observes, as callbacks of the
    process, each run in the world of its time. *)
Definition observed (task : nat) (signals : list (World * OpenCode.signal))
    : list (World * Orchestrator.callback) :=
  map (fun ws => (fst ws, Orchestrator.Signal task (snd ws))) signals.

Lemma observe_guard task P sg :
  recovery_kind P ->
  preserves (guard task P) (Orchestrator.observe task sg).
Proof.
  intros HP. unfold Orchestrator.observe, OpenCode.observe. destruct sg.
  - now apply handleEvent_guard.
  - now apply checkSessionStatus_guard.
Qed.

Definition is_signal_of (task : nat) (c : Orchestrator.callback) : bool :=
  match c with
  | Orchestrator.Signal t _ => Nat.eqb t task
  | _ => false
  end.

Definition is_scan (c : Orchestrator.callback) : bool :=
  match c with
  | Orchestrator.DiscoveryScan | Orchestrator.ResumeScan => true
  | Orchestrator.Signal _ _ => false
  end.

(** The calls of kind [P] made in a run by the callbacks that [sel]
    selects: for each of these callbacks, the calls of that kind that it
    adds to the trace. *)
Fixpoint made_by (sel : Orchestrator.callback -> bool) (P : call -> bool)
    (st : state) (schedule : list (World * Orchestrator.callback)) : nat :=
  match schedule with
  | [] => 0
  | (w, c) :: rest =>
      let st1 := Orchestrator.after config st w c in
      ((if sel c then tally P st1 - tally P st else 0)
       + made_by sel P st1 rest)%nat
  end.

Lemma after_flag task st w c :
  flagged task st = true ->
  flagged task (Orchestrator.after config st w c) = true.
Proof.
  intros Hf. unfold flagged in *.
  destruct (heap st !! task) as [o|] eqn:Ho; [| discriminate].
  pose proof (callback_flags_kept c (Orchestrator.at_world w st)) as H.
  destruct (H task o Ho Hf) as (o' & Ho' & Hf').
  unfold Orchestrator.after. now rewrite Ho'.
Qed.

Lemma made_by_task task P schedule :
  recovery_kind P ->
  forall st,
    (made_by (is_signal_of task) P st schedule
     <= if flagged task st then 0 else 1)%nat.
Proof.
  intros HP. induction schedule as [|[w c] rest IH]; intros st;
    cbn [made_by]; [destruct (flagged task st); lia |].
  cbv zeta. specialize (IH (Orchestrator.after config st w c)).
  pose proof (after_flag task st w c) as Hkeep.
  destruct (is_signal_of task c) eqn:Hsel.
  - destruct c as [| |t sg]; try discriminate.
    apply Nat.eqb_eq in Hsel as ->.
    pose proof (observe_guard task P sg HP (Orchestrator.at_world w st))
      as [H1 H0].
    change (snd (Orchestrator.observe task sg (Orchestrator.at_world w st)))
      with (Orchestrator.after config st w (Orchestrator.Signal task sg))
      in H1, H0.
    change (flagged task (Orchestrator.at_world w st))
      with (flagged task st) in H1, H0.
    change (tally P (Orchestrator.at_world w st)) with (tally P st)
      in H1, H0.
    set (st1 := Orchestrator.after config st w _) in *.
    destruct (flagged task st) eqn:Hf.
    + destruct (H1 eq_refl) as [Hf1 Ht]. rewrite Hf1 in IH. lia.
    + destruct (H0 eq_refl) as [Ht | [Hf1 Ht]].
      * destruct (flagged task st1); lia.
      * rewrite Hf1 in IH. lia.
  - set (st1 := Orchestrator.after config st w c) in *.
    destruct (flagged task st) eqn:Hf.
    + rewrite (Hkeep eq_refl) in IH. lia.
    + destruct (flagged task st1); lia.
Qed.

Ltac quiet_step :=
  lazymatch goal with
  | |- preserves (quietS _) (in_sys _) => apply quietS_in_sys
  | |- preserves (quietS _) (modify _) =>
      apply quietS_memory; intros ?; reflexivity
  end.

Ltac quiets :=
  repeat (first [ frame_step | store_step | quiet_step
                | solve [eauto with frames] ]).

(** A scan asks nothing of the tracker but its listings. *)
Lemma startTask_no_write issue :
  preserves (quietS is_tracker_write) (Manager.startTask config issue).
Proof.
  unfold_program.
  unfold Worktree.createWorktree, Worktree.getDefaultBranch,
    Worktree.execSync, existsSync, logi, log.
  quiets.
Qed.

Lemma start_sorted_no_write sorted :
  preserves (quietS is_tracker_write)
    (Orchestrator.start_sorted config sorted).
Proof.
  pose proof startTask_no_write as Hstart.
  induction sorted as [|issue rest IH]; cbn [Orchestrator.start_sorted];
    unfold OpenCode.logI, logi, Manager.canStartNewTask; quiets.
Qed.

Lemma scan_no_write c :
  is_scan c = true ->
  preserves (quietS is_tracker_write) (Orchestrator.run_callback config c).
Proof.
  pose proof start_sorted_no_write as Hloop.
  destruct c as [| |task sg]; [intros _ | intros _ | discriminate];
    unfold_program;
    unfold GitHub.getIssuesWithLabel, Worktree.getCurrentBranch,
      Worktree.execSync, existsSync, logi, log;
    quiets.
Qed.

Lemma made_by_scans schedule :
  forall st, made_by is_scan is_tracker_write st schedule = 0%nat.
Proof.
  induction schedule as [|[w c] rest IH]; intros st; cbn [made_by];
    [reflexivity |].
  cbv zeta. rewrite IH. destruct (is_scan c) eqn:Hc; [| reflexivity].
  pose proof (scan_no_write c Hc (Orchestrator.at_world w st)) as Hq.
  unfold quietS, quiet in Hq. unfold Orchestrator.after, tally.
  rewrite Hq. cbn. lia.
Qed.

(** C1 (amended).  A task object is the record that one start or one
    continuation of an issue creates and to which the signals of that
    subscription are delivered.  Under every schedule of callbacks of
    the process (scans, and signals for any task object, in any order
    and at any times), the signals of one task object make the process
    remove the in-progress label at most once, restore the ready label
    at most once and post at most one comment; once the error-handled
    flag of the object is set it stays set and the signals of that
    object make none of these calls; and the scans make no call that
    changes the tracker. *)
Theorem recovery_runs_at_most_once (task : nat) (st : state)
    (schedule : list (World * Orchestrator.callback)) :
  let by_task P := made_by (is_signal_of task) P st schedule in
  ((by_task is_label_removal <= 1)%nat
   /\ (by_task is_label_restore <= 1)%nat
   /\ (by_task is_comment <= 1)%nat)
  /\ (flagged task st = true ->
      flagged task (Orchestrator.run config st schedule) = true
      /\ by_task is_label_removal = 0%nat
      /\ by_task is_label_restore = 0%nat
      /\ by_task is_comment = 0%nat)
  /\ made_by is_scan is_tracker_write st schedule = 0%nat.
Proof.
  cbv zeta.
  assert (Hone : forall P, recovery_kind P ->
                   (made_by (is_signal_of task) P st schedule
                    <= if flagged task st then 0 else 1)%nat)
    by (intros P HP; now apply made_by_task).
  pose proof (Hone is_label_removal ltac:(unfold recovery_kind; auto)) as H1.
  pose proof (Hone is_label_restore ltac:(unfold recovery_kind; auto)) as H2.
  pose proof (Hone is_comment ltac:(unfold recovery_kind; auto)) as H3.
  split; [| split].
  - destruct (flagged task st); lia.
  - intros Hf. rewrite Hf in H1, H2, H3. split; [| lia].
    unfold flagged in *.
    destruct (heap st !! task) as [o|] eqn:Ho; [| discriminate].
    destruct (run_flags_kept schedule st task o Ho Hf) as (o' & -> & Ho').
    exact Ho'.
  - apply made_by_scans.
Qed.

(** ** The cap on active tasks *)




Definition maxConcurrent : Z :=
  Config.maxConcurrentTasks (Config.scheduler config).


(** A signal never adds to the active map. *)
Definition shrinks (m m' : gmap Z TaskContext.t) : Prop :=
  (size m' <= size m)%nat.

#[export] Instance shrinks_preorder : PreOrder shrinks.
Proof.
  split; [intros m; unfold shrinks; lia |].
  intros a b c; unfold shrinks; lia.
Qed.




(** [startTask] leaves the active map alone or writes the entry of its
    issue. *)
Definition writes_entry (n : Z) (m m' : gmap Z TaskContext.t) : Prop :=
  m' = m \/ exists c, m' = <[n := c]> m.

#[export] Instance writes_entry_preorder n : PreOrder (writes_entry n).
Proof.
  split; [intros m; now left |].
  intros a b c [->|[x ->]] [->|[y ->]]; unfold writes_entry; eauto.
  right. exists y. apply insert_insert_eq.
Qed.







(** The entries of [m'] for issues that have none in [m]. *)
Definition new_entries (m m' : gmap Z TaskContext.t) : nat :=
  size (dom m' ∖ dom m).


Lemma new_entries_none (m : gmap Z TaskContext.t) : new_entries m m = 0%nat.
Proof.
  unfold new_entries. apply size_empty_iff, elem_of_equiv_empty.
  intros k [H1 H2]%elem_of_difference. contradiction.
Qed.

Lemma new_entries_trans (a b c : gmap Z TaskContext.t) :
  (new_entries a c <= new_entries a b + new_entries b c)%nat.
Proof.
  unfold new_entries.
  assert (Hsub : dom c ∖ dom a ⊆ (dom b ∖ dom a) ∪ (dom c ∖ dom b)).
  { intros k Hk. apply elem_of_difference in Hk as [Hc Ha].
    destruct (decide (k ∈ dom b)); set_solver. }
  apply subseteq_size in Hsub.
  rewrite (size_union_alt (dom b ∖ dom a) (dom c ∖ dom b)) in Hsub.
  assert (Hle : (dom c ∖ dom b) ∖ (dom b ∖ dom a) ⊆ dom c ∖ dom b)
    by (intros k [Hk _]%elem_of_difference; exact Hk).
  apply subseteq_size in Hle. lia.
Qed.


(** The continuations that the task manager begins. *)
Definition is_continuation (c : call) : bool :=
  match c with
  | LogCall _ (Some _) message =>
      String.eqb message "Continuing blocked task"
  | _ => false
  end.


(** Along a step, the active map gains at most one entry for each
    continuation begun. *)
Definition paid (st st' : state) : Prop :=
  (new_entries (activeTasks st) (activeTasks st') + tally is_continuation st
   <= tally is_continuation st')%nat.

#[export] Instance paid_preorder : PreOrder paid.
Proof.
  split.
  - intros st. unfold paid. rewrite new_entries_none. lia.
  - intros a b c Hab Hbc. unfold paid in *.
    pose proof (new_entries_trans (activeTasks a) (activeTasks b)
                  (activeTasks c)).
    lia.
Qed.











(** ** The order of admission *)

(** The log lines by which a scan reports what became of an attempt to
    start a task. *)
Definition is_attempt (c : call) : bool :=
  match c with
  | LogCall _ (Some _) message =>
      String.eqb message "Started task"
      || String.eqb message "Failed to start task"
  | _ => false
  end.

Definition log_number (c : call) : Z :=
  match c with
  | LogCall _ (Some n) _ => n
  | _ => 0
  end.

(** The issues a process has tried to start, in order. *)
Definition attempted (st : state) : list Z :=
  map log_number (List.filter is_attempt (calls (system st))).


Definition can_start (st : state) : bool :=
  Z.of_nat (size (activeTasks st)) <? maxConcurrent.



(** The issues for which a scan has reported a start as done, in
    order. *)
Definition is_started (c : call) : bool :=
  match c with
  | LogCall _ (Some _) message => String.eqb message "Started task"
  | _ => false
  end.

Definition started (st : state) : list Z :=
  map log_number (List.filter is_started (calls (system st))).












(** *** Sorting by priority is stable *)

(** Ordered by key, and by [R] among equal keys. *)
Definition lex {A} (key : A -> Z) (R : A -> A -> Prop) (a b : A) : Prop :=
  key a < key b \/ (key a = key b /\ R a b).

Lemma insert_by_perm {A} (key : A -> Z) x l :
  Permutation (x :: l) (GitHub.insert_by key x l).
Proof.
  induction l as [|y l IH]; cbn; [reflexivity |].
  destruct (key x <=? key y); [reflexivity |].
  rewrite perm_swap. now constructor.
Qed.

Lemma stable_sort_perm {A} (key : A -> Z) l :
  Permutation l (GitHub.stable_sort key l).
Proof.
  induction l as [|x l IH]; cbn; [reflexivity |].
  rewrite <- insert_by_perm. now constructor.
Qed.

Lemma insert_by_sorted {A} (key : A -> Z) (R : A -> A -> Prop) x l :
  StronglySorted (lex key R) l -> Forall (R x) l ->
  StronglySorted (lex key R) (GitHub.insert_by key x l).
Proof.
  induction l as [|y l IH]; intros Hs HR; cbn.
  - repeat constructor.
  - apply StronglySorted_inv in Hs as [Hs Hy].
    apply Forall_cons in HR as [HRy HR].
    destruct (key x <=? key y) eqn:Hk.
    + apply Z.leb_le in Hk. constructor; [now constructor |].
      constructor.
      * unfold lex. destruct (Z.eq_dec (key x) (key y)); [right | left];
          [split; assumption | lia].
      * rewrite Forall_forall in Hy, HR |- *. intros z Hz.
        specialize (Hy z Hz). specialize (HR z Hz). unfold lex in *.
        destruct (Z.eq_dec (key x) (key z)); [right; split; assumption |].
        left. lia.
    + apply Z.leb_gt in Hk. constructor; [now apply IH |].
      rewrite <- insert_by_perm. constructor; [| exact Hy].
      left. exact Hk.
Qed.

Lemma stable_sort_sorted {A} (key : A -> Z) (R : A -> A -> Prop) l :
  StronglySorted R l -> StronglySorted (lex key R) (GitHub.stable_sort key l).
Proof.
  induction 1 as [|x l Hs IH Hx]; cbn; [constructor |].
  apply insert_by_sorted; [exact IH |].
  eapply Permutation_Forall; [apply stable_sort_perm | exact Hx].
Qed.


Lemma sorted_transfer {A B} (Q : A -> B -> Prop) (R : A -> A -> Prop)
    (R' : B -> B -> Prop) l l' :
  (forall a b a' b', Q a a' -> Q b b' -> R a b -> R' a' b') ->
  Forall2 Q l l' -> StronglySorted R l -> StronglySorted R' l'.
Proof.
  intros Hq H. induction H as [|a a' l l' Ha Hl IH]; intros Hs;
    [constructor |].
  apply StronglySorted_inv in Hs as [Hs Hx].
  constructor; [now apply IH |].
  clear IH Hs. induction Hl as [|b b' l l' Hb Hl IH]; [constructor |].
  apply Forall_cons in Hx as [Hab Hx]. constructor; eauto.
Qed.

(** *** What a discovery scan fetches *)










End WithEnv.

#[local] Existing Instance Sim.env.

(** An idle event with an error, a session error event and a status
    poll, all for session [ses_1] and all at the same time. *)
Definition idle_with_error : JS.value :=
  JS.Obj [("type", JS.Str "session.idle");
          ("sessionID", JS.Str "ses_1");
          ("error", JS.Obj [("message", JS.Str "model not found")])].

Definition session_error : JS.value :=
  JS.Obj [("type", JS.Str "session.error");
          ("properties",
           JS.Obj [("sessionID", JS.Str "ses_1");
                   ("error", JS.Obj [("message", JS.Str "model not found")])])].

Definition duplicate_failures : list (Sim.world * OpenCode.signal) :=
  [(failing_session_world, OpenCode.PushEvent session_error);
   (failing_session_world, OpenCode.PushEvent idle_with_error);
   (failing_session_world, OpenCode.StatusPoll);
   (failing_session_world, OpenCode.PushEvent session_error)].

Definition after_failures : state :=
  Orchestrator.run Sim.config (supervising failing_session_world)
    (observed 0 duplicate_failures).

Example duplicate_failures_recover_once :
  tally is_label_removal after_failures = 1%nat
  /\ tally is_label_restore after_failures = 1%nat
  /\ tally is_comment after_failures = 1%nat
  /\ flagged 0 after_failures = true.
Proof. vm_compute. repeat split. Qed.

(** The same failures among scans and a late signal. *)
Definition failures_among_scans
    : list (Sim.world * Orchestrator.callback) :=
  (failing_session_world, Orchestrator.DiscoveryScan)
  :: observed 0 duplicate_failures
  ++ [(failing_session_world, Orchestrator.ResumeScan);
      (failing_session_world,
       Orchestrator.Signal 0 (OpenCode.PushEvent idle_with_error))].

Lemma recovery_runs_at_most_once_witness :
  ((made_by Sim.config (is_signal_of 0) is_label_removal
      (supervising failing_session_world) failures_among_scans <= 1)%nat
   /\ (made_by Sim.config (is_signal_of 0) is_label_restore
         (supervising failing_session_world) failures_among_scans <= 1)%nat
   /\ (made_by Sim.config (is_signal_of 0) is_comment
         (supervising failing_session_world) failures_among_scans <= 1)%nat)
  /\ flagged 0
       (Orchestrator.run Sim.config after_failures failures_among_scans)
     = true.
Proof.
  split.
  - exact (proj1 (recovery_runs_at_most_once (E := Sim.env) Sim.config 0
                    (supervising failing_session_world)
                    failures_among_scans)).
  - apply (proj2 (recovery_runs_at_most_once (E := Sim.env) Sim.config 0
                    after_failures failures_among_scans)).
    vm_compute. reflexivity.
Defined.

(** An issue as the tracker lists it. *)
Definition raw (n : Z) (labels : list string) (created : Z) : RawIssue.t :=
  {| RawIssue.number := n; RawIssue.title := "Task";
     RawIssue.body := None;
     RawIssue.labels := map inl labels;
     RawIssue.created_at := created; RawIssue.updated_at := created |}.

(** Three ready issues in the order of their creation: one without a
    priority, one of medium and one of high priority. *)
Definition ready_listing : list RawIssue.t :=
  [raw 1 ["ai-task"] 10;
   raw 2 ["ai-task"; "ai-priority:medium"] 20;
   raw 3 ["ai-task"; "ai-priority:high"] 30].

Definition ready_world : Sim.world :=
  {| Sim.files := []; Sim.dirs := ["/repo"; "/repo/.worktrees"];
     Sim.failing := []; Sim.branch := "main"; Sim.now := 100;
     Sim.absent_labels := [];
     Sim.listing := [("ai-task", ready_listing)];
     Sim.comments := []; Sim.sessions := []; Sim.status := JS.Obj [];
     Sim.next_session := "ses_1" |}.

(** With room for two tasks the scan starts the high and the medium
    issue, in that order, and leaves the third alone. *)
Example ready_scan_attempts :
  let st' :=
    snd (Orchestrator.checkNewTasks Sim.config (Sim.boot ready_world)) in
  attempted st' = [3; 2]
  /\ started st' = [3; 2]
  /\ TaskContext.issueNumber <$> activeTasks st' !! 3 = Some 3
  /\ TaskContext.issueNumber <$> activeTasks st' !! 2 = Some 2
  /\ activeTasks st' !! 1 = None
  /\ can_start Sim.config st' = false.
Proof. vm_compute. repeat split. Qed.







(** *** A continuation starts over *)

(** The Task of issue [n] is its entry in the active map, and the
    error-handled flag of the Task is the flag of the task object that
    the entry points to. *)
Definition task_flag {E : Env} (n : Z) (st : state) : bool :=
  match activeTasks st !! n with
  | Some context =>
      match TaskContext.process context with
      | Some task => flagged task st
      | None => false
      end
  | None => false
  end.

Definition in_active {E : Env} (n : Z) (st : state) : bool :=
  match activeTasks st !! n with
  | Some _ => true
  | None => false
  end.

(** Issue [n] has a Task in [st] and after every callback of the
    schedule. *)
Fixpoint alive {E : Env} (config : Config.t) (n : Z) (st : state)
    (schedule : list (World * Orchestrator.callback)) : bool :=
  in_active n st
  && match schedule with
     | [] => true
     | (w, c) :: rest => alive config n (Orchestrator.after config st w c) rest
     end.

(** The recovery sequences run for issue [n], counted by the removals of
    its in-progress label. *)
Definition recoveries {E : Env} (n : Z) (st : state) : nat :=
  tally (fun c => match c with
                  | RemoveLabel m l =>
                      Z.eqb m n && String.eqb l Labels.AI_IN_PROGRESS
                  | _ => false
                  end) st.

(** The claim C1 as stated, for the Task of an issue: in a process
    started from scratch, for as long as the issue keeps its Task, the
    recovery sequence runs at most once for it, and the flag of the
    Task, once set, stays set. *)
Definition recovery_once_per_task : Prop :=
  forall (E : Env) (config : Config.t) (w : World) (n : Z)
         (before schedule : list (World * Orchestrator.callback)),
    Config.valid config ->
    let st := Orchestrator.run config (Orchestrator.boot w) before in
    let st' := Orchestrator.run config st schedule in
    alive config n st schedule = true ->
    (recoveries n st' <= recoveries n st + 1)%nat
    /\ (task_flag n st = true -> task_flag n st' = true).

(** Issue 7 is ready and is started in session [ses_1]. *)
Definition started_world : Sim.world :=
  {| Sim.files := []; Sim.dirs := ["/repo"; "/repo/.worktrees"];
     Sim.failing := []; Sim.branch := "main"; Sim.now := 100;
     Sim.absent_labels := [];
     Sim.listing := [("ai-task", [raw 7 ["ai-task"] 10])];
     Sim.comments := []; Sim.sessions := []; Sim.status := JS.Obj [];
     Sim.next_session := "ses_1" |}.

(** Later issue 7 is marked blocked and a human has commented on it;
    its worktree and its session exist. *)
Definition blocked_world : Sim.world :=
  {| Sim.files := [];
     Sim.dirs := ["/repo"; "/repo/.worktrees"; "/repo/.worktrees/issue-7"];
     Sim.failing := []; Sim.branch := "ai/issue-7-task"; Sim.now := 300;
     Sim.absent_labels := [];
     Sim.listing := [("ai-blocked", [raw 7 ["ai-blocked"] 10])];
     Sim.comments :=
       [(7, [{| Comment.id := 1; Comment.body := "Try the other model.";
                Comment.author := "alice"; Comment.createdAt := 200 |}])];
     Sim.sessions := ["ses_1"]; Sim.status := JS.Obj [];
     Sim.next_session := "ses_2" |}.

(** The session fails, the issue is continued in the same session, and
    the session fails again: the first failure is delivered to the
    subscription of the start, the second to that of the
    continuation. *)
Definition fails_again : list (Sim.world * Orchestrator.callback) :=
  [(blocked_world, Orchestrator.Signal 0 (OpenCode.PushEvent session_error));
   (blocked_world, Orchestrator.ResumeScan);
   (blocked_world, Orchestrator.Signal 1 (OpenCode.PushEvent session_error))].

(** Along that run issue 7 keeps its Task; the recovery sequence runs
    twice for it, and the flag of its Task, set by the first failure, is
    unset again after the continuation. *)
Example continuation_resets_the_flag :
  let st :=
    Orchestrator.run Sim.config (Sim.boot started_world)
      [(started_world, Orchestrator.DiscoveryScan)] in
  alive Sim.config 7 st fails_again = true
  /\ recoveries 7 st = 0%nat
  /\ recoveries 7 (Orchestrator.run Sim.config st fails_again) = 2%nat
  /\ tally is_comment (Orchestrator.run Sim.config st fails_again) = 2%nat
  /\ task_flag 7 (Orchestrator.run Sim.config st (take 1 fails_again)) = true
  /\ task_flag 7 (Orchestrator.run Sim.config st (take 2 fails_again))
     = false.
Proof. vm_compute. repeat split. Qed.

(** C1 (counterexample).  For the Task of issue 7 the recovery sequence
    runs twice while the issue keeps its Task: a continuation gives the
    Task a fresh task object whose flag is unset. *)
Lemma continuation_recovers_twice : ~ recovery_once_per_task.
Proof.
  intros H.
  specialize (H Sim.env Sim.config started_world 7
                [(started_world, Orchestrator.DiscoveryScan)] fails_again).
  assert (Hvalid : Config.valid Sim.config)
    by (vm_compute; split; discriminate).
  specialize (H Hvalid).
  cbv zeta in H. destruct H as [H _]; [vm_compute; reflexivity |].
  vm_compute in H. lia.
Qed.

End OrchestratorFacts.

(* ===================================================================== *)
(** * Strings, character by character                                      *)
(* ===================================================================== *)

Module StringFacts.

(** Some character of [s] satisfies [P]; every character does. *)
Fixpoint some_char (P : ascii -> bool) (s : string) : bool :=
  match s with
  | EmptyString => false
  | String c s' => P c || some_char P s'
  end.

Fixpoint every_char (P : ascii -> bool) (s : string) : bool :=
  match s with
  | EmptyString => true
  | String c s' => P c && every_char P s'
  end.

Lemma every_char_impl (P Q : ascii -> bool) s :
  (forall c, P c = true -> Q c = true) ->
  every_char P s = true -> every_char Q s = true.
Proof.
  intros HPQ. induction s as [|c s IH]; cbn; [trivial |].
  rewrite !andb_true_iff. intros [Hc Hs]. auto.
Qed.

Lemma every_char_append P s t :
  every_char P (s ++ t)%string = every_char P s && every_char P t.
Proof.
  induction s as [|c s IH]; [reflexivity |].
  change (P c && every_char P (s ++ t)%string
          = P c && every_char P s && every_char P t).
  now rewrite IH, andb_assoc.
Qed.

Lemma length_append (s t : string) :
  String.length (s ++ t)%string = (String.length s + String.length t)%nat.
Proof.
  induction s as [|c s IH]; [reflexivity |].
  change (S (String.length (s ++ t)%string)
          = S (String.length s + String.length t)).
  now rewrite IH.
Qed.

Lemma append_nil_r (s : string) : (s ++ "")%string = s.
Proof.
  induction s as [|c s IH]; [reflexivity |].
  change (String c (s ++ "")%string = String c s). now rewrite IH.
Qed.

Lemma append_assoc (s t u : string) :
  ((s ++ t) ++ u)%string = (s ++ (t ++ u))%string.
Proof.
  induction s as [|c s IH]; [reflexivity |].
  change (String c ((s ++ t) ++ u)%string = String c (s ++ (t ++ u))%string).
  now rewrite IH.
Qed.

(** ** Prefixes and substrings *)

Lemma prefix_nil (s : string) : String.prefix "" s = true.
Proof. now destruct s. Qed.

Lemma prefix_append (s t : string) : String.prefix s (s ++ t)%string = true.
Proof.
  induction s as [|c s IH]; [apply prefix_nil |].
  change (String.prefix (String c s) (String c (s ++ t)%string) = true).
  cbn [String.prefix]. now destruct (ascii_dec c c).
Qed.

Lemma substring_whole (s : string) :
  String.substring 0 (String.length s) s = s.
Proof. induction s as [|c s IH]; [reflexivity |]. cbn. now rewrite IH. Qed.

Lemma substring_after (s t : string) (n : nat) :
  String.substring (String.length s) n (s ++ t)%string
  = String.substring 0 n t.
Proof.
  induction s as [|c s IH]; [reflexivity |].
  change (String.substring (S (String.length s)) n
            (String c (s ++ t)%string) = String.substring 0 n t).
  cbn [String.substring]. exact IH.
Qed.

Lemma replace_first_prefix (pat t : string) :
  JS.replace_first (pat ++ t)%string pat "" = t.
Proof.
  assert (H : forall s, JS.replace_first s pat ""
                        = if String.prefix pat s
                          then ("" ++ String.substring (String.length pat)
                                      (String.length s - String.length pat) s)%string
                          else match s with
                               | EmptyString => s
                               | String c s' =>
                                   String c (JS.replace_first s' pat "")
                               end)
    by (intros []; reflexivity).
  rewrite H, prefix_append, substring_after, length_append.
  replace (String.length pat + String.length t - String.length pat)%nat
    with (String.length t) by lia.
  apply substring_whole.
Qed.

(** ** Reversal and trimming *)

Lemma rev_app_spec s t :
  String.rev_app s t = (String.rev s ++ t)%string.
Proof.
  unfold String.rev. revert t.
  induction s as [|c s IH]; intros t; [reflexivity |].
  cbn [String.rev_app]. rewrite (IH (String c t)), (IH (String c "")).
  now rewrite append_assoc.
Qed.

Lemma rev_cons c s : String.rev (String c s) = (String.rev s ++ String c "")%string.
Proof. unfold String.rev at 1. cbn [String.rev_app]. apply rev_app_spec. Qed.

Lemma rev_append s t :
  String.rev (s ++ t)%string = (String.rev t ++ String.rev s)%string.
Proof.
  induction s as [|c s IH]; [now rewrite append_nil_r |].
  change (String.rev (String c (s ++ t)%string)
          = (String.rev t ++ String.rev (String c s))%string).
  now rewrite !rev_cons, IH, append_assoc.
Qed.

Lemma rev_involutive s : String.rev (String.rev s) = s.
Proof.
  induction s as [|c s IH]; [reflexivity |].
  now rewrite rev_cons, rev_append, IH.
Qed.

Lemma every_char_rev P s : every_char P (String.rev s) = every_char P s.
Proof.
  induction s as [|c s IH]; [reflexivity |].
  rewrite rev_cons, every_char_append, IH. cbn.
  now rewrite andb_true_r, andb_comm.
Qed.

(** A string that does not start with white space. *)
Definition starts_clean (s : string) : bool :=
  match s with
  | String c _ => negb (JS.is_space c)
  | EmptyString => true
  end.

Lemma trim_start_clean s : starts_clean (JS.trim_start s) = true.
Proof.
  induction s as [|c s IH]; [reflexivity |]. cbn [JS.trim_start].
  destruct (JS.is_space c) eqn:Hc; [exact IH |]. cbn. now rewrite Hc.
Qed.

Lemma trim_start_id s : starts_clean s = true -> JS.trim_start s = s.
Proof.
  destruct s as [|c s]; [reflexivity |]. cbn.
  now intros ->%negb_true_iff.
Qed.

Lemma trim_start_chars P s :
  every_char P s = true -> every_char P (JS.trim_start s) = true.
Proof.
  induction s as [|c s IH]; [trivial |]. cbn [JS.trim_start].
  destruct (JS.is_space c); [| trivial]. cbn.
  rewrite andb_true_iff. intros [_ Hs]. auto.
Qed.

Lemma trim_start_empty s :
  JS.trim_start s = "" <-> every_char JS.is_space s = true.
Proof.
  induction s as [|c s IH]; [easy |]. cbn [JS.trim_start every_char].
  destruct (JS.is_space c); cbn; [exact IH | easy].
Qed.

(** Trimming the start of a string leaves its end as it is. *)
Lemma trim_start_end s :
  starts_clean (String.rev s) = true ->
  starts_clean (String.rev (JS.trim_start s)) = true.
Proof.
  induction s as [|c s IH]; [trivial |]. cbn [JS.trim_start].
  destruct (JS.is_space c) eqn:Hc; [| trivial].
  rewrite rev_cons. intros H. apply IH.
  destruct (String.rev s) as [|d r]; [| exact H].
  change (negb (JS.is_space c) = true) in H. now rewrite Hc in H.
Qed.

Lemma trim_chars P s :
  every_char P s = true -> every_char P (JS.trim s) = true.
Proof.
  intros H. unfold JS.trim.
  rewrite every_char_rev. apply trim_start_chars.
  rewrite every_char_rev. now apply trim_start_chars.
Qed.

Lemma trim_empty s :
  JS.trim s = "" <-> every_char JS.is_space s = true.
Proof.
  unfold JS.trim. split.
  - intros H. apply (f_equal String.rev) in H.
    rewrite rev_involutive in H. cbn in H.
    apply trim_start_empty in H. rewrite every_char_rev in H.
    pose proof (trim_start_clean s) as Hc.
    destruct (JS.trim_start s) as [|c t] eqn:Et.
    + now apply trim_start_empty.
    + cbn in H, Hc. apply andb_true_iff in H as [H _].
      now rewrite H in Hc.
  - intros H. apply trim_start_empty in H. now rewrite H.
Qed.

(** A string with white space neither at its start nor at its end. *)
Definition trimmed (s : string) : Prop :=
  starts_clean s = true /\ starts_clean (String.rev s) = true.

Lemma trim_trimmed s : trimmed (JS.trim s).
Proof.
  unfold trimmed, JS.trim. rewrite rev_involutive. split.
  - pose proof (trim_start_end (String.rev (JS.trim_start s))) as H.
    rewrite rev_involutive in H. apply H, trim_start_clean.
  - apply trim_start_clean.
Qed.

Lemma trimmed_trim s : trimmed s -> JS.trim s = s.
Proof.
  intros [Hs He]. unfold JS.trim.
  now rewrite (trim_start_id s Hs), (trim_start_id _ He), rev_involutive.
Qed.

End StringFacts.

(* ===================================================================== *)
(** * Splitting text                                                      *)
(* ===================================================================== *)

Module TextFacts.
Import Text StringFacts.

Definition is_not (sep : ascii) (c : ascii) : bool := negb (Ascii.eqb c sep).

(** ** Splitting *)

Lemma split_not_nil sep s : split sep s <> [].
Proof.
  destruct s as [|c s]; cbn; [discriminate |].
  destruct (Ascii.eqb c sep); [discriminate |].
  destruct (split sep s); discriminate.
Qed.

Lemma split_pieces sep s :
  Forall (fun piece => every_char (is_not sep) piece = true) (split sep s).
Proof.
  induction s as [|c s IH]; cbn; [repeat constructor |].
  destruct (Ascii.eqb c sep) eqn:Hc; [constructor; [reflexivity | exact IH] |].
  destruct (split sep s) as [|piece rest]; [repeat constructor; cbn |].
  - unfold is_not. now rewrite Hc.
  - apply Forall_cons in IH as [Hp Hrest]. constructor; [| exact Hrest].
    cbn. unfold is_not at 1. now rewrite Hc, Hp.
Qed.

Lemma split_whole sep s :
  every_char (is_not sep) s = true -> split sep s = [s].
Proof.
  induction s as [|c s IH]; [reflexivity |]. cbn.
  rewrite andb_true_iff. unfold is_not at 1. intros [Hc Hs].
  apply negb_true_iff in Hc. now rewrite Hc, (IH Hs).
Qed.

Lemma split_append sep s rest :
  every_char (is_not sep) s = true ->
  split sep (s ++ String sep rest)%string = s :: split sep rest.
Proof.
  induction s as [|c s IH].
  - intros _. change (split sep (String sep rest) = "" :: split sep rest).
    cbn. now rewrite Ascii.eqb_refl.
  - cbn [every_char]. rewrite andb_true_iff. unfold is_not at 1.
    intros [Hc Hs]. apply negb_true_iff in Hc.
    change (split sep (String c (s ++ String sep rest)%string)
            = String c s :: split sep rest).
    cbn [split]. now rewrite Hc, (IH Hs).
Qed.

Lemma split_concat sep (xs : list string) :
  xs <> [] ->
  Forall (fun x => every_char (is_not sep) x = true) xs ->
  split sep (String.concat (String sep "") xs) = xs.
Proof.
  intros Hne Hall. induction Hall as [|x xs Hx Hxs IH]; [congruence |].
  destruct xs as [|y ys]; [now apply split_whole |].
  change (split sep (x ++ (String sep "" ++ String.concat (String sep "") (y :: ys)))%string
          = x :: y :: ys).
  change (String sep "" ++ ?t)%string with (String sep t).
  rewrite split_append by exact Hx. f_equal. now apply IH.
Qed.

End TextFacts.

(* ===================================================================== *)
(** * Slugs                                                               *)
(* ===================================================================== *)

Module SlugFacts.
Import Slug StringFacts.

(** No two hyphens in a row. *)
Fixpoint single_hyphens (s : string) : bool :=
  match s with
  | EmptyString => true
  | String c s' =>
      match s' with
      | EmptyString => true
      | String d _ => negb (is_hyphen c && is_hyphen d) && single_hyphens s'
      end
  end.

Definition starts_with_hyphen (s : string) : bool :=
  match s with
  | String c _ => is_hyphen c
  | EmptyString => false
  end.

(** The characters of a slug. *)
Definition slug_char (c : ascii) : bool := is_lower_or_digit c || is_hyphen c.

(** A character whose lower-case form is a digit or a letter from [a]
    to [z]. *)
Definition is_alnum (c : ascii) : bool := is_lower_or_digit (JS.lower_char c).

Lemma hyphen_is_minus c : is_hyphen c = true -> c = "-"%char.
Proof. unfold is_hyphen. now rewrite Ascii.eqb_eq. Qed.

Lemma hyphen_not_alnum c : is_hyphen c = true -> is_lower_or_digit c = false.
Proof. intros ->%hyphen_is_minus. reflexivity. Qed.

Lemma space_not_alnum c : is_space c = true -> is_lower_or_digit c = false.
Proof.
  unfold is_space. rewrite orb_true_iff, Ascii.eqb_eq. intros [H | ->].
  - destruct c as [[] [] [] [] [] [] [] []]; cbn in H; try discriminate;
      reflexivity.
  - reflexivity.
Qed.

Lemma space_not_hyphen c : is_space c = true -> is_hyphen c = false.
Proof.
  unfold is_space. rewrite orb_true_iff, Ascii.eqb_eq. intros [H | ->].
  - destruct c as [[] [] [] [] [] [] [] []]; cbn in H; try discriminate;
      reflexivity.
  - reflexivity.
Qed.

(** ** What each step of [slugify] establishes *)

Lemma remove_special_chars s :
  every_char (fun c => is_lower_or_digit c || is_space c || is_hyphen c)
    (remove_special s) = true.
Proof.
  induction s as [|c s IH]; cbn; [reflexivity |].
  destruct (is_lower_or_digit c || is_space c || is_hyphen c) eqn:Hc;
    cbn; [now rewrite Hc |]; exact IH.
Qed.

Lemma squeeze_space_chars b s :
  every_char (fun c => is_lower_or_digit c || is_space c || is_hyphen c) s
  = true ->
  every_char slug_char (squeeze is_space b s) = true.
Proof.
  revert b. induction s as [|c s IH]; intros b; cbn; [reflexivity |].
  rewrite andb_true_iff. intros [Hc Hs].
  destruct (is_space c) eqn:Hsp.
  - destruct b; cbn [every_char];
      [apply IH; exact Hs | rewrite IH by exact Hs; reflexivity].
  - cbn [every_char]. rewrite IH by exact Hs. unfold slug_char.
    rewrite orb_false_r in Hc. now rewrite Hc.
Qed.

Lemma squeeze_chars class b s :
  every_char slug_char s = true ->
  every_char slug_char (squeeze class b s) = true.
Proof.
  revert b. induction s as [|c s IH]; intros b; cbn; [reflexivity |].
  rewrite andb_true_iff. intros [Hc Hs].
  destruct (class c); [destruct b |]; cbn; rewrite ?IH by exact Hs;
    rewrite ?Hc; auto.
Qed.

Lemma squeeze_hyphen_single b s :
  single_hyphens (squeeze is_hyphen b s) = true
  /\ (b = true -> starts_with_hyphen (squeeze is_hyphen b s) = false).
Proof.
  revert b. induction s as [|c s IH]; intros b; cbn; [auto |].
  destruct (is_hyphen c) eqn:Hc.
  - destruct b; [apply IH |]. split; [| discriminate].
    destruct (IH true) as [Hs Hstart]. specialize (Hstart eq_refl).
    cbn. destruct (squeeze is_hyphen true s) as [|d r]; [reflexivity |].
    cbn in Hstart. rewrite Hstart. cbn. exact Hs.
  - split; [| intros _; cbn; exact Hc].
    destruct (IH false) as [Hs _]. cbn.
    destruct (squeeze is_hyphen false s) as [|d r]; [reflexivity |].
    rewrite Hc. cbn. exact Hs.
Qed.

Lemma strip_leading_chars P s :
  every_char P s = true -> every_char P (strip_leading s) = true.
Proof.
  destruct s as [|c s]; cbn; [trivial |].
  rewrite andb_true_iff. intros [Hc Hs].
  destruct (is_hyphen c); cbn; [exact Hs | now rewrite Hc].
Qed.

Lemma single_hyphens_tail c s :
  single_hyphens (String c s) = true -> single_hyphens s = true.
Proof.
  cbn. destruct s; [reflexivity |]. rewrite andb_true_iff. tauto.
Qed.

Lemma strip_leading_single s :
  single_hyphens s = true ->
  single_hyphens (strip_leading s) = true
  /\ starts_with_hyphen (strip_leading s) = false.
Proof.
  destruct s as [|c s]; [auto |]. intros Hs. cbn [strip_leading].
  destruct (is_hyphen c) eqn:Hc.
  - split; [now apply single_hyphens_tail in Hs |].
    destruct s as [|d r]; [reflexivity |]. cbn in Hs |- *.
    rewrite Hc in Hs. cbn in Hs. apply andb_true_iff in Hs as [Hd _].
    now apply negb_true_iff in Hd.
  - split; [exact Hs | exact Hc].
Qed.

Lemma strip_trailing_chars P s :
  every_char P s = true -> every_char P (strip_trailing s) = true.
Proof.
  induction s as [|c s IH]; [trivial |]. cbn [every_char strip_trailing].
  rewrite andb_true_iff. intros [Hc Hs].
  destruct s as [|d r].
  - destruct (is_hyphen c); cbn; [reflexivity | now rewrite Hc].
  - cbn [every_char]. rewrite Hc. cbn. now apply IH.
Qed.

Lemma strip_trailing_single s :
  single_hyphens s = true -> single_hyphens (strip_trailing s) = true.
Proof.
  induction s as [|c s IH]; [trivial |]. intros Hs.
  cbn [strip_trailing]. destruct s as [|d r].
  - destruct (is_hyphen c); reflexivity.
  - pose proof (single_hyphens_tail _ _ Hs) as Ht. specialize (IH Ht).
    cbn in Hs. apply andb_true_iff in Hs as [Hcd _].
    remember (strip_trailing (String d r)) as t eqn:Et.
    cbn [single_hyphens]. destruct t as [|e t']; [reflexivity |].
    rewrite IH, andb_true_r.
    assert (e = d) as ->; [| exact Hcd].
    cbn in Et. destruct r; [destruct (is_hyphen d) |]; congruence.
Qed.

Lemma strip_trailing_start s :
  starts_with_hyphen s = false ->
  starts_with_hyphen (strip_trailing s) = false.
Proof.
  destruct s as [|c s]; [trivial |]. cbn. intros Hc.
  destruct s; [now rewrite Hc | exact Hc].
Qed.

Lemma substring_chars P n s :
  every_char P s = true -> every_char P (String.substring 0 n s) = true.
Proof.
  revert s. induction n as [|n IH]; intros [|c s]; cbn; trivial.
  rewrite !andb_true_iff. intros [Hc Hs]. auto.
Qed.

Lemma substring_single n s :
  single_hyphens s = true -> single_hyphens (String.substring 0 n s) = true.
Proof.
  revert s. induction n as [|n IH]; intros [|c s]; cbn; trivial.
  change (single_hyphens (String c s) = true ->
          single_hyphens (String c (String.substring 0 n s)) = true).
  intros Hs. pose proof (single_hyphens_tail _ _ Hs) as Ht.
  specialize (IH _ Ht). cbn [String.substring].
  remember (String.substring 0 n s) as t eqn:Et.
  cbn [single_hyphens]. destruct t as [|e t']; [reflexivity |].
  rewrite IH, andb_true_r.
  destruct s as [|d r]; [destruct n; discriminate |].
  destruct n; [discriminate |]. cbn in Et. injection Et as -> _.
  cbn in Hs. now apply andb_true_iff in Hs as [Hcd _].
Qed.

Lemma substring_start n s :
  starts_with_hyphen s = false ->
  starts_with_hyphen (String.substring 0 n s) = false.
Proof. destruct n, s; cbn; trivial. Qed.

Lemma substring_length n s : (String.length (String.substring 0 n s) <= n)%nat.
Proof.
  revert s. induction n as [|n IH]; intros [|c s]; cbn; try lia.
  specialize (IH s). lia.
Qed.

Lemma prefix_hyphen c s t :
  String.prefix (String "-"%char t) (String c s)
  = is_hyphen c && String.prefix t s.
Proof.
  cbn [String.prefix]. unfold is_hyphen.
  destruct (ascii_dec "-"%char c) as [<- | Hne]; [reflexivity |].
  symmetry. apply andb_false_iff. left. apply Ascii.eqb_neq. congruence.
Qed.

Lemma single_hyphens_includes s :
  single_hyphens s = true -> JS.includes s "--" = false.
Proof.
  induction s as [|c s IH]; [reflexivity |]. intros Hs.
  pose proof (single_hyphens_tail _ _ Hs) as Ht.
  cbn [JS.includes]. rewrite (IH Ht), orb_false_r, prefix_hyphen.
  destruct s as [|d r]; [apply andb_false_r |].
  rewrite prefix_hyphen.
  replace (String.prefix "" r) with true by (destruct r; reflexivity).
  rewrite andb_true_r.
  cbn in Hs. apply andb_true_iff in Hs as [Hcd _].
  now apply negb_true_iff in Hcd.
Qed.

Lemma no_leading_hyphen s :
  starts_with_hyphen s = false -> JS.startsWith s "-" = false.
Proof.
  destruct s as [|c s]; [reflexivity |]. unfold JS.startsWith.
  rewrite prefix_hyphen. cbn [starts_with_hyphen]. intros ->. reflexivity.
Qed.

(** X1.  Whatever the title, its slug has at most 50 characters, each a
    lower-case ASCII letter, a digit or a hyphen; it does not start with
    a hyphen and has no two hyphens in a row. *)
Theorem slugify_shape (title : string) :
  (String.length (slugify title) <= 50)%nat
  /\ every_char slug_char (slugify title) = true
  /\ JS.startsWith (slugify title) "-" = false
  /\ JS.includes (slugify title) "--" = false.
Proof.
  unfold slugify.
  set (s1 := squeeze is_space false (remove_special (JS.toLowerCase title))).
  assert (H1 : every_char slug_char s1 = true)
    by apply squeeze_space_chars, remove_special_chars.
  destruct (squeeze_hyphen_single false s1) as [Hsingle _].
  destruct (strip_leading_single _ Hsingle) as [Hsingle' Hstart].
  split; [apply substring_length |]. split; [| split].
  - now apply substring_chars, strip_trailing_chars, strip_leading_chars,
      squeeze_chars.
  - now apply no_leading_hyphen, substring_start, strip_trailing_start.
  - now apply single_hyphens_includes, substring_single,
      strip_trailing_single.
Qed.

(** ** Titles with and without letters or digits *)

Lemma lower_char_lower c :
  is_lower_or_digit c = true -> is_alnum c = true.
Proof.
  destruct c as [[] [] [] [] [] [] [] []]; vm_compute; trivial.
Qed.

Lemma some_alnum_kept s :
  some_char is_lower_or_digit (remove_special (JS.toLowerCase s))
  = some_char is_alnum s.
Proof.
  induction s as [|c s IH]; [reflexivity |].
  cbn [JS.toLowerCase remove_special some_char]. unfold is_alnum at 1.
  destruct (is_lower_or_digit (JS.lower_char c)) eqn:Hc.
  - cbn [orb some_char]. now rewrite Hc.
  - cbn [orb].
    destruct (is_space (JS.lower_char c) || is_hyphen (JS.lower_char c));
      cbn [some_char]; rewrite ?Hc; exact IH.
Qed.

Lemma squeeze_keeps class b s :
  (forall c, class c = true -> is_lower_or_digit c = false) ->
  some_char is_lower_or_digit (squeeze class b s)
  = some_char is_lower_or_digit s.
Proof.
  intros Hclass. revert b.
  induction s as [|c s IH]; intros b; [reflexivity |]. cbn.
  destruct (class c) eqn:Hc.
  - rewrite (Hclass c Hc). destruct b; cbn; apply IH.
  - cbn. now rewrite IH.
Qed.

Lemma strip_leading_keeps s :
  some_char is_lower_or_digit (strip_leading s)
  = some_char is_lower_or_digit s.
Proof.
  destruct s as [|c s]; [reflexivity |]. cbn.
  destruct (is_hyphen c) eqn:Hc; [| reflexivity].
  now rewrite (hyphen_not_alnum c Hc).
Qed.

Lemma strip_trailing_keeps s :
  some_char is_lower_or_digit (strip_trailing s)
  = some_char is_lower_or_digit s.
Proof.
  induction s as [|c s IH]; [reflexivity |]. cbn [strip_trailing].
  destruct s as [|d r].
  - destruct (is_hyphen c) eqn:Hc; [| reflexivity].
    cbn. now rewrite (hyphen_not_alnum c Hc).
  - cbn [some_char] in *. now rewrite IH.
Qed.

Lemma squeeze_run class s :
  every_char class s = true -> squeeze class true s = "".
Proof.
  induction s as [|c s IH]; cbn; [trivial |].
  rewrite andb_true_iff. intros [-> Hs]. auto.
Qed.

Lemma squeeze_all class s :
  every_char class s = true ->
  squeeze class false s = "" \/ squeeze class false s = "-".
Proof.
  destruct s as [|c s]; cbn; [auto |].
  rewrite andb_true_iff. intros [-> Hs]. right.
  now rewrite squeeze_run.
Qed.

Lemma squeeze_space_rest b s :
  every_char (fun c => is_space c || is_hyphen c) s = true ->
  every_char is_hyphen (squeeze is_space b s) = true.
Proof.
  revert b. induction s as [|c s IH]; intros b; cbn; [reflexivity |].
  rewrite andb_true_iff. intros [Hc Hs].
  destruct (is_space c) eqn:Hsp.
  - destruct b; cbn [every_char];
      [apply IH; exact Hs | rewrite IH by exact Hs; reflexivity].
  - cbn [every_char orb] in *. now rewrite Hc, IH.
Qed.

Lemma remove_special_rest s :
  some_char is_lower_or_digit (remove_special s) = false ->
  every_char (fun c => is_space c || is_hyphen c) (remove_special s) = true.
Proof.
  induction s as [|c s IH]; cbn [remove_special]; [reflexivity |].
  destruct (is_lower_or_digit c) eqn:Hc; cbn [orb].
  - cbn [some_char]. now rewrite Hc.
  - destruct (is_space c || is_hyphen c) eqn:Hk; [| exact IH].
    cbn [some_char every_char]. rewrite Hc, Hk. exact IH.
Qed.

Lemma lowered_alnum s :
  some_char is_lower_or_digit (JS.toLowerCase s) = some_char is_alnum s.
Proof.
  induction s as [|c s IH]; [reflexivity |].
  cbn [JS.toLowerCase some_char]. now rewrite IH.
Qed.

(** X2.  [createBranchSlug] never answers the empty string.  For a title
    whose lower-case form has no digit and no letter from [a] to [z] it
    answers ['task']; for every other title it answers the title's
    slug. *)
Theorem createBranchSlug_fallback (title : string) :
  createBranchSlug title <> ""
  /\ (some_char is_lower_or_digit (JS.toLowerCase title) = false ->
      createBranchSlug title = "task")
  /\ (some_char is_lower_or_digit (JS.toLowerCase title) = true ->
      createBranchSlug title = slugify title).
Proof.
  rewrite lowered_alnum. unfold createBranchSlug.
  assert (Hsome : some_char is_alnum title = true -> slugify title <> "").
  { intros Hal. unfold slugify.
    set (s := strip_trailing _).
    assert (Hs : some_char is_lower_or_digit s = true).
    { unfold s.
      rewrite strip_trailing_keeps, strip_leading_keeps,
        (squeeze_keeps _ _ _ hyphen_not_alnum),
        (squeeze_keeps _ _ _ space_not_alnum), some_alnum_kept.
      exact Hal. }
    destruct s as [|c s']; [discriminate | discriminate]. }
  assert (Hnone : some_char is_alnum title = false -> slugify title = "").
  { intros Hal. unfold slugify.
    rewrite <- some_alnum_kept in Hal.
    apply remove_special_rest, (squeeze_space_rest false) in Hal.
    destruct (squeeze_all is_hyphen _ Hal) as [-> | ->]; reflexivity. }
  destruct (some_char is_alnum title) eqn:Hal.
  - specialize (Hsome eq_refl). apply String.eqb_neq in Hsome as Hne.
    rewrite Hne. repeat split; [exact Hsome | discriminate].
  - rewrite (Hnone eq_refl). cbn. repeat split; discriminate.
Qed.

End SlugFacts.

(* ===================================================================== *)
(** * Truncation                                                          *)
(* ===================================================================== *)

Module LoggerFacts.
Import Logger.

Lemma length_substring_0 n s :
  String.length (String.substring 0 n s) = Nat.min n (String.length s).
Proof.
  revert s. induction n as [|n IH]; intros [|c s]; cbn; try reflexivity.
  now rewrite IH.
Qed.

(** X3.  With a limit of at least 3, [truncate] answers a string of at
    most [maxLen] characters: the string itself when it fits, and
    otherwise its first [maxLen - 3] characters followed by three dots,
    which is exactly [maxLen] characters long. *)
Theorem truncate_within_limit (str : string) (maxLen : Z) :
  3 <= maxLen ->
  Z.of_nat (String.length (truncate str maxLen)) <= maxLen
  /\ (Z.of_nat (String.length str) <= maxLen -> truncate str maxLen = str)
  /\ (maxLen < Z.of_nat (String.length str) ->
      truncate str maxLen
      = (String.substring 0 (Z.to_nat (maxLen - 3)) str ++ "...")%string
      /\ Z.of_nat (String.length (truncate str maxLen)) = maxLen).
Proof.
  intros Hmax. unfold truncate, substring_to.
  destruct (Z.of_nat (String.length str) <=? maxLen) eqn:Hfit.
  - apply Z.leb_le in Hfit. split; [exact Hfit |].
    split; [reflexivity | lia].
  - apply Z.leb_gt in Hfit.
    assert (Hlen : Z.of_nat (String.length
                     (String.substring 0 (Z.to_nat (maxLen - 3)) str ++ "...")%string)
                   = maxLen).
    { rewrite StringFacts.length_append, length_substring_0. cbn [String.length]. lia. }
    split; [lia |]. split; [lia |]. intros _. split; [reflexivity | exact Hlen].
Qed.

Lemma truncate_within_limit_witness :
  Z.of_nat (String.length (truncate "Refactor the event handler" 10)) <= 10
  /\ truncate "Refactor the event handler" 10 = "Refacto...".
Proof.
  destruct (truncate_within_limit "Refactor the event handler" 10)
    as (Hle & _ & Hcut); [lia |].
  split; [exact Hle |]. destruct Hcut as [-> _]; [cbn; lia | reflexivity].
Defined.

End LoggerFacts.

(* ===================================================================== *)
(** * Reading the environment                                             *)
(* ===================================================================== *)

Module ConfigParseFacts.
Import ConfigParse StringFacts TextFacts Text.

(** What holds of an entry of a list of names: it is not empty, neither
    its first nor its last character is white space, and it contains no
    comma. *)
Definition clean_entry (entry : string) : Prop :=
  entry <> ""
  /\ trimmed entry
  /\ every_char (is_not ","%char) entry = true.

(** X4.  Every entry of the list that [parseStringArray] reads from a
    variable is non-empty, has no white space at its start or end and
    contains no comma. *)
Theorem parseStringArray_entries (value : option string) :
  Forall clean_entry (parseStringArray value).
Proof.
  destruct value as [v|]; cbn; [| constructor].
  destruct (String.eqb v "" || String.eqb (JS.trim v) ""); [constructor |].
  apply Forall_forall. intros entry Hin.
  apply list_elem_of_In, List.filter_In in Hin as [Hin Hlen].
  apply List.in_map_iff in Hin as (piece & <- & Hpiece).
  split; [| split].
  - intros Hempty. rewrite Hempty in Hlen. discriminate.
  - apply trim_trimmed.
  - apply trim_chars.
    pose proof (split_pieces ","%char v) as Hall.
    rewrite Forall_forall in Hall. now apply Hall, list_elem_of_In.
Qed.

(** X5.  Writing a list of entries with commas between them and reading
    it back gives the list, provided each entry is non-empty, has no
    white space at its start or end and contains no comma. *)
Theorem parseStringArray_round_trip (entries : list string) :
  Forall clean_entry entries ->
  parseStringArray (Some (String.concat "," entries)) = entries.
Proof.
  intros Hall. destruct entries as [|x xs]; [reflexivity |].
  set (v := String.concat "," (x :: xs)).
  assert (Hsplit : split ","%char v = x :: xs).
  { apply split_concat; [discriminate |].
    eapply Forall_impl; [exact Hall |]. now intros ? (_ & _ & ?). }
  assert (Hfirst : exists c r t, x = String c r /\ v = String c t).
  { apply Forall_cons in Hall as [(Hx & _) _].
    destruct x as [|c r]; [congruence |]. exists c, r. unfold v.
    destruct xs; cbn [String.concat]; eauto. }
  destruct Hfirst as (c & r & t & Hxc & Hv).
  assert (Hclean : JS.is_space c = false).
  { apply Forall_cons in Hall as [(_ & [Hs _] & _) _].
    rewrite Hxc in Hs. now apply negb_true_iff in Hs. }
  unfold parseStringArray.
  assert (Hv1 : String.eqb v "" = false) by now rewrite Hv.
  assert (Hv2 : String.eqb (JS.trim v) "" = false).
  { apply String.eqb_neq. intros Hempty. apply trim_empty in Hempty.
    rewrite Hv in Hempty. cbn in Hempty. now rewrite Hclean in Hempty. }
  rewrite Hv1, Hv2, Hsplit. cbn [orb].
  clear -Hall. induction Hall as [|y ys (Hy & Ht & _) _ IH]; [reflexivity |].
  cbn [map List.filter]. rewrite (trimmed_trim y Ht).
  destruct y as [|d y']; [congruence |].
  change (0 <? String.length (String d y'))%nat with true. cbv iota.
  now rewrite IH.
Qed.

Lemma parseStringArray_round_trip_witness :
  parseStringArray (Some "alice,bob-2,carol") = ["alice"; "bob-2"; "carol"].
Proof.
  apply (parseStringArray_round_trip ["alice"; "bob-2"; "carol"]).
  repeat constructor; discriminate.
Defined.

(** ** The repository name *)

Lemma no_slash_to_end_spec s :
  no_slash_to_end s = true ->
  s <> "" /\ every_char (is_not "/"%char) s = true.
Proof.
  induction s as [|c s IH]; [discriminate |]. cbn.
  rewrite andb_true_iff. intros [Hc Hs]. split; [discriminate |].
  unfold is_not at 1. rewrite Hc. destruct s; [reflexivity | now apply IH].
Qed.

Lemma owner_slash_repo_spec seen s :
  owner_slash_repo seen s = true ->
  exists owner name,
    s = (owner ++ String "/"%char name)%string
    /\ (seen = false -> owner <> "")
    /\ every_char (is_not "/"%char) owner = true
    /\ name <> ""
    /\ every_char (is_not "/"%char) name = true.
Proof.
  revert seen. induction s as [|c s IH]; intros seen; [discriminate |].
  cbn. destruct (Ascii.eqb c "/"%char) eqn:Hc.
  - apply Ascii.eqb_eq in Hc as ->. rewrite andb_true_iff.
    intros [-> [Hne Hall]%no_slash_to_end_spec].
    exists "", s. repeat split; [discriminate | assumption..].
  - intros (owner & name & -> & _ & Ho & Hn)%IH.
    exists (String c owner), name. repeat split; try tauto; [discriminate |].
    cbn. unfold is_not at 1. now rewrite Hc, Ho.
Qed.

(** X6.  For a repository name of the form the configuration schema
    demands, [getRepoInfo] answers the owner and the name: both are
    defined, non-empty and free of slashes, and joined by a slash they
    give the configured string back. *)
Theorem getRepoInfo_round_trip (config : ConfigParse.t) :
  repo_pattern (repo (github config)) = true ->
  exists owner name,
    getRepoInfo config = (Some owner, Some name)
    /\ repo (github config) = (owner ++ "/" ++ name)%string
    /\ owner <> "" /\ name <> ""
    /\ every_char (is_not "/"%char) owner = true
    /\ every_char (is_not "/"%char) name = true.
Proof.
  intros (owner & name & Hrepo & Ho & Hoc & Hn & Hnc)%owner_slash_repo_spec.
  exists owner, name. unfold getRepoInfo. rewrite Hrepo.
  rewrite (split_append _ _ _ Hoc), (split_whole _ _ Hnc).
  repeat split; auto.
Qed.

(** A configuration for the repository of the orchestrator itself. *)
Definition example_config : ConfigParse.t :=
  {| github :=
       {| token := "ghp_example";
          repo := "BuffMcBigHuge/opencode-orchestrator";
          username := "orchestrator-bot";
          allowedUsers := [] |};
     scheduler := {| pollIntervalMs := 300000; maxConcurrentTasks := 2 |};
     opencode :=
       {| serverUrl := "http://localhost:4096"; projectPath := "/repo";
          worktreeDir := ".worktrees" |};
     testing :=
       {| ralphLoopEnabled := true; ralphLoopMaxIterations := 100;
          playwrightEnabled := true; minTestCoverage := 80 |};
     quality := {| enforceGates := true; maxAttempts := 3 |};
     taskState :=
       {| checkpointIntervalMinutes := 30; worktreeRetentionDays := 7;
          autoCleanWorktrees := false |};
     cicd := {| waitTimeoutMinutes := 10; requirePass := true |};
     documentation :=
       {| autoGenerate := true; autoUpdateReadme := true;
          framework := "typedoc" |};
     logging :=
       {| level := "info"; shareSessions := true;
          progressUpdateIntervalMinutes := 10 |} |}.

Lemma getRepoInfo_round_trip_witness :
  exists owner name,
    getRepoInfo example_config = (Some owner, Some name)
    /\ repo (github example_config) = (owner ++ "/" ++ name)%string
    /\ owner <> "" /\ name <> ""
    /\ every_char (is_not "/"%char) owner = true
    /\ every_char (is_not "/"%char) name = true.
Proof.
  apply (getRepoInfo_round_trip example_config). reflexivity.
Defined.

(** ** Numbers *)

Lemma digit_char (d : N) :
  (d < 10)%N -> digit (pretty_N_char d) = Some (Z.of_N d).
Proof.
  intros Hd.
  destruct d as [|p]; [reflexivity |].
  do 4 (destruct p as [p|p|]; try reflexivity; try lia).
Qed.

Lemma digits_pretty_go (x : N) :
  forall (s : string) (acc : Z),
  exists k : Z,
    0 <= k
    /\ digits acc (pretty_N_go x s) = digits (acc * 10 ^ k + Z.of_N x) s.
Proof.
  induction (N.lt_wf_0 x) as [x _ IH]. intros s acc.
  destruct (decide (x = 0%N)) as [-> | Hx].
  - exists 0. rewrite pretty_N_go_0. split; [lia |]. f_equal. lia.
  - assert (Hpos : (0 < x)%N) by lia.
    rewrite (pretty_N_go_step x s Hpos).
    assert (Hlt : (x `div` 10 < x)%N) by (apply N.div_lt; lia).
    destruct (IH _ Hlt (String (pretty_N_char (x `mod` 10)) s) acc)
      as (k & Hk & ->).
    exists (k + 1). split; [lia |]. cbn [digits].
    rewrite digit_char by (apply N.mod_lt; lia). f_equal.
    rewrite Z.pow_add_r by lia.
    pose proof (N.div_mod x 10 ltac:(lia)) as Hdm.
    rewrite N2Z.inj_div, N2Z.inj_mod in *.
    pose proof (Z.div_mod (Z.of_N x) 10 ltac:(lia)). change (Z.of_N 10) with 10.
    lia.
Qed.

Lemma pretty_go_starts_with_digit (x : N) :
  forall s : string,
    (0 < x)%N ->
    exists c t d, pretty_N_go x s = String c t /\ digit c = Some d.
Proof.
  induction (N.lt_wf_0 x) as [x _ IH]. intros s Hpos.
  rewrite (pretty_N_go_step x s Hpos).
  destruct (decide (x `div` 10 = 0)%N) as [-> | Hq].
  - rewrite pretty_N_go_0. eexists _, _, _. split; [reflexivity |].
    apply digit_char. apply N.mod_lt. discriminate.
  - apply IH; [apply N.div_lt; lia | now apply N.neq_0_lt_0].
Qed.

Lemma digit_not_space c d :
  digit c = Some d ->
  JS.is_space c = false
  /\ Ascii.eqb c "-" = false /\ Ascii.eqb c "+" = false.
Proof.
  destruct c as [[] [] [] [] [] [] [] []]; try discriminate;
    repeat split; reflexivity.
Qed.

Lemma parseInt_digits c t d :
  digit c = Some d ->
  parseInt (String c t) = Some (nearest_double (digits 0 (String c t)))
  /\ parseInt (String "-"%char (String c t))
     = Some (nearest_double (- digits 0 (String c t))).
Proof.
  intros Hd. destruct (digit_not_space c d Hd) as (Hsp & H1 & H2).
  unfold parseInt. cbn [JS.trim_start].
  change (JS.is_space "-") with false. cbv iota.
  rewrite Hsp, H1, H2. change (Ascii.eqb "-" "-") with true. cbv iota.
  now rewrite Hd.
Qed.

Lemma digits_positive (p : positive) :
  digits 0 (pretty (Npos p)) = Zpos p
  /\ exists c t d, pretty (Npos p) = String c t /\ digit c = Some d.
Proof.
  unfold pretty, pretty_N.
  destruct (decide (Npos p = 0%N)) as [|_]; [discriminate |].
  split; [| now apply pretty_go_starts_with_digit].
  destruct (digits_pretty_go (Npos p) "" 0) as (k & _ & ->).
  cbn [digits]. lia.
Qed.

Lemma parseInt_pretty (n : Z) : parseInt (pretty n) = Some (nearest_double n).
Proof.
  destruct n as [|p|p]; [reflexivity | |];
    destruct (digits_positive p) as [Hval (c & t & d & Hshape & Hd)];
    destruct (parseInt_digits c t d Hd) as [Hplus Hminus].
  - change (pretty (Zpos p)) with (pretty (Npos p)).
    now rewrite Hshape, Hplus, <- Hshape, Hval.
  - change (pretty (Zneg p)) with (String "-"%char (pretty (Npos p))).
    now rewrite Hshape, Hminus, <- Hshape, Hval.
Qed.

Lemma nearest_double_exact (n : Z) :
  - 2 ^ 53 <= n <= 2 ^ 53 -> nearest_double n = Finite n.
Proof.
  intros Hn. unfold nearest_double.
  destruct (Z.abs n <? 2 ^ 53) eqn:Hsmall; [reflexivity |].
  apply Z.ltb_ge in Hsmall.
  assert (Hcase : n = 2 ^ 53 \/ n = - 2 ^ 53) by lia.
  destruct Hcase as [-> | ->]; reflexivity.
Qed.

(** X8.  [parseNumber] reads the decimal notation of an integer back, as
    a double holds it: exactly for every integer from -2^53 to 2^53, and
    as the nearest double for any other.  The default is not used. *)
Theorem parseNumber_round_trip (n defaultValue : Z) :
  parseNumber (Some (pretty n)) defaultValue = nearest_double n
  /\ (- 2 ^ 53 <= n <= 2 ^ 53 ->
      parseNumber (Some (pretty n)) defaultValue = Finite n).
Proof.
  unfold parseNumber. rewrite parseInt_pretty. split; [reflexivity |].
  apply nearest_double_exact.
Qed.

End ConfigParseFacts.

(* ===================================================================== *)
(** * Worktree paths and branch names                                     *)
(* ===================================================================== *)

Module ConfigFacts.
Import StringFacts.

Definition is_digit (c : ascii) : bool :=
  let n := nat_of_ascii c in ((48 <=? n) && (n <=? 57))%nat.

Lemma pretty_char_digit (d : N) : is_digit (pretty_N_char d) = true.
Proof.
  destruct d as [|p]; [reflexivity |].
  do 4 (destruct p as [p|p|]; try reflexivity).
Qed.

Lemma pretty_go_digits (x : N) :
  forall s : string,
    every_char is_digit s = true ->
    every_char is_digit (pretty_N_go x s) = true.
Proof.
  induction (N.lt_wf_0 x) as [x _ IH]. intros s Hs.
  destruct (decide (x = 0%N)) as [-> | Hx]; [now rewrite pretty_N_go_0 |].
  rewrite pretty_N_go_step by lia.
  apply IH; [apply N.div_lt; lia |].
  cbn [every_char]. now rewrite pretty_char_digit, Hs.
Qed.

Lemma pretty_N_digits (x : N) : every_char is_digit (pretty x) = true.
Proof.
  unfold pretty, pretty_N. destruct (decide (x = 0%N)); [reflexivity |].
  now apply pretty_go_digits.
Qed.

(** A decimal numeral: digits after an optional minus sign. *)
Definition numeral (s : string) : Prop :=
  exists c t, s = String c t /\ every_char is_digit t = true.

Lemma pretty_go_nonempty (y : N) :
  forall s : string, s <> "" -> pretty_N_go y s <> "".
Proof.
  induction (N.lt_wf_0 y) as [y _ IH]. intros s Hs.
  destruct (decide (y = 0%N)) as [-> | Hy]; [now rewrite pretty_N_go_0 |].
  rewrite pretty_N_go_step by lia. apply IH; [apply N.div_lt; lia |].
  discriminate.
Qed.

Lemma pretty_N_nonempty (x : N) : exists c t, pretty x = String c t.
Proof.
  destruct (pretty x) as [|c t] eqn:E; [| eauto]. exfalso.
  unfold pretty, pretty_N in E.
  destruct (decide (x = 0%N)); [discriminate |].
  rewrite pretty_N_go_step in E by lia.
  revert E. apply pretty_go_nonempty. discriminate.
Qed.

Lemma pretty_Z_numeral (n : Z) : numeral (pretty n).
Proof.
  destruct n as [|p|p].
  - exists "0"%char, "". split; reflexivity.
  - change (pretty (Zpos p)) with (pretty (Npos p)).
    destruct (pretty_N_nonempty (Npos p)) as (c & t & E).
    exists c, t. split; [exact E |].
    pose proof (pretty_N_digits (Npos p)) as H. rewrite E in H.
    cbn in H. now apply andb_true_iff in H as [_ H].
  - change (pretty (Zneg p)) with (String "-"%char (pretty (Npos p))).
    exists "-"%char, (pretty (Npos p)). split; [reflexivity |].
    apply pretty_N_digits.
Qed.

(** Two strings that start with a numeral followed by a hyphen start
    with the same numeral. *)
Lemma digits_then_hyphen (t t' s s' : string) :
  every_char is_digit t = true -> every_char is_digit t' = true ->
  (t ++ String "-"%char s)%string = (t' ++ String "-"%char s')%string ->
  t = t' /\ s = s'.
Proof.
  revert t'. induction t as [|d t IH]; intros [|d' t'] Ht Ht' E.
  - now injection E as ->.
  - change (String "-"%char s = String d' (t' ++ String "-"%char s')%string)
      in E.
    injection E as <- _. discriminate.
  - change (String d (t ++ String "-"%char s)%string = String "-"%char s')
      in E.
    injection E as -> _. discriminate.
  - change (String d (t ++ String "-"%char s)%string
            = String d' (t' ++ String "-"%char s')%string) in E.
    injection E as -> E. cbn in Ht, Ht'.
    apply andb_true_iff in Ht as [_ Ht]. apply andb_true_iff in Ht' as [_ Ht'].
    destruct (IH t' Ht Ht' E) as [-> ->]. auto.
Qed.

(** X9.  Branch names tell issues apart: two branch names are equal only
    for the same issue number and the same slug. *)
Theorem getBranchName_injective (n m : Z) (slug slug' : string) :
  Config.getBranchName n slug = Config.getBranchName m slug' ->
  n = m /\ slug = slug'.
Proof.
  unfold Config.getBranchName. intros E.
  apply (inj (String.app "ai/issue-")) in E.
  destruct (pretty_Z_numeral n) as (c & t & Hn & Ht).
  destruct (pretty_Z_numeral m) as (c' & t' & Hm & Ht').
  rewrite Hn, Hm in E.
  change (String c (t ++ String "-"%char slug)%string
          = String c' (t' ++ String "-"%char slug')%string) in E.
  injection E as -> E.
  destruct (digits_then_hyphen _ _ _ _ Ht Ht' E) as [-> ->].
  split; [| reflexivity]. apply (inj pretty). congruence.
Qed.

Lemma getBranchName_injective_witness :
  Config.getBranchName 12 "fix-parser" = "ai/issue-12-fix-parser"
  /\ (12 = 12 /\ "fix-parser" = "fix-parser").
Proof.
  split; [reflexivity |].
  apply (getBranchName_injective 12 12 "fix-parser" "fix-parser").
  reflexivity.
Defined.

Lemma path_join_cons (s : string) (rest : list string) :
  Eff.path_join (s :: rest)
  = if String.eqb s "" then Eff.path_join rest
    else if String.eqb (Eff.path_join rest) "" then s
    else (s ++ "/" ++ Eff.path_join rest)%string.
Proof. reflexivity. Qed.

Lemma path_join_under (a b : string) :
  exists prefix, forall c : string,
    c <> "" -> Eff.path_join [a; b; c] = (prefix ++ c)%string.
Proof.
  exists ((if String.eqb a "" then "" else a ++ "/")
          ++ (if String.eqb b "" then "" else b ++ "/"))%string.
  intros c Hc.
  assert (H1 : Eff.path_join [c] = c).
  { rewrite path_join_cons. apply String.eqb_neq in Hc. now rewrite Hc. }
  assert (H2 : Eff.path_join [b; c]
               = ((if String.eqb b "" then "" else b ++ "/") ++ c)%string).
  { rewrite path_join_cons, H1. apply String.eqb_neq in Hc. rewrite Hc.
    destruct (String.eqb b ""); [reflexivity | now rewrite append_assoc]. }
  assert (H3 : Eff.path_join [b; c] <> "").
  { rewrite H2. destruct (String.eqb b "") eqn:Hb; [exact Hc |].
    apply String.eqb_neq in Hb. destruct b; [congruence | discriminate]. }
  rewrite path_join_cons, H2. rewrite H2 in H3.
  apply String.eqb_neq in H3. rewrite H3.
  destruct (String.eqb a ""); [reflexivity |]. now rewrite !append_assoc.
Qed.

(** X10.  Worktree paths tell issues apart: under one configuration, the
    worktrees of two different issues have different paths. *)
Theorem getWorktreePath_injective (config : Config.t) (n m : Z) :
  Config.getWorktreePath config n = Config.getWorktreePath config m ->
  n = m.
Proof.
  unfold Config.getWorktreePath.
  destruct (path_join_under (Config.projectPath (Config.opencode config))
              (Config.worktreeDir (Config.opencode config)))
    as (prefix & Hjoin).
  rewrite !Hjoin by discriminate.
  intros E. apply (inj (String.app prefix)) in E.
  apply (inj (String.app "issue-")) in E. now apply (inj pretty) in E.
Qed.

Lemma getWorktreePath_injective_witness :
  Config.getWorktreePath Sim.config 7 = "/repo/.worktrees/issue-7"
  /\ 7 = 7.
Proof.
  split; [reflexivity |].
  apply (getWorktreePath_injective Sim.config 7 7). reflexivity.
Defined.

End ConfigFacts.

(* ===================================================================== *)
(** * The tracker client: comments, listings, order                       *)
(* ===================================================================== *)

Module ClientFacts.
Import Eff EffAccess EffFacts.

Lemma last_filter {A} (P : A -> bool) (l : list A) (x : A) :
  last (List.filter P l) = Some x ->
  exists before after,
    l = before ++ x :: after
    /\ P x = true
    /\ Forall (fun y => P y = false) after.
Proof.
  induction l as [|y l IH]; [discriminate |]. cbn [List.filter].
  destruct (P y) eqn:Hy.
  - destruct (List.filter P l) as [|z m] eqn:Hm.
    + intros [= <-]. exists [], l. repeat split; [exact Hy |].
      apply Forall_forall. intros z Hz.
      destruct (P z) eqn:Hpz; [| reflexivity].
      assert (Hin : In z (List.filter P l))
        by (apply List.filter_In; split; [now apply list_elem_of_In |
                                          exact Hpz]).
      rewrite Hm in Hin. destruct Hin.
    + intros Hlast. change (last (z :: m) = Some x) in Hlast.
      destruct (IH Hlast) as (before & after & -> & Hx & Hafter).
      exists (y :: before), after. auto.
  - intros Hlast. destruct (IH Hlast) as (before & after & -> & Hx & Hafter).
    exists (y :: before), after. auto.
Qed.

Section WithEnv.
Context {E : Env}.
Variable config : Config.t.

Definition is_human (c : Comment.t) : bool :=
  negb (String.eqb (Comment.author c) (GitHub.this_username config)).

Lemma latest_human_comment (issue : Issue.t) :
  match GitHub.getLatestHumanComment config issue with
  | Some c =>
      exists before after,
        Issue.comments issue = before ++ c :: after
        /\ Comment.author c <> GitHub.this_username config
        /\ Forall (fun later =>
                     Comment.author later = GitHub.this_username config)
             after
  | None =>
      Forall (fun c => Comment.author c = GitHub.this_username config)
        (Issue.comments issue)
  end.
Proof.
  unfold GitHub.getLatestHumanComment. fold is_human.
  destruct (List.filter is_human (Issue.comments issue)) as [|h hs] eqn:Hf.
  - cbn. apply Forall_forall. intros c Hc.
    destruct (String.eqb (Comment.author c) (GitHub.this_username config))
      eqn:Hauthor; [now apply String.eqb_eq |].
    assert (Hin : In c (List.filter is_human (Issue.comments issue))).
    { apply List.filter_In. split; [now apply list_elem_of_In |].
      unfold is_human. now rewrite Hauthor. }
    rewrite Hf in Hin. destruct Hin.
  - change (0 <? length (h :: hs))%nat with true. cbv iota.
    destruct (last (h :: hs)) as [c|] eqn:Hlast.
    + rewrite <- Hf in Hlast.
      destruct (last_filter _ _ _ Hlast) as (before & after & Hl & Hc & Ha).
      exists before, after. split; [exact Hl |]. split.
      * unfold is_human in Hc. apply negb_true_iff in Hc.
        now apply String.eqb_neq.
      * eapply Forall_impl; [exact Ha |]. intros later Hlater.
        unfold is_human in Hlater. apply negb_false_iff in Hlater.
        now apply String.eqb_eq.
    + exfalso. revert Hlast. clear. revert h.
      induction hs as [|x xs IH]; intros h; [discriminate |].
      change (last (h :: x :: xs)) with (last (x :: xs)). apply IH.
Qed.

(** X11.  [getLatestHumanComment] answers the last comment of the issue,
    in the order of the listing, that was not written under the
    orchestrator's own user name: every comment after it is the
    orchestrator's.  It answers [null] exactly when every comment is
    the orchestrator's. *)
Theorem getLatestHumanComment_is_last (issue : Issue.t) :
  match GitHub.getLatestHumanComment config issue with
  | Some c =>
      exists before after,
        Issue.comments issue = before ++ c :: after
        /\ Comment.author c <> GitHub.this_username config
        /\ Forall (fun later =>
                     Comment.author later = GitHub.this_username config)
             after
  | None =>
      Forall (fun c => Comment.author c = GitHub.this_username config)
        (Issue.comments issue)
  end.
Proof. exact (latest_human_comment issue). Qed.


(** X12.  Whenever [hasNewComments] holds for an issue, whatever the
    date, [getLatestHumanComment] finds a comment: the resume scan never
    hands [continueBlockedTask] an issue without a human comment. *)
Theorem new_comment_has_author (issue : Issue.t) (since : Z) :
  GitHub.hasNewComments config issue since = true ->
  exists c,
    GitHub.getLatestHumanComment config issue = Some c
    /\ In c (Issue.comments issue)
    /\ Comment.author c <> GitHub.this_username config.
Proof.
  intros Hnew. unfold GitHub.hasNewComments in Hnew.
  apply List.existsb_exists in Hnew as (c0 & Hin0 & Hc0).
  apply andb_true_iff in Hc0 as [_ Hhuman].
  pose proof (latest_human_comment issue) as Hlast.
  destruct (GitHub.getLatestHumanComment config issue) as [c|].
  - destruct Hlast as (before & after & Hl & Hc & _).
    exists c. split; [reflexivity |]. split; [| exact Hc].
    rewrite Hl. apply List.in_or_app. right. now left.
  - exfalso. rewrite Forall_forall in Hlast.
    apply negb_true_iff, String.eqb_neq in Hhuman.
    apply Hhuman, Hlast. now apply list_elem_of_In.
Qed.

(** ** Listings *)

(** [i] is built from the listed issue [d]: everything but its comments
    is determined. *)
Definition built (d : RawIssue.t) (i : Issue.t) : Prop :=
  Issue.number i = RawIssue.number d
  /\ Issue.title i = RawIssue.title d
  /\ Issue.body i = default "" (RawIssue.body d)
  /\ Issue.labels i = map GitHub.label_name (RawIssue.labels d)
  /\ Issue.createdAt i = RawIssue.created_at d
  /\ Issue.updatedAt i = RawIssue.updated_at d
  /\ Issue.author i = None.

Definition kept (excludeLabels : list string) (d : RawIssue.t) : bool :=
  negb (existsb
          (Labels.includes (map GitHub.label_name (RawIssue.labels d)))
          excludeLabels).

Lemma fetch_each (l : list RawIssue.t) (s : sys) :
  exists issues s',
    mapM
      (fun issue =>
         comments ← call_getIssueComments (RawIssue.number issue);
         ret {| Issue.number := RawIssue.number issue;
                Issue.title := RawIssue.title issue;
                Issue.body := default "" (RawIssue.body issue);
                Issue.labels := map GitHub.label_name (RawIssue.labels issue);
                Issue.comments := comments;
                Issue.createdAt := RawIssue.created_at issue;
                Issue.updatedAt := RawIssue.updated_at issue;
                Issue.author := None |}) l s
    = (Ok issues, s')
    /\ Forall2 built l issues
    /\ calls s'
       = calls s ++ map (fun d => ListComments (RawIssue.number d)) l.
Proof.
  revert s. induction l as [|d l IH]; intros s; cbn [mapM].
  - eexists _, _. split; [reflexivity |]. split; [constructor |].
    cbn. now rewrite app_nil_r.
  - unfold bind at 1, mbind at 1, M_bind at 1, bind at 1,
      call_getIssueComments at 1.
    destruct (getIssueComments (world s) (RawIssue.number d)) as [cs w].
    cbn [ret]. unfold bind at 1.
    match goal with
    | |- context [mapM ?f l ?s1] =>
        destruct (IH s1) as (issues & s' & Hrun & Hall & Hcalls)
    end.
    eexists _, _. rewrite Hrun. split; [reflexivity |]. split.
    + constructor; [repeat split | exact Hall].
    + rewrite Hcalls. cbn. now rewrite <- app_assoc.
Qed.

Lemma getIssuesWithLabel_run (label : string) (excludeLabels : list string)
    (s : sys) :
  match listForRepo (world s) label with
  | (Throw e, w) =>
      GitHub.getIssuesWithLabel label excludeLabels s
      = (Throw e,
         {| world := w;
            calls := calls s ++ [ListForRepo label;
                                 LogCall "error" None "Failed to fetch issues"] |})
  | (Ok data, w) =>
      exists issues s',
        GitHub.getIssuesWithLabel label excludeLabels s = (Ok issues, s')
        /\ Forall2 built (List.filter (kept excludeLabels) data) issues
        /\ calls s'
           = calls s ++ ListForRepo label
               :: map (fun d => ListComments (RawIssue.number d))
                    (List.filter (kept excludeLabels) data)
  end.
Proof.
  destruct (listForRepo (world s) label) as [[data | e] w] eqn:Hlist;
    unfold GitHub.getIssuesWithLabel, try_catch;
    unfold mbind at 1, M_bind at 1, bind at 1, call_listForRepo;
    cbv beta; rewrite Hlist.
  - match goal with
    | |- context [mapM ?f ?l ?s1] =>
        destruct (fetch_each l s1) as (issues & s' & Hrun & Hall & Hcalls)
    end.
    cbv zeta. eexists _, _. rewrite Hrun. split; [reflexivity |].
    split; [exact Hall |]. rewrite Hcalls. cbn. now rewrite <- app_assoc.
  - unfold log, log_entry, mbind, M_bind, bind, throw. cbn.
    now rewrite <- app_assoc.
Qed.

Lemma built_numbers (l : list RawIssue.t) (issues : list Issue.t) :
  Forall2 built l issues ->
  map Issue.number issues = map RawIssue.number l.
Proof.
  induction 1 as [|d i l issues Hb _ IH]; [reflexivity |].
  cbn. destruct Hb as (-> & _). now rewrite IH.
Qed.

(** X13.  If the listing request fails, [getIssuesWithLabel] logs the
    failure, asks for no comments and throws the same error.  Otherwise
    it answers the listed issues without those that carry an excluded
    label, in the order of the listing, and asks for the comments of
    exactly these, one request each, in that order. *)
Theorem getIssuesWithLabel_requests (label : string)
    (excludeLabels : list string) (s : sys) :
  match listForRepo (world s) label with
  | (Throw e, w) =>
      GitHub.getIssuesWithLabel label excludeLabels s
      = (Throw e,
         {| world := w;
            calls := calls s ++ [ListForRepo label;
                                 LogCall "error" None "Failed to fetch issues"] |})
  | (Ok data, w) =>
      exists issues s',
        GitHub.getIssuesWithLabel label excludeLabels s = (Ok issues, s')
        /\ map Issue.number issues
           = map RawIssue.number (List.filter (kept excludeLabels) data)
        /\ Forall (fun i =>
                     forall x, In x excludeLabels ->
                               Labels.includes (Issue.labels i) x = false)
             issues
        /\ calls s'
           = calls s ++ ListForRepo label
               :: map ListComments (map Issue.number issues)
  end.
Proof.
  pose proof (getIssuesWithLabel_run label excludeLabels s) as H.
  destruct (listForRepo (world s) label) as [[data | e] w]; [| exact H].
  destruct H as (issues & s' & Hrun & Hall & Hcalls).
  exists issues, s'. split; [exact Hrun |].
  rewrite (built_numbers _ _ Hall). split; [reflexivity |]. split.
  - assert (Hkept : Forall (fun d => kept excludeLabels d = true)
                     (List.filter (kept excludeLabels) data)).
    { apply Forall_forall. intros d Hd.
      now apply list_elem_of_In, List.filter_In in Hd as [_ Hd]. }
    clear Hrun Hcalls. revert Hkept.
    induction Hall as [|d i l issues' Hb _ IH]; [constructor |].
    intros [Hd Hl]%Forall_cons. constructor; [| now apply IH].
    intros x Hx. destruct Hb as (_ & _ & _ & -> & _).
    destruct (Labels.includes (map GitHub.label_name (RawIssue.labels d)) x)
      eqn:Hinc; [| reflexivity].
    unfold kept in Hd. apply negb_true_iff in Hd.
    assert (Hex : existsb
                    (Labels.includes
                       (map GitHub.label_name (RawIssue.labels d)))
                    excludeLabels = true)
      by (apply List.existsb_exists; eauto).
    congruence.
  - rewrite Hcalls. now rewrite map_map.
Qed.

(** X14.  The issues that [getIssuesWithLabel] answers carry no author,
    so the allow-list never admits an issue by its author: for such an
    issue [isUserAllowed] holds exactly when the allow-list is empty or
    the issue carries the label [ai-approved]. *)
Theorem allow_list_never_matches_author (label : string)
    (excludeLabels : list string) (s s' : sys) (issues : list Issue.t) :
  GitHub.getIssuesWithLabel label excludeLabels s = (Ok issues, s') ->
  Forall (fun i =>
            Issue.author i = None
            /\ Labels.isUserAllowed i config
               = (length (Config.allowedUsers (Config.github config)) =? 0)%nat
                 || Labels.includes (Issue.labels i) Labels.AI_APPROVED)
    issues.
Proof.
  intros Hrun.
  pose proof (getIssuesWithLabel_run label excludeLabels s) as H.
  destruct (listForRepo (world s) label) as [[data | e] w];
    [| rewrite Hrun in H; discriminate].
  destruct H as (issues0 & s0 & Hrun0 & Hall & _).
  rewrite Hrun in Hrun0. injection Hrun0 as <- <-. clear Hrun.
  induction Hall as [|d i l issues' Hb _ IH]; [constructor |].
  constructor; [| exact IH].
  destruct Hb as (_ & _ & _ & _ & _ & _ & Hauthor).
  split; [exact Hauthor |]. unfold Labels.isUserAllowed. rewrite Hauthor.
  destruct (length (Config.allowedUsers (Config.github config)) =? 0)%nat;
    [reflexivity |].
  now destruct (Labels.includes (Issue.labels i) Labels.AI_APPROVED).
Qed.

(** ** Sorting again *)

Lemma insert_by_front {A} (key : A -> Z) (x : A) (l : list A) :
  Forall (fun y => key x <= key y) l -> GitHub.insert_by key x l = x :: l.
Proof.
  destruct l as [|y l]; [reflexivity |]. intros [Hy _]%Forall_cons.
  cbn. apply Z.leb_le in Hy. now rewrite Hy.
Qed.

Lemma stable_sort_fixes_sorted {A} (key : A -> Z) (l : list A) :
  StronglySorted (fun a b => key a <= key b) l ->
  GitHub.stable_sort key l = l.
Proof.
  induction 1 as [|x l _ IH Hx]; [reflexivity |].
  cbn. unfold GitHub.stable_sort in IH. rewrite IH.
  now apply insert_by_front.
Qed.

Lemma any_order {A} (l : list A) : StronglySorted (fun _ _ => True) l.
Proof.
  induction l as [|x l IH]; [constructor |].
  constructor; [exact IH |]. apply Forall_forall. trivial.
Qed.

(** X15.  [sortByPriority] leaves a list alone that is already in
    priority order, and so sorting twice is sorting once. *)
Theorem sortByPriority_idempotent (issues : list Issue.t) :
  GitHub.sortByPriority (GitHub.sortByPriority issues)
  = GitHub.sortByPriority issues
  /\ (StronglySorted
        (fun a b => GitHub.priorityOrder (GitHub.getPriority a)
                    <= GitHub.priorityOrder (GitHub.getPriority b)) issues ->
      GitHub.sortByPriority issues = issues).
Proof.
  split; [| apply stable_sort_fixes_sorted].
  apply stable_sort_fixes_sorted.
  pose proof (OrchestratorFacts.stable_sort_sorted
                (fun i => GitHub.priorityOrder (GitHub.getPriority i))
                (fun _ _ => True) issues) as Hs.
  specialize (Hs (any_order issues)). unfold GitHub.sortByPriority.
  eapply (OrchestratorFacts.sorted_transfer eq); [| | exact Hs].
  - intros a b ? ? <- <- [Hlt | [Heq _]]; lia.
  - apply Forall2_same_length_lookup. split; [reflexivity |]. congruence.
Qed.

End WithEnv.

#[local] Existing Instance Sim.env.

Lemma new_comment_has_author_witness :
  exists c,
    GitHub.getLatestHumanComment Sim.config ManagerFacts.replied_issue
    = Some c
    /\ In c (Issue.comments ManagerFacts.replied_issue)
    /\ Comment.author c <> GitHub.this_username Sim.config.
Proof.
  apply (new_comment_has_author Sim.config ManagerFacts.replied_issue 15).
  reflexivity.
Defined.

(** Only [alice] may have issues picked up. *)
Definition guarded_config : Config.t :=
  {| Config.github :=
       {| Config.username := "orchestrator-bot";
          Config.allowedUsers := ["alice"] |};
     Config.scheduler := Config.scheduler Sim.config;
     Config.opencode := Config.opencode Sim.config |}.

Lemma allow_list_never_matches_author_witness :
  exists issues s',
    GitHub.getIssuesWithLabel "ai-task" ["ai-in-progress"]
      (Sim.start OrchestratorFacts.ready_world) = (Ok issues, s')
    /\ length issues = 3%nat
    /\ Forall (fun i =>
                 Issue.author i = None
                 /\ Labels.isUserAllowed i guarded_config
                    = (length (Config.allowedUsers
                                 (Config.github guarded_config)) =? 0)%nat
                      || Labels.includes (Issue.labels i) Labels.AI_APPROVED)
         issues.
Proof.
  eexists _, _. split; [vm_compute; reflexivity |].
  split; [reflexivity |].
  eapply (allow_list_never_matches_author guarded_config "ai-task"
            ["ai-in-progress"] (Sim.start OrchestratorFacts.ready_world)).
  vm_compute. reflexivity.
Defined.

Lemma sortByPriority_idempotent_witness :
  GitHub.sortByPriority
    [ManagerFacts.replied_issue; ManagerFacts.replied_issue]
  = [ManagerFacts.replied_issue; ManagerFacts.replied_issue].
Proof.
  apply (sortByPriority_idempotent
           [ManagerFacts.replied_issue; ManagerFacts.replied_issue]).
  repeat constructor; vm_compute; discriminate.
Defined.

End ClientFacts.

(* ===================================================================== *)
(** * What a computation returns                                          *)
(* ===================================================================== *)

Module ReturnFacts.
Import Eff EffAccess EffFacts.

(** [returns m P]: whenever [m] returns a value, the value satisfies
    [P]. *)
Definition returns {S A} (m : M S A) (P : A -> Prop) : Prop :=
  forall s, match fst (m s) with
            | Ok a => P a
            | Throw _ => True
            end.

Lemma returns_any {S A} (m : M S A) : returns m (fun _ => True).
Proof. intros s. now destruct (fst (m s)). Qed.

Lemma returns_ret {S A} (a : A) (P : A -> Prop) : P a -> @returns S A (ret a) P.
Proof. intros H s. exact H. Qed.

Lemma returns_throw {S A} e (P : A -> Prop) : @returns S A (throw e) P.
Proof. intros s. exact I. Qed.

Lemma returns_bind {S A B} (m : M S A) (k : A -> M S B)
    (P : A -> Prop) (Q : B -> Prop) :
  returns m P -> (forall a, P a -> returns (k a) Q) ->
  returns (bind m k) Q.
Proof.
  intros Hm Hk s. unfold bind. specialize (Hm s).
  destruct (m s) as [[a|e] s1]; cbn in *; [apply Hk, Hm | exact I].
Qed.

Lemma returns_bind_any {S A B} (m : M S A) (k : A -> M S B)
    (Q : B -> Prop) :
  (forall a, returns (k a) Q) -> returns (bind m k) Q.
Proof.
  intros Hk. apply (returns_bind m k (fun _ => True)); [apply returns_any |].
  auto.
Qed.

Lemma returns_bind_ret {S A B} (a : A) (k : A -> M S B) (Q : B -> Prop) :
  returns (k a) Q -> returns (bind (ret a) k) Q.
Proof. intros H s. exact (H s). Qed.

Lemma returns_bind_assoc {S A B C} (m : M S A) (k1 : A -> M S B)
    (k2 : B -> M S C) (Q : C -> Prop) :
  returns (bind m (fun a => bind (k1 a) k2)) Q ->
  returns (bind (bind m k1) k2) Q.
Proof.
  intros H s. specialize (H s). unfold bind in *.
  now destruct (m s) as [[a|e] s1].
Qed.

Lemma returns_weaken {S A} (m : M S A) (P Q : A -> Prop) :
  returns m P -> (forall a, P a -> Q a) -> returns m Q.
Proof.
  intros Hm HPQ s. specialize (Hm s). destruct (fst (m s)); auto.
Qed.

Lemma returns_run {S A} (m : M S A) (P : A -> Prop) s a s' :
  returns m P -> m s = (Ok a, s') -> P a.
Proof. intros Hm Hrun. specialize (Hm s). now rewrite Hrun in Hm. Qed.

End ReturnFacts.

(** One step of a proof about the value returned: peel the outermost
    construct; a computation whose value is open is read as returning
    any value. *)
Ltac returns_step :=
  lazymatch goal with
  | |- ReturnFacts.returns (Eff.ret _) _ => apply ReturnFacts.returns_ret
  | |- ReturnFacts.returns (Eff.throw _) _ => apply ReturnFacts.returns_throw
  | |- ReturnFacts.returns (if ?c then _ else _) _ => destruct c
  | |- ReturnFacts.returns (let _ := _ in _) _ => cbv zeta
  | |- ReturnFacts.returns (Eff.bind (if ?c then _ else _) _) _ => destruct c
  | |- ReturnFacts.returns (Eff.bind (Eff.bind _ _) _) _ =>
      apply ReturnFacts.returns_bind_assoc
  | |- ReturnFacts.returns (Eff.bind (Eff.ret _) _) _ =>
      apply ReturnFacts.returns_bind_ret
  | |- ReturnFacts.returns (Eff.bind _ _) _ =>
      apply ReturnFacts.returns_bind_any; intros ?
  end.

(* ===================================================================== *)
(** * Detecting quality gates                                             *)
(* ===================================================================== *)

Module DetectFacts.
Import Eff EffAccess EffFacts ReturnFacts Quality.

Definition names (gates : list QualityGate) : list string := map name gates.

Lemma has_gate_names gates n :
  has_gate gates n = false -> n ∉ names gates.
Proof.
  unfold has_gate, names. intros H Hin.
  apply list_elem_of_In, List.in_map_iff in Hin as (g & <- & Hg).
  assert (existsb (fun g' => String.eqb (name g') (name g)) gates = true)
    by (apply List.existsb_exists; exists g; split;
        [exact Hg | apply String.eqb_refl]).
  congruence.
Qed.

Lemma add_absent gates (c : bool) (g : QualityGate) :
  NoDup (names gates) ->
  NoDup (names (if c && negb (has_gate gates (name g))
                then gates ++ [g] else gates)).
Proof.
  intros Hnd. destruct c; [| exact Hnd]. cbn [andb].
  destruct (has_gate gates (name g)) eqn:Hhas; [exact Hnd |]. cbn [negb].
  unfold names. rewrite map_app. apply NoDup_app. split; [exact Hnd |].
  split; [| apply NoDup_singleton].
  intros n Hn Hn'. apply list_elem_of_singleton in Hn'. subst n.
  now apply has_gate_names in Hhas.
Qed.

(** A list of string literals without repetition. *)
Ltac distinct_strings :=
  cbn;
  repeat (apply NoDup_cons_2;
          [ let Hin := fresh in
            intros Hin;
            repeat (apply elem_of_cons in Hin as [Hin | Hin];
                    [discriminate |]);
            now apply elem_of_nil in Hin
          | ]);
  apply NoDup_nil_2.

Section WithEnv.
Context {E : Env}.

Lemma detect_package_json_names (worktreePath : string) :
  returns (detect_package_json worktreePath [])
    (fun gates => NoDup (names gates)).
Proof.
  unfold detect_package_json, mbind, M_bind.
  repeat returns_step;
    repeat match goal with
           | |- context [if ?c then _ else _] => destruct c
           end;
    distinct_strings.
Qed.

Lemma detect_makefile_names (worktreePath : string)
    (gates : list QualityGate) :
  NoDup (names gates) ->
  returns (detect_makefile worktreePath gates)
    (fun gates' => NoDup (names gates')).
Proof.
  intros Hnd. unfold detect_makefile, mbind, M_bind.
  apply returns_bind_any. intros makefile. cbv zeta. apply returns_ret.
  repeat match goal with
         | |- NoDup (names (if ?c && negb (has_gate ?g ?n) then _ else _)) =>
             apply (add_absent g c {| name := n; commands := _;
                                     required := true |})
         end.
  exact Hnd.
Qed.

(** The gates of a Rust project, which are added whatever was detected
    before. *)
Definition cargo_gates : list QualityGate :=
  [{| name := "Linting"; commands := ["cargo"; "clippy"]; required := true |};
   {| name := "Build"; commands := ["cargo"; "build"]; required := true |};
   {| name := "Tests"; commands := ["cargo"; "test"]; required := true |}].

Lemma detectGates_names (worktreePath : string) :
  returns (detectGates worktreePath)
    (fun gates =>
       exists (base : list QualityGate) (rust : bool),
         gates = base ++ (if rust then cargo_gates else [])
         /\ NoDup (names base)).
Proof.
  unfold detectGates, mbind, M_bind. cbv zeta.
  apply returns_bind_any. intros has_package.
  eapply (returns_bind _ _ (fun gates => NoDup (names gates))).
  { destruct has_package;
      [apply detect_package_json_names | apply returns_ret, NoDup_nil_2]. }
  intros gates1 H1. apply returns_bind_any. intros has_makefile.
  eapply (returns_bind _ _ (fun gates => NoDup (names gates))).
  { destruct has_makefile;
      [now apply detect_makefile_names | now apply returns_ret]. }
  intros gates2 H2. apply returns_bind_any. intros python.
  apply returns_bind_any. intros rust. apply returns_ret.
  exists (if python && negb (has_gate gates2 "Tests")
          then gates2 ++ [{| name := "Tests"; commands := ["pytest"];
                             required := true |}]
          else gates2), rust.
  split.
  - destruct rust; [reflexivity | symmetry; apply app_nil_r].
  - apply (add_absent gates2 python
             {| name := "Tests"; commands := ["pytest"]; required := true |}).
    exact H2.
Qed.

(** X16.  Apart from the three gates of a Rust project, which
    [detectGates] appends last and unconditionally, no two detected
    gates have the same name: each of the other gates is added only
    where no gate of its name was detected before. *)
Theorem detectGates_distinct_names (worktreePath : string) (s s' : sys)
    (gates : list QualityGate) :
  detectGates worktreePath s = (Ok gates, s') ->
  exists (base : list QualityGate) (rust : bool),
    gates = base ++ (if rust then cargo_gates else [])
    /\ NoDup (map name base).
Proof.
  intros Hrun. exact (returns_run _ _ _ _ _ (detectGates_names worktreePath) Hrun).
Qed.

(** X17.  Where [package.json] exists but its text is not JSON,
    [detectGates] throws what [JSON.parse] throws, right after reading
    the file; [runAllGates] throws with it and runs no gate at all. *)
Theorem malformed_manifest_stops_gates (worktreePath : string) (s : sys)
    (v : JS.value) (w1 w2 : World) (text : string) (e : JS.value) :
  let manifest := path_join [worktreePath; "package.json"] in
  perform (world s) (ExistsSync manifest) = (Ok v, w1) ->
  JS.truthy v = true ->
  perform w1 (ReadFileSync manifest) = (Ok (JS.Str text), w2) ->
  JSON_parse text = Throw e ->
  let s' := {| world := w2;
               calls := calls s ++ [ExistsSync manifest;
                                    ReadFileSync manifest] |} in
  detectGates worktreePath s = (Throw e, s')
  /\ runAllGates worktreePath s = (Throw e, s').
Proof.
  intros manifest Hexists Htruthy Hread Hparse s'.
  assert (Hdetect : detectGates worktreePath s = (Throw e, s')).
  { unfold detectGates, detect_package_json, existsSync, readFileSync,
      try_catch, do_call, lift, mbind, M_bind, bind.
    fold manifest. unfold s'. clearbody manifest.
    cbn. rewrite Hexists. cbn. rewrite Htruthy. cbn.
    rewrite Hread. cbn. rewrite Hparse.
    now rewrite <- app_assoc. }
  split; [exact Hdetect |].
  unfold runAllGates. now rewrite (fst_bind_throw _ _ _ _ _ Hdetect).
Qed.

End WithEnv.

#[local] Existing Instance Sim.env.

(** A workspace whose [package.json] was cut off. *)
Definition broken_manifest_world : Sim.world :=
  {| Sim.files := [("/w/package.json", "{ "); ("/w/Makefile", "test:")];
     Sim.dirs := ["/w"]; Sim.failing := []; Sim.branch := "main";
     Sim.now := 0; Sim.absent_labels := []; Sim.listing := [];
     Sim.comments := []; Sim.sessions := []; Sim.status := JS.Obj [];
     Sim.next_session := "ses_1" |}.

Lemma malformed_manifest_stops_gates_witness :
  let s' := {| world := broken_manifest_world;
               calls := [ExistsSync "/w/package.json";
                         ReadFileSync "/w/package.json"] |} in
  detectGates "/w" (Sim.start broken_manifest_world)
  = (Throw (JS.Obj [("name", JS.Str "SyntaxError")]), s')
  /\ runAllGates "/w" (Sim.start broken_manifest_world)
     = (Throw (JS.Obj [("name", JS.Str "SyntaxError")]), s').
Proof.
  apply (malformed_manifest_stops_gates "/w"
           (Sim.start broken_manifest_world) (JS.Bool true)
           broken_manifest_world broken_manifest_world "{ ");
    reflexivity.
Defined.

Lemma detectGates_distinct_names_witness :
  exists (base : list QualityGate) (rust : bool),
    QualityFacts.makefile_gates = base ++ (if rust then cargo_gates else [])
    /\ NoDup (map name base).
Proof.
  apply (detectGates_distinct_names "/w"
           (Sim.start QualityFacts.makefile_world)
           (snd (detectGates "/w" (Sim.start QualityFacts.makefile_world)))).
  vm_compute. reflexivity.
Defined.

End DetectFacts.

(* ===================================================================== *)
(** * Worktrees                                                           *)
(* ===================================================================== *)

Module WorktreeFacts.
Import Eff EffAccess EffFacts StringFacts TextFacts.

(** Unfold the combinators of a computation on the outside world. *)
Ltac unfold_sys :=
  unfold Worktree.execSync, existsSync, logi, log, log_entry, do_call,
    try_catch, throw, ret, mbind, M_bind, bind.

(** Run it, splitting on what each call answers. *)
Ltac run_calls :=
  repeat (cbn;
          match goal with
          | |- context [perform ?w ?c] =>
              let r := fresh "r" in
              let w' := fresh "w" in
              destruct (perform w c) as [[r | r] w'] eqn:?
          end);
  cbn.

Definition git_commands (trace : list call) : list string :=
  omap (fun c => match c with ExecSync _ command => Some command | _ => None end)
    trace.

Lemma git_commands_app l1 l2 :
  git_commands (l1 ++ l2) = git_commands l1 ++ git_commands l2.
Proof. apply omap_app. Qed.

(** ** The porcelain listing *)

Definition newline : string := String "010"%char "".

Record worktree_entry : Type :=
  { entry_path : string; entry_head : string; entry_branch : string }.

(** What [git worktree list --porcelain] prints for a list of worktrees:
    for each one its path, its head and its branch on a line each, and
    an empty line. *)
Fixpoint porcelain (entries : list worktree_entry) : string :=
  match entries with
  | [] => ""
  | e :: rest =>
      ("worktree " ++ entry_path e ++ newline
       ++ "HEAD " ++ entry_head e ++ newline
       ++ "branch " ++ entry_branch e ++ newline
       ++ newline ++ porcelain rest)%string
  end.

Definition one_line (s : string) : Prop :=
  every_char (is_not "010"%char) s = true.

Lemma one_line_append (a s : string) :
  one_line a -> one_line s -> one_line (a ++ s)%string.
Proof.
  unfold one_line. intros Ha Hs. now rewrite every_char_append, Ha, Hs.
Qed.

Lemma split_line (line rest : string) :
  one_line line ->
  Text.split "010"%char (line ++ newline ++ rest)%string
  = line :: Text.split "010"%char rest.
Proof. intros H. now apply split_append. Qed.

Lemma worktree_lines_porcelain (entries : list worktree_entry) :
  Forall (fun e => one_line (entry_path e) /\ one_line (entry_head e)
                   /\ one_line (entry_branch e)) entries ->
  WorktreeAdmin.worktree_lines (Text.split "010"%char (porcelain entries))
  = map entry_path entries.
Proof.
  induction 1 as [|e rest (Hp & Hh & Hb) _ IH]; [reflexivity |].
  cbn [porcelain map].
  rewrite <- (append_assoc "worktree " (entry_path e)), split_line
    by (apply one_line_append; [reflexivity | exact Hp]).
  rewrite <- (append_assoc "HEAD " (entry_head e)), split_line
    by (apply one_line_append; [reflexivity | exact Hh]).
  rewrite <- (append_assoc "branch " (entry_branch e)), split_line
    by (apply one_line_append; [reflexivity | exact Hb]).
  change (newline ++ porcelain rest)%string
    with ("" ++ newline ++ porcelain rest)%string.
  rewrite split_line by reflexivity.
  cbn [WorktreeAdmin.worktree_lines].
  unfold JS.startsWith at 1. rewrite prefix_append, replace_first_prefix.
  replace (JS.startsWith ("HEAD " ++ entry_head e) "worktree ") with false
    by reflexivity.
  replace (JS.startsWith ("branch " ++ entry_branch e) "worktree ")
    with false by reflexivity.
  replace (JS.startsWith "" "worktree ") with false by reflexivity.
  now rewrite IH.
Qed.

Section WithEnv.
Context {E : Env}.
Variable config : Config.t.

(** X18.  [getDefaultBranch] never throws.  It asks git for the head of
    origin.  If git answers, it asks nothing else and returns the
    answer, trimmed and without the prefix [refs/remotes/origin/].  Only
    if that request fails does it ask whether [origin/main] exists, and
    it returns ['main'] if so and ['master'] if that request fails
    too. *)
Theorem getDefaultBranch_total (s : sys) :
  let head :=
    ExecSync (Worktree.projectPath config)
      "git symbolic-ref refs/remotes/origin/HEAD" in
  let main :=
    ExecSync (Worktree.projectPath config)
      "git show-ref --verify refs/remotes/origin/main" in
  let run := Worktree.getDefaultBranch config s in
  match perform (world s) head with
  | (Ok output, w) =>
      run = (Ok (JS.replace_first
                   (JS.trim (default "" (JS.as_str output)))
                   "refs/remotes/origin/" ""),
             {| world := w; calls := calls s ++ [head] |})
  | (Throw _, w) =>
      match perform w main with
      | (Ok _, w') =>
          run = (Ok "main",
                 {| world := w'; calls := calls s ++ [head; main] |})
      | (Throw _, w') =>
          run = (Ok "master",
                 {| world := w'; calls := calls s ++ [head; main] |})
      end
  end.
Proof.
  cbv zeta. unfold Worktree.getDefaultBranch, Worktree.execSync, try_catch,
    mbind, M_bind, bind, do_call, ret.
  destruct (perform (world s) _) as [[output | e] w]; cbn [world calls].
  - reflexivity.
  - destruct (perform w _) as [[v | e'] w']; cbn;
      now rewrite <- app_assoc.
Qed.

(** X19.  [getCurrentBranch] never throws.  Where the worktree directory
    of the issue does not exist it answers [null] without running git;
    where git fails it answers [null] as well; otherwise it answers the
    trimmed output of git. *)
Theorem getCurrentBranch_total (issueNumber : Z) (s : sys) :
  let worktreePath := Config.getWorktreePath config issueNumber in
  let run := Worktree.getCurrentBranch config issueNumber s in
  let no_git := git_commands (calls (snd run)) = git_commands (calls s) in
  match perform (world s) (ExistsSync worktreePath) with
  | (Ok present, w) =>
      if JS.truthy present
      then match perform w (ExecSync worktreePath
                              "git rev-parse --abbrev-ref HEAD") with
           | (Ok output, _) =>
               fst run = Ok (Some (JS.trim (default "" (JS.as_str output))))
           | (Throw _, _) => fst run = Ok None
           end
      else fst run = Ok None /\ no_git
  | (Throw _, _) => fst run = Ok None /\ no_git
  end.
Proof.
  cbv zeta. unfold Worktree.getCurrentBranch.
  set (worktreePath := Config.getWorktreePath config issueNumber).
  clearbody worktreePath. unfold_sys.
  destruct (perform (world s) (ExistsSync worktreePath)) as [[present | e] w];
    cbn.
  - destruct (JS.truthy present); cbn.
    + now destruct (perform w (ExecSync worktreePath
                                 "git rev-parse --abbrev-ref HEAD"))
        as [[output | e] w'].
    + now rewrite git_commands_app, app_nil_r.
  - now rewrite git_commands_app, app_nil_r.
Qed.

(** X20.  [removeWorktree] for an issue whose worktree directory does
    not exist succeeds without running git.  Otherwise it runs exactly
    one command, the forced removal of that worktree in the project
    directory, and throws what that command throws. *)
Theorem removeWorktree_runs_one_command (issueNumber : Z) (s : sys) :
  let worktreePath := Config.getWorktreePath config issueNumber in
  let command :=
    ("git worktree remove " ++ Worktree.dquote ++ worktreePath
     ++ Worktree.dquote ++ " --force")%string in
  let run := WorktreeAdmin.removeWorktree config issueNumber s in
  match perform (world s) (ExistsSync worktreePath) with
  | (Ok present, w) =>
      if JS.truthy present
      then git_commands (calls (snd run))
           = git_commands (calls s) ++ [command]
           /\ match perform w (ExecSync (Worktree.projectPath config)
                                 command) with
              | (Ok _, _) => fst run = Ok tt
              | (Throw e, _) => fst run = Throw e
              end
      else fst run = Ok tt
           /\ git_commands (calls (snd run)) = git_commands (calls s)
  | (Throw _, _) =>
      fst run = Ok tt
      /\ git_commands (calls (snd run)) = git_commands (calls s)
  end.
Proof.
  cbv zeta. unfold WorktreeAdmin.removeWorktree.
  set (worktreePath := Config.getWorktreePath config issueNumber).
  clearbody worktreePath.
  set (command := ("git worktree remove " ++ _)%string). clearbody command.
  unfold_sys.
  destruct (perform (world s) (ExistsSync worktreePath)) as [[present | e] w];
    cbn.
  - destruct (JS.truthy present); cbn.
    + destruct (perform w (ExecSync (Worktree.projectPath config) command))
        as [[output | e] w']; cbn;
        rewrite !git_commands_app; cbn; rewrite ?app_nil_r, <- ?app_assoc;
        auto.
    + now rewrite !git_commands_app, !app_nil_r.
  - now rewrite !git_commands_app, !app_nil_r.
Qed.

(** X21.  [listWorktrees] never throws: if git fails it answers the
    empty list.  From the porcelain listing that git prints for a list
    of worktrees it reads back their paths, in order. *)
Theorem listWorktrees_reads_porcelain (s : sys)
    (entries : list worktree_entry) :
  Forall (fun e => one_line (entry_path e) /\ one_line (entry_head e)
                   /\ one_line (entry_branch e)) entries ->
  match perform (world s)
          (ExecSync (Worktree.projectPath config)
             "git worktree list --porcelain") with
  | (Ok output, _) =>
      output = JS.Str (porcelain entries) ->
      fst (WorktreeAdmin.listWorktrees config s) = Ok (map entry_path entries)
  | (Throw _, _) => fst (WorktreeAdmin.listWorktrees config s) = Ok []
  end.
Proof.
  intros Hall. unfold WorktreeAdmin.listWorktrees. unfold_sys.
  destruct (perform (world s)
              (ExecSync (Worktree.projectPath config)
                 "git worktree list --porcelain")) as [[output | e] w];
    cbn; [| reflexivity].
  intros ->. cbn. now rewrite worktree_lines_porcelain.
Qed.

End WithEnv.

#[local] Existing Instance Sim.env.

Definition two_worktrees : list worktree_entry :=
  [{| entry_path := "/repo"; entry_head := "3f2a"; 
      entry_branch := "refs/heads/main" |};
   {| entry_path := "/repo/.worktrees/issue-7"; entry_head := "9c1d";
      entry_branch := "refs/heads/ai/issue-7-task" |}].

(** Git answers every command with the listing of [two_worktrees]. *)
Definition listing_world : Sim.world :=
  {| Sim.files := []; Sim.dirs := ["/repo"]; Sim.failing := [];
     Sim.branch := porcelain two_worktrees; Sim.now := 0;
     Sim.absent_labels := []; Sim.listing := []; Sim.comments := [];
     Sim.sessions := []; Sim.status := JS.Obj [];
     Sim.next_session := "ses_1" |}.

Lemma listWorktrees_reads_porcelain_witness :
  fst (WorktreeAdmin.listWorktrees Sim.config (Sim.start listing_world))
  = Ok ["/repo"; "/repo/.worktrees/issue-7"].
Proof.
  assert (Hall : Forall (fun e => one_line (entry_path e)
                                  /\ one_line (entry_head e)
                                  /\ one_line (entry_branch e))
                   two_worktrees)
    by (repeat constructor).
  exact (listWorktrees_reads_porcelain Sim.config (Sim.start listing_world)
           two_worktrees Hall eq_refl).
Defined.

End WorktreeFacts.

(* ===================================================================== *)
(** * The session manager and the task manager, step by step              *)
(* ===================================================================== *)

Module ProcessFacts.
Import Eff EffAccess EffFacts Store StoreFacts OpenCodeFacts.

(** Decide the comparisons between string literals in the goal. *)
Ltac decide_literals :=
  repeat match goal with
         | |- context [String.eqb ?a ?b] =>
             let v := eval vm_compute in (String.eqb a b) in
             lazymatch v with
             | true => change (String.eqb a b) with true
             | false => change (String.eqb a b) with false
             end
         | |- context [JS.startsWith ?a ?b] =>
             let v := eval vm_compute in (JS.startsWith a b) in
             lazymatch v with
             | true => change (JS.startsWith a b) with true
             | false => change (JS.startsWith a b) with false
             end
         end.

(** Bring the state of the process into the form of its components. *)
Ltac expose_state :=
  unfold set_system, set_heap, set_tasks, set_activeTasks;
  cbn [after_bind after_try system calls world heap tasks activeTasks
         OpenCodeTaskStatus.sessionId OpenCodeTaskStatus.issueNumber
         OpenCodeTaskStatus.startedAt OpenCodeTaskStatus.shareLink
         OpenCodeTaskStatus.eventSource OpenCodeTaskStatus.lastActivity
         OpenCodeTaskStatus.currentMessageBuffer
         OpenCodeTaskStatus.statusCheckInterval
         OpenCodeTaskStatus.lastTuiPopup OpenCodeTaskStatus.errorHandled
         OpenCodeTaskStatus.set_lastActivity
         OpenCodeTaskStatus.set_errorHandled
         OpenCodeTaskStatus.set_eventSource
         OpenCodeTaskStatus.set_statusCheckInterval
         OpenCodeTaskStatus.set_currentMessageBuffer].

Lemma wp_opaque {S A} (m : M S A) (Q : result A -> S -> Prop) s :
  (forall r s', Q r s') -> wp m Q s.
Proof. intros H. apply H. Qed.

Lemma wp_pair {S A} (m : M S A) (r : result A) (s s' : S) :
  wp m (fun r' s'' => r' = r /\ s'' = s') s -> m s = (r, s').
Proof. unfold wp. destruct (m s) as [r0 s0]. cbn. now intros [-> ->]. Qed.

(** One step of a run in which the object behind [task] is known. *)
Ltac process_step Ho :=
  first
    [ lazymatch goal with
      | |- wp (OpenCode.signal_call _) _ _ =>
          apply signal_call_run; intros ?
      | |- wp (read _) _ _ =>
          apply wp_read; expose_state;
          rewrite ?list_lookup_alter_eq, ?Ho;
          cbn [fmap option_fmap option_map]
      end
    | wp_step ];
  expose_state.

(** One step of a run that reads no object, or only a fresh one. *)
Ltac plain_step :=
  first
    [ lazymatch goal with
      | |- wp (OpenCode.signal_call _) _ _ =>
          apply signal_call_run; intros ?
      end
    | wp_step ];
  expose_state.

Section WithEnv.
Context {E : Env}.

(** X22.  An idle event that names another session than the task's own
    is ignored: the handler notes the activity and logs the event, and
    nothing else happens; the task stays registered, its slot stays
    taken, and nothing is asked of the tracker. *)
Theorem foreign_idle_is_ignored (task : nat) (st : state)
    (o : OpenCodeTaskStatus.t) (event : JS.value) :
  heap st !! task = Some o ->
  OpenCode.event_type event = "session.idle" ->
  JS.is_str (JS.or (JS.get "sessionID" event)
               (JS.get "sessionID" (JS.get "properties" event)))
    (OpenCodeTaskStatus.sessionId o) = false ->
  OpenCode.handleEvent (Some Manager.onTaskComplete) task event st
  = (Ok tt,
     {| system :=
          {| world := world (system st);
             calls := calls (system st)
                      ++ [LogCall "debug"
                            (Some (OpenCodeTaskStatus.issueNumber o))
                            "OpenCode event received"] |};
        heap := alter (OpenCodeTaskStatus.set_lastActivity
                         (Date_now (world (system st)))) task (heap st);
        tasks := tasks st;
        activeTasks := activeTasks st |}).
Proof.
  intros Ho Htype Hsid. apply wp_pair.
  unfold OpenCode.handleEvent. cbv zeta. rewrite Htype. decide_literals.
  cbn [orb when].
  destruct o as [sid num started link es la buf sci popup flag].
  cbn in Hsid.
  unfold OpenCode.handle_idle, OpenCode.logI, logi.
  repeat (process_step Ho; rewrite ?Hsid; cbn [andb orb negb when]).
  split; reflexivity.
Qed.

(** X23.  When the status request of the poll fails, the poll logs the
    failure and returns normally; the memory of the process stays as it
    was. *)
Theorem failed_status_request_is_logged (task : nat) (st : state)
    (o : OpenCodeTaskStatus.t) (e : JS.value) (w : World) :
  heap st !! task = Some o ->
  perform (world (system st)) GetSessionStatus = (Throw e, w) ->
  OpenCode.checkSessionStatus task st
  = (Ok tt,
     {| system :=
          {| world := w;
             calls := calls (system st)
                      ++ [GetSessionStatus;
                          LogCall "error"
                            (Some (OpenCodeTaskStatus.issueNumber o))
                            "Failed to check session status"] |};
        heap := heap st;
        tasks := tasks st;
        activeTasks := activeTasks st |}).
Proof.
  intros Ho Hstatus. apply wp_pair.
  unfold OpenCode.checkSessionStatus, OpenCode.logI, logi.
  process_step Ho. process_step Ho. process_step Ho. process_step Ho.
  process_step Ho. process_step Ho.
  match goal with
  | H : perform _ GetSessionStatus = _ |- _ =>
      rewrite Hstatus in H; injection H as <- <-
  end.
  repeat (process_step Ho).
  rewrite <- app_assoc. split; reflexivity.
Qed.

(** X24.  [killTask] never throws, also when the server refuses to abort
    the session.  For an issue that is not running it does nothing at
    all.  For a running one it asks the server to abort the session and
    takes the issue out of the session manager's map; the task objects
    and the task manager's active map stay as they were. *)
Theorem killTask_unregisters (issueNumber : Z) (st : state) :
  match tasks st !! issueNumber with
  | None => OpenCode.killTask issueNumber st = (Ok tt, st)
  | Some task =>
      forall o, heap st !! task = Some o ->
      let run := OpenCode.killTask issueNumber st in
      fst run = Ok tt
      /\ tasks (snd run) = delete issueNumber (tasks st)
      /\ heap (snd run) = heap st
      /\ activeTasks (snd run) = activeTasks st
      /\ In (AbortSession (OpenCodeTaskStatus.sessionId o))
           (calls (system (snd run)))
  end.
Proof.
  destruct (tasks st !! issueNumber) as [task|] eqn:Htask.
  - intros o Ho. cbv zeta.
    match goal with
    | |- ?G =>
        let Q := constr:(fun (r : result unit) (st' : state) =>
          r = Ok tt
          /\ tasks st' = delete issueNumber (tasks st)
          /\ heap st' = heap st
          /\ activeTasks st' = activeTasks st
          /\ In (AbortSession (OpenCodeTaskStatus.sessionId o))
               (calls (system st'))) in
        change (wp (OpenCode.killTask issueNumber) Q st)
    end.
    unfold OpenCode.killTask, OpenCode.logI, logi.
    process_step Ho. process_step Ho. rewrite Htask. cbn [after_bind].
    repeat (process_step Ho).
    all: repeat split; try reflexivity.
    all: rewrite ?List.in_app_iff; cbn; tauto.
  - unfold OpenCode.killTask, mbind, M_bind, bind, gets. now rewrite Htask.
Qed.

(** X25.  An idle event of the task's own session ends the supervision
    whatever the verdict: the handler returns normally, closes the event
    stream and the status poll if they are open, takes the issue out of
    the session manager's map and, through the completion callback, out
    of the task manager's active map. *)
Theorem own_idle_frees_the_slot (task : nat) (st : state)
    (o : OpenCodeTaskStatus.t) (event : JS.value) :
  heap st !! task = Some o ->
  OpenCode.event_type event = "session.idle" ->
  JS.is_str (JS.or (JS.get "sessionID" event)
               (JS.get "sessionID" (JS.get "properties" event)))
    (OpenCodeTaskStatus.sessionId o) = true ->
  let n := OpenCodeTaskStatus.issueNumber o in
  let run :=
    OpenCode.handleEvent (Some Manager.onTaskComplete) task event st in
  fst run = Ok tt
  /\ tasks (snd run) = delete n (tasks st)
  /\ activeTasks (snd run) = delete n (activeTasks st)
  /\ (OpenCodeTaskStatus.eventSource o = true ->
      In (CloseEventSource (OpenCodeTaskStatus.sessionId o))
        (calls (system (snd run))))
  /\ (OpenCodeTaskStatus.statusCheckInterval o = true ->
      In (ClearInterval (OpenCodeTaskStatus.sessionId o))
        (calls (system (snd run)))).
Proof.
  intros Ho Htype Hsid n run. subst run.
  match goal with
  | |- ?G =>
      let Q := constr:(fun (r : result unit) (st' : state) =>
        r = Ok tt
        /\ tasks st' = delete n (tasks st)
        /\ activeTasks st' = delete n (activeTasks st)
        /\ (OpenCodeTaskStatus.eventSource o = true ->
            In (CloseEventSource (OpenCodeTaskStatus.sessionId o))
              (calls (system st')))
        /\ (OpenCodeTaskStatus.statusCheckInterval o = true ->
            In (ClearInterval (OpenCodeTaskStatus.sessionId o))
              (calls (system st')))) in
      change (wp (OpenCode.handleEvent (Some Manager.onTaskComplete) task
                    event) Q st)
  end.
  subst n.
  unfold OpenCode.handleEvent. cbv zeta. rewrite Htype. decide_literals.
  cbn [orb when].
  destruct st as [[w tr] hp tk act].
  destruct o as [sid num started link es la buf sci popup flag].
  cbn in Ho, Hsid.
  cbn [system world OpenCodeTaskStatus.startedAt
         OpenCodeTaskStatus.issueNumber OpenCodeTaskStatus.errorHandled] in *.
  unfold OpenCode.handle_idle, OpenCode.logI, logi, Manager.onTaskComplete,
    OpenCode.logI, logi.
  repeat (first
            [ lazymatch goal with
              | |- wp (OpenCode.handleSessionError _ _ _) _ _ =>
                  apply handleSessionError_run;
                  unfold writes; expose_state; intros ? _ _
              end
            | process_step Ho ];
          rewrite ?Hsid; cbn [andb orb negb when]).
  all: cbn [andb orb negb] in *; try discriminate.
  all: repeat split; try reflexivity; try discriminate.
  all: intros _; rewrite ?List.in_app_iff; cbn; tauto.
Qed.

End WithEnv.

Section Starting.
Context {E : Env}.
Variable config : Config.t.

(** X26.  If [startTask] of the task manager throws, the memory of the
    process is as before: no task object was created, no issue was added
    to either map, and no slot is taken.  If it returns, the issue is in
    the task manager's active map and, unless it was there before, in the
    session manager's map too. *)
Theorem failed_start_takes_no_slot (issue : Issue.t) (st : state) :
  let run := Manager.startTask config issue st in
  match fst run with
  | Throw _ => memory_kept st (snd run)
  | Ok context =>
      activeTasks (snd run) !! Issue.number issue = Some context
      /\ (activeTasks st !! Issue.number issue = None ->
          is_Some (tasks (snd run) !! Issue.number issue))
  end.
Proof.
  cbv zeta.
  match goal with
  | |- ?G =>
      let Q := constr:(fun (r : result TaskContext.t) (st' : state) =>
        match r with
        | Throw _ => memory_kept st st'
        | Ok context =>
            activeTasks st' !! Issue.number issue = Some context
            /\ (activeTasks st !! Issue.number issue = None ->
                is_Some (tasks st' !! Issue.number issue))
        end) in
      change (wp (Manager.startTask config issue) Q st)
  end.
  unfold Manager.startTask.
  destruct st as [[w tr] hp tk act].
  plain_step. plain_step.
  destruct (act !! Issue.number issue) as [c|] eqn:Hact.
  - unfold OpenCode.logI, logi. repeat (plain_step).
    split; [exact Hact | discriminate].
  - unfold OpenCode.startTask, OpenCode.checkConfiguration,
      OpenCode.subscribeToEvents, OpenCode.logI, OpenCode.logS, logi, log.
    cbv zeta.
    repeat (first
              [ lazymatch goal with
                | |- wp (in_sys (Worktree.createWorktree _ _ _)) _ _ =>
                    apply wp_in_sys, wp_opaque; intros [? | ?] ?;
                    expose_state
                | |- wp (read _) _ _ =>
                    apply wp_read; expose_state;
                    rewrite ?list_lookup_alter_eq,
                      ?(list_lookup_middle hp [] _ _ eq_refl);
                    cbn [fmap option_fmap option_map]
                end
              | plain_step ]).
    all: try (repeat split; fail).
    all: split; [apply lookup_insert_eq | intros _].
    all: rewrite lookup_insert_eq; eauto.
Qed.

End Starting.

(** The simulated world, except that the server does not answer status
    requests. *)
Definition unreachable : JS.value :=
  JS.Obj [("name", JS.Str "FetchError"); ("message", JS.Str "ECONNREFUSED")].

Definition silent_server : Env :=
  {| World := Sim.world;
     perform w c :=
       match c with
       | GetSessionStatus => (Throw unreachable, w)
       | _ => Sim.perform w c
       end;
     Date_now := Sim.now;
     listForRepo := @listForRepo Sim.env;
     getIssueComments := @getIssueComments Sim.env;
     JSON_parse := @JSON_parse Sim.env;
     JSON_stringify := @JSON_stringify Sim.env;
     generateOrchestratorPrompt := @generateOrchestratorPrompt Sim.env;
     generateContinuationPrompt := @generateContinuationPrompt Sim.env;
     createBranchSlug := @createBranchSlug Sim.env;
     normalizeMessage := @normalizeMessage Sim.env |}.

Definition unanswered : @state silent_server :=
  @Build_state silent_server
    (@Build_sys silent_server failing_session_world [])
    [running_task] {[ 7 := 0%nat ]} ∅.

Lemma failed_status_request_is_logged_witness :
  @OpenCode.checkSessionStatus silent_server 0 unanswered
  = (Ok tt,
     @Build_state silent_server
       (@Build_sys silent_server failing_session_world
          [GetSessionStatus;
           LogCall "error" (Some 7) "Failed to check session status"])
       [running_task] {[ 7 := 0%nat ]} ∅).
Proof.
  exact (@failed_status_request_is_logged silent_server 0 unanswered
           running_task unreachable failing_session_world eq_refl eq_refl).
Defined.

#[local] Existing Instance Sim.env.

(** Another session goes idle. *)
Definition foreign_idle : JS.value :=
  JS.Obj [("type", JS.Str "session.idle");
          ("properties", JS.Obj [("sessionID", JS.Str "ses_9")])].

Lemma foreign_idle_is_ignored_witness :
  let st := supervising failing_session_world in
  let st' :=
    snd (OpenCode.handleEvent (Some Manager.onTaskComplete) 0 foreign_idle
           st) in
  tasks st' = tasks st /\ activeTasks st' = activeTasks st
  /\ writes st' = writes st /\ flagged 0 st' = false.
Proof.
  cbv zeta.
  rewrite (foreign_idle_is_ignored (E := Sim.env) 0
             (supervising failing_session_world) running_task foreign_idle
             eq_refl eq_refl eq_refl).
  repeat split.
Defined.

Lemma own_idle_frees_the_slot_witness :
  let run :=
    OpenCode.handleEvent (Some Manager.onTaskComplete) 0 late_idle
      (supervising failing_session_world) in
  fst run = Ok tt
  /\ tasks (snd run) = delete 7 {[ 7 := 0%nat ]}
  /\ In (CloseEventSource "ses_1") (calls (system (snd run)))
  /\ In (ClearInterval "ses_1") (calls (system (snd run))).
Proof.
  destruct (own_idle_frees_the_slot (E := Sim.env) 0
              (supervising failing_session_world) running_task late_idle
              eq_refl eq_refl eq_refl)
    as (Hok & Htasks & _ & Hclose & Hclear).
  repeat split; auto.
Defined.

End ProcessFacts.

(* ===================================================================== *)
(** * The poll                                                            *)
(* ===================================================================== *)

Module PollerFacts.
Import Eff EffAccess EffFacts Store StoreFacts.

Section WithEnv.
Context {E : Env}.
Variable config : Config.t.
Variable cleanOldWorktrees : M state unit.

(** X28.  A poll never throws.  And if the process has a free slot and
    the listing of the ready issues fails, the poll logs the failure and
    ends there: in that poll the blocked issues are not listed and old
    worktrees are not cleaned. *)
Theorem poll_never_throws (st : state) :
  fst (Poller.poll config cleanOldWorktrees st) = Ok tt
  /\ (forall e w,
        OrchestratorFacts.can_start config st = true ->
        listForRepo (world (system st)) Labels.AI_TASK = (Throw e, w) ->
        snd (Poller.poll config cleanOldWorktrees st)
        = set_system
            {| world := w;
               calls := calls (system st)
                        ++ [LogCall "debug" None "Polling GitHub for tasks...";
                            ListForRepo Labels.AI_TASK;
                            LogCall "error" None "Failed to fetch issues";
                            LogCall "error" None "Error during poll"] |}
            st).
Proof.
  split.
  - unfold Poller.poll, OpenCode.logS, in_sys, log, log_entry, try_catch,
      mbind, M_bind, bind. cbn.
    repeat match goal with
    | |- context [let (_, _) := ?m ?s in _] =>
        destruct (m s) as [[[] | ?] ?]
    end; reflexivity.
  - intros e w Hcan Hlist.
    pose proof (ClientFacts.getIssuesWithLabel_run Labels.AI_TASK
                  [Labels.AI_IN_PROGRESS]
                  {| world := world (system st);
                     calls := calls (system st)
                              ++ [LogCall "debug" None
                                    "Polling GitHub for tasks..."] |})
      as Hrun.
    cbn [world] in Hrun. rewrite Hlist in Hrun.
    unfold Poller.poll, OpenCode.logS, log, log_entry.
    unfold try_catch, mbind at 1, M_bind at 1, bind at 1, in_sys at 1.
    cbn [system set_system].
    unfold Orchestrator.checkNewTasks.
    rewrite (fst_bind_throw _ _ _ e
               (set_system
                  {| world := w;
                     calls := (calls (system st)
                               ++ [LogCall "debug" None
                                     "Polling GitHub for tasks..."])
                              ++ [ListForRepo Labels.AI_TASK;
                                  LogCall "error" None
                                    "Failed to fetch issues"] |} st)).
    + unfold in_sys. cbn. now rewrite <- !app_assoc.
    + match goal with
      | |- _ ?s1 = _ =>
          rewrite (fst_bind_ok (Manager.canStartNewTask config) _ s1 _ s1
                     eq_refl)
      end.
      cbn [activeTasks set_system].
      unfold OrchestratorFacts.can_start, OrchestratorFacts.maxConcurrent
        in Hcan.
      rewrite Hcan. cbn [negb]. apply fst_bind_throw. unfold in_sys.
      cbn [system set_system]. now rewrite Hrun.
Qed.

End WithEnv.
End PollerFacts.

(* ===================================================================== *)
(** * The paging loop of getIssueComments                                 *)
(* ===================================================================== *)

Module PagingFacts.
Import Eff EffAccess EffFacts Paging.

Section WithEnv.
Context {E : Env}.
Variable listComments :
  World -> Z -> Z -> result (list RawComment) * World.
Variable issueNumber : Z.

(** From world [w], the requests for the pages [page], [page + 1], ...
    are answered with [pages], one after the other, and leave [w']. *)
Fixpoint answered (w : World) (page : Z) (pages : list (list RawComment))
    (w' : World) : Prop :=
  match pages with
  | [] => w = w'
  | data :: rest =>
      exists w1,
        listComments w issueNumber page = (Ok data, w1)
        /\ answered w1 (page + 1) rest w'
  end.

Lemma fetch_pages_full (full : list (list RawComment)) :
  forall fuel page allComments s w1,
    answered (world s) page full w1 ->
    Forall (fun data => (perPage <= length data)%nat) full ->
    fetch_pages listComments (length full + fuel) issueNumber page
      allComments s
    = fetch_pages listComments fuel issueNumber
        (page + Z.of_nat (length full))
        (allComments ++ map convert (concat full))
        {| world := w1; calls := calls s |}.
Proof.
  induction full as [|data full IH]; intros fuel page allComments s w1 Hans
    Hfull.
  - cbn in *. subst w1. rewrite app_nil_r, Z.add_0_r. now destruct s.
  - destruct Hans as (w & Hpage & Hans).
    apply Forall_cons in Hfull as [Hdata Hfull].
    cbn [length Nat.add fetch_pages].
    unfold mbind at 1, M_bind at 1, bind at 1, call_listComments at 1.
    rewrite Hpage.
    assert (Hsome : (length data =? 0)%nat = false)
        by (apply Nat.eqb_neq; unfold perPage in Hdata; lia).
    assert (Hmore : (length data <? perPage)%nat = false)
        by (apply Nat.ltb_ge; exact Hdata).
    rewrite Hsome, Hmore.
    rewrite (IH fuel (page + 1) _
               {| world := w; calls := calls s |} w1 Hans Hfull).
    cbn [calls concat]. rewrite map_app, app_assoc.
    now replace (page + 1 + Z.of_nat (length full))
      with (page + Z.of_nat (S (length full))) by lia.
Qed.

(** X29.  When the comment listing answers full pages and then a page of
    fewer than 100 comments, [getIssueComments] returns the comments of
    all these pages, in order, and asks for no further page.  When the
    request after the full pages fails instead, it returns no comment at
    all: the comments of the pages already read are dropped, and the
    failure is only logged. *)
Theorem getIssueComments_pages (full : list (list RawComment))
    (answer : result (list RawComment)) (fuel : nat) (s : sys)
    (w1 w2 : World) :
  answered (world s) 1 full w1 ->
  Forall (fun data => (perPage <= length data)%nat) full ->
  listComments w1 issueNumber (1 + Z.of_nat (length full)) = (answer, w2) ->
  (length full < fuel)%nat ->
  match answer with
  | Ok last =>
      (length last < perPage)%nat ->
      Paging.getIssueComments listComments fuel issueNumber s
      = (Ok (Some (map convert (concat (full ++ [last])))),
         {| world := w2;
            calls := calls s
                     ++ [LogCall "debug" (Some issueNumber)
                           "Fetched all comments"] |})
  | Throw _ =>
      Paging.getIssueComments listComments fuel issueNumber s
      = (Ok (Some []),
         {| world := w2;
            calls := calls s
                     ++ [LogCall "error" (Some issueNumber)
                           "Failed to fetch comments"] |})
  end.
Proof.
  intros Hans Hfull Hlast Hfuel.
  replace fuel with (length full + S (fuel - S (length full)))%nat by lia.
  assert (Hloop :
            fetch_pages listComments
              (length full + S (fuel - S (length full))) issueNumber 1 [] s
            = match answer with
              | Ok data =>
                  if (length data =? 0)%nat
                  then ret (Some (map convert (concat full)))
                  else if (length data <? perPage)%nat
                       then ret (Some (map convert (concat full)
                                       ++ map convert data))
                       else fetch_pages listComments
                              (fuel - S (length full)) issueNumber
                              (1 + Z.of_nat (length full) + 1)
                              (map convert (concat full)
                               ++ map convert data)
              | Throw e => throw e
              end {| world := w2; calls := calls s |}).
  { rewrite (fetch_pages_full full _ 1 [] s w1 Hans Hfull).
    cbn [fetch_pages app].
    unfold mbind at 1, M_bind at 1, bind at 1, call_listComments at 1.
    cbn [world calls]. rewrite Hlast. now destruct answer. }
  destruct answer as [last | e].
  - intros Hshort. unfold Paging.getIssueComments, try_catch.
    unfold mbind at 1, M_bind at 1, bind at 1. rewrite Hloop.
    rewrite concat_app, map_app. cbn [concat app]. rewrite app_nil_r.
    destruct last as [|c last].
    + cbn. now rewrite app_nil_r.
    + apply Nat.ltb_lt in Hshort.
      change ((length (c :: last) =? 0)%nat) with false. cbv iota.
      rewrite Hshort. reflexivity.
  - unfold Paging.getIssueComments, try_catch.
    unfold mbind at 1, M_bind at 1, bind at 1. rewrite Hloop. reflexivity.
Qed.

End WithEnv.

(** A listing of 101 comments, 100 to a page. *)

Definition numbered (n : nat) : RawComment :=
  {| id := Z.of_nat n; body := Some "ok"; login := Some "alice";
     created_at := Z.of_nat n |}.

Definition first_page : list RawComment := map numbered (seq 0 100).
Definition second_page : list RawComment := [numbered 100].

Definition two_pages (w : @World Sim.env) (issueNumber page : Z)
    : result (list RawComment) * @World Sim.env :=
  (Ok (if page =? 1 then first_page
       else if page =? 2 then second_page
       else []), w).

Lemma getIssueComments_pages_witness :
  fst (Paging.getIssueComments two_pages 5 7
         (Sim.start GitHubFacts.absent_label_world))
  = Ok (Some (map convert (map numbered (seq 0 101)))).
Proof.
  pose proof (getIssueComments_pages two_pages 7 [first_page]
                (Ok second_page) 5
                (Sim.start GitHubFacts.absent_label_world)
                GitHubFacts.absent_label_world
                GitHubFacts.absent_label_world) as H.
  cbv beta iota in H. rewrite H.
  - reflexivity.
  - eexists. split; reflexivity.
  - repeat constructor.
  - reflexivity.
  - cbn. lia.
  - cbn. unfold perPage. lia.
Defined.

End PagingFacts.
